(** * MindForge: progression and puzzle-session core

    A shallow embedding of the [MindForge] class of
    [src/js/core/game.js] (and of its copy inside the bundle
    [public/js/app.js]), followed by the properties of the progression
    engine, the scoring function, the session controller and the
    persistence functions.

    Conventions of the embedding:
    - JS numbers that the game logic counts with (levels, experience
      points, indices, milliseconds) are integers of [Z]; the exponential
      of [calculateXPForNextLevel] is taken in exact arithmetic.  IEEE
      rounding is not modelled: the integers stand for the doubles that
      hold them exactly, which is so while magnitudes stay within 2^53 and
      levels below 250.
    - [Date.now()] is an argument [now] of the functions that read the
      clock for the game state; the readings that stamp the events of the
      log are held by the tab.
    - A method is a computation over the tab of the browser, which holds
      [gameState], the item ['mindforge_analytics'] of [sessionStorage]
      that [logEvent] extends, and what the methods ask of the document;
      it either returns or throws.  A method that reads and writes
      [gameState] only is a computation over [gameState].
    - The DOM (toasts, screens, panels, with it [gameState.currentScreen])
      is outside the embedding but for the elements whose presence decides
      what code runs: the other calls into it are taken to return, and
      what a method shows is the value it reports.  Writes to storage are
      taken to succeed.
    - A [while] loop is run with fuel; the development proves that the
      fuel handed to the one loop of the class always suffices. *)

From Stdlib Require Import ZArith Ascii String Bool Lia.
From stdpp Require Import base option list gmap strings pretty.

Local Open Scope Z_scope.

(** ** Computations that mutate a state and may throw *)

Inductive exn := TypeError | SyntaxError.

Inductive res (A : Type) :=
  | Ok (a : A)
  | Throw (e : exn)
  | OutOfFuel.
Arguments Ok {A} a.
Arguments Throw {A} e.
Arguments OutOfFuel {A}.

Definition M (S A : Type) : Type := S → res A * S.

#[global] Instance M_ret {S} : MRet (M S) := λ A a s, (Ok a, s).

#[global] Instance M_bind {S} : MBind (M S) := λ A B k m s,
  match m s with
  | (Ok a, s') => k a s'
  | (Throw e, s') => (Throw e, s')
  | (OutOfFuel, s') => (OutOfFuel, s')
  end.

(** Computations that touch no state. *)
#[global] Instance res_ret : MRet res := λ A a, Ok a.

#[global] Instance res_bind : MBind res := λ A B k m,
  match m with
  | Ok a => k a
  | Throw e => Throw e
  | OutOfFuel => OutOfFuel
  end.

Definition lift {S A} (r : res A) : M S A := λ s, (r, s).

Definition get {S} : M S S := λ s, (Ok s, s).
Definition modify {S} (f : S → S) : M S unit := λ s, (Ok tt, f s).
Definition throw {S A} (e : exn) : M S A := λ s, (Throw e, s).

(** [try { m } catch (error) { }]: the mutations made before the throw stay. *)
Definition try_catch {S} (m : M S unit) : M S unit :=
  λ s, match m s with
       | (Throw _, s') => (Ok tt, s')
       | r => r
       end.

(** [while (cond) { body }] *)
Fixpoint while_ {S} (fuel : nat) (cond : S → bool) (body : M S unit) : M S unit :=
  λ s, if cond s then
         match fuel with
         | O => (OutOfFuel, s)
         | Datatypes.S fuel' =>
             match body s with
             | (Ok _, s') => while_ fuel' cond body s'
             | r => r
             end
         end
       else (Ok tt, s).

(** ** JS values, as [JSON.parse] builds them, and [undefined] *)

#[warnings="-register-all"]
Inductive value :=
  | VUndefined
  | VNull
  | VBool (b : bool)
  | VNum (n : Z)
  | VStr (s : string)
  | VArr (items : list value)
  | VObj (fields : list (string * value)).

(** [if (v)] *)
Definition truthy (v : value) : bool :=
  match v with
  | VUndefined | VNull => false
  | VBool b => b
  | VNum n => negb (n =? 0)
  | VStr s => negb (String.eqb s "")
  | VArr _ | VObj _ => true
  end.

(** The own enumerable properties of a value, as [{...v}] copies them:
    the fields of an object (of two fields under one key the first
    counts), the elements of an array and the characters of a string under
    their indices, nothing for the other values. *)
Definition own_props (v : value) : gmap string value :=
  match v with
  | VObj fields => list_to_map fields
  | VArr items => list_to_map (imap (λ i x, (pretty i, x)) items)
  | VStr s =>
      list_to_map (imap (λ i c, (pretty i, VStr (String c EmptyString)))
                        (list_ascii_of_string s))
  | _ => ∅
  end.

(** [{...a, ...b}] for an object [a] *)
Definition spread (a : gmap string value) (b : value) : gmap string value :=
  own_props b ∪ a.

(** [v.k] and [v[i]], for a key that is neither inherited nor [length]:
    reading a property of [null] or [undefined] throws. *)
Definition get_prop (v : value) (k : string) : res value :=
  match v with
  | VUndefined | VNull => Throw TypeError
  | _ => Ok (default VUndefined (own_props v !! k))
  end.

(** Key equality of a [Map] (SameValueZero): primitives by value; two
    objects or arrays that [JSON.parse] built are never the same object. *)
Definition same_value_zero (a b : value) : bool :=
  match a, b with
  | VUndefined, VUndefined | VNull, VNull => true
  | VBool x, VBool y => Bool.eqb x y
  | VNum x, VNum y => x =? y
  | VStr x, VStr y => String.eqb x y
  | _, _ => false
  end.

(** A [Map]: its entries in insertion order. *)
Fixpoint Map_set (k v : value) (m : list (value * value)) : list (value * value) :=
  match m with
  | [] => [(k, v)]
  | (k', v') :: m' =>
      if same_value_zero k' k then (k', v) :: m' else (k', v') :: Map_set k v m'
  end.

(** [new Map(iterable)]: every item the iterable yields must be an
    object, whose properties [0] and [1] become key and value. *)
Definition Map_add_entry (m : list (value * value)) (item : value)
  : res (list (value * value)) :=
  match item with
  | VArr _ | VObj _ =>
      k ← get_prop item "0";
      v ← get_prop item "1";
      mret (Map_set k v m)
  | _ => Throw TypeError
  end.

Fixpoint Map_add_entries (m : list (value * value)) (items : list value)
  : res (list (value * value)) :=
  match items with
  | [] => mret m
  | item :: rest => m' ← Map_add_entry m item; Map_add_entries m' rest
  end.

Definition Map_new (iterable : value) : res (list (value * value)) :=
  match iterable with
  | VUndefined | VNull => mret []
  | VArr items => Map_add_entries [] items
  | VStr s => if String.eqb s "" then mret [] else Throw TypeError
  | VBool _ | VNum _ | VObj _ => Throw TypeError
  end.

(** [Array.from(map.entries())] *)
Definition Map_entries (m : list (value * value)) : value :=
  VArr (map (λ e, VArr [e.1; e.2]) m).

(** What [JSON.parse(JSON.stringify(v))] is for an object or array [v]:
    a property whose value is [undefined] is left out, an [undefined]
    array element becomes [null]. *)
Fixpoint jsonify (v : value) : value :=
  match v with
  | VArr items =>
      VArr (map (λ x, match x with VUndefined => VNull | _ => jsonify x end) items)
  | VObj fields =>
      VObj ((fix go (l : list (string * value)) : list (string * value) :=
               match l with
               | [] => []
               | (k, VUndefined) :: r => go r
               | (k, x) :: r => (k, jsonify x) :: go r
               end) fields)
  | _ => v
  end.

(** A string kept in [localStorage], by what [JSON.parse] makes of it. *)
Inductive text :=
  | Empty
  | Unparseable
  | Json (v : value).

Definition JSON_parse (t : text) : res value :=
  match t with
  | Json v => Ok v
  | Empty | Unparseable => Throw SyntaxError
  end.

Definition JSON_stringify (v : value) : text := Json (jsonify v).

(** The raw view of the persisted part of [gameState]: [loadGameData] and
    [saveGameData] copy [user], [settings] and [chambers] whatever they
    hold.  [mindforge_save] is the [localStorage] item of that name,
    [None] when there is none. *)
Record Page := {
  raw_user : gmap string value;
  raw_settings : gmap string value;
  raw_chambers : list (value * value);
  mindforge_save : option text
}.

Definition set_raw_user (v : gmap string value) (pg : Page) : Page :=
  {| raw_user := v; raw_settings := raw_settings pg;
     raw_chambers := raw_chambers pg; mindforge_save := mindforge_save pg |}.
Definition set_raw_settings (v : gmap string value) (pg : Page) : Page :=
  {| raw_user := raw_user pg; raw_settings := v;
     raw_chambers := raw_chambers pg; mindforge_save := mindforge_save pg |}.
Definition set_raw_chambers (v : list (value * value)) (pg : Page) : Page :=
  {| raw_user := raw_user pg; raw_settings := raw_settings pg;
     raw_chambers := v; mindforge_save := mindforge_save pg |}.
Definition set_mindforge_save (v : option text) (pg : Page) : Page :=
  {| raw_user := raw_user pg; raw_settings := raw_settings pg;
     raw_chambers := raw_chambers pg; mindforge_save := v |}.

(** [if (savedData)] for the result of [getItem] *)
Definition present (savedData : option text) : option text :=
  match savedData with
  | Some Empty | None => None
  | Some t => Some t
  end.

(** The events that a storage item holds, when it is one that the loggers
    can extend: no item or an empty one, or an array. *)
Definition storedEvents (item : option text) : option (list value) :=
  match present item with
  | None => Some []
  | Some (Json (VArr events)) => Some events
  | Some _ => None
  end.

(** ** The typed view of [gameState] *)

(** An answer read from the page: a radio index or trimmed text. *)
Inductive answer := ANum (n : Z) | AStr (s : string).

(** A catalogue puzzle.  [None] stands for a property that is absent
    ([undefined]); for [correctAnswer] it also stands for a value that is
    neither a number nor a string, for [puzzle_type] (the property [type])
    for one that is not a string, and for [options] for one that is not
    an array. *)
Record Puzzle := {
  puzzle_id : string;
  puzzle_type : option string;
  difficulty : string;
  options : option (list string);
  correctAnswer : option answer;
  explanation : string;
  hints : option (list string);
  points : option Z
}.

Record Progress := {
  completed : Z;
  total : Z;
  bestTimes : list Z;
  p_hintsUsed : Z;
  accuracy : Z;
  unlockedPuzzles : Z
}.

(** A chamber; the display strings of a definition (title, subtitle,
    description, icon, difficulty) take no part in the logic. *)
Record Chamber := {
  unlockLevel : Z;
  puzzleCount : Z;
  progress : Progress;
  puzzles : list Puzzle
}.

Record User := {
  level : Z;
  xp : Z;
  xpToNext : Z;
  totalSolved : Z;
  currentStreak : Z;
  chambersUnlocked : Z;
  achievements : list string
}.

Record Settings := {
  soundEffects : bool;
  autoHints : bool;
  highContrast : bool;
  reducedMotion : bool;
  fontSize : string
}.

Record Analytics := {
  sessionStart : Z;
  puzzleAttempts : Z;
  a_hintsUsed : Z;
  timeSpent : Z
}.

(** [gameState.currentPuzzle] *)
Record CurrentPuzzle := {
  chamberId : string;
  puzzleIndex : Z;
  puzzle : Puzzle;
  startTime : Z;
  hintsUsed : Z;
  attempts : Z
}.

Record GameState := {
  currentChamber : option string;
  currentPuzzle : option CurrentPuzzle;
  user : User;
  settings : Settings;
  chambers : gmap string Chamber;
  analytics : Analytics
}.

(** Field assignments. *)
Definition set_xp (v : Z) (u : User) : User :=
  {| level := level u; xp := v; xpToNext := xpToNext u;
     totalSolved := totalSolved u; currentStreak := currentStreak u;
     chambersUnlocked := chambersUnlocked u; achievements := achievements u |}.
Definition set_level (v : Z) (u : User) : User :=
  {| level := v; xp := xp u; xpToNext := xpToNext u;
     totalSolved := totalSolved u; currentStreak := currentStreak u;
     chambersUnlocked := chambersUnlocked u; achievements := achievements u |}.
Definition set_xpToNext (v : Z) (u : User) : User :=
  {| level := level u; xp := xp u; xpToNext := v;
     totalSolved := totalSolved u; currentStreak := currentStreak u;
     chambersUnlocked := chambersUnlocked u; achievements := achievements u |}.
Definition set_totalSolved (v : Z) (u : User) : User :=
  {| level := level u; xp := xp u; xpToNext := xpToNext u;
     totalSolved := v; currentStreak := currentStreak u;
     chambersUnlocked := chambersUnlocked u; achievements := achievements u |}.
Definition set_currentStreak (v : Z) (u : User) : User :=
  {| level := level u; xp := xp u; xpToNext := xpToNext u;
     totalSolved := totalSolved u; currentStreak := v;
     chambersUnlocked := chambersUnlocked u; achievements := achievements u |}.
Definition set_chambersUnlocked (v : Z) (u : User) : User :=
  {| level := level u; xp := xp u; xpToNext := xpToNext u;
     totalSolved := totalSolved u; currentStreak := currentStreak u;
     chambersUnlocked := v; achievements := achievements u |}.

Definition set_completed (v : Z) (p : Progress) : Progress :=
  {| completed := v; total := total p; bestTimes := bestTimes p;
     p_hintsUsed := p_hintsUsed p; accuracy := accuracy p;
     unlockedPuzzles := unlockedPuzzles p |}.
Definition set_progress (p : Progress) (c : Chamber) : Chamber :=
  {| unlockLevel := unlockLevel c; puzzleCount := puzzleCount c;
     progress := p; puzzles := puzzles c |}.

Definition set_startTime (v : Z) (c : CurrentPuzzle) : CurrentPuzzle :=
  {| chamberId := chamberId c; puzzleIndex := puzzleIndex c; puzzle := puzzle c;
     startTime := v; hintsUsed := hintsUsed c; attempts := attempts c |}.
Definition set_hintsUsed (v : Z) (c : CurrentPuzzle) : CurrentPuzzle :=
  {| chamberId := chamberId c; puzzleIndex := puzzleIndex c; puzzle := puzzle c;
     startTime := startTime c; hintsUsed := v; attempts := attempts c |}.
Definition set_attempts (v : Z) (c : CurrentPuzzle) : CurrentPuzzle :=
  {| chamberId := chamberId c; puzzleIndex := puzzleIndex c; puzzle := puzzle c;
     startTime := startTime c; hintsUsed := hintsUsed c; attempts := v |}.

Definition set_puzzleAttempts (v : Z) (a : Analytics) : Analytics :=
  {| sessionStart := sessionStart a; puzzleAttempts := v;
     a_hintsUsed := a_hintsUsed a; timeSpent := timeSpent a |}.
Definition set_a_hintsUsed (v : Z) (a : Analytics) : Analytics :=
  {| sessionStart := sessionStart a; puzzleAttempts := puzzleAttempts a;
     a_hintsUsed := v; timeSpent := timeSpent a |}.
Definition set_timeSpent (v : Z) (a : Analytics) : Analytics :=
  {| sessionStart := sessionStart a; puzzleAttempts := puzzleAttempts a;
     a_hintsUsed := a_hintsUsed a; timeSpent := v |}.

Definition set_currentChamber (v : option string) (gs : GameState) : GameState :=
  {| currentChamber := v; currentPuzzle := currentPuzzle gs; user := user gs;
     settings := settings gs; chambers := chambers gs; analytics := analytics gs |}.
Definition set_currentPuzzle (v : option CurrentPuzzle) (gs : GameState) : GameState :=
  {| currentChamber := currentChamber gs; currentPuzzle := v; user := user gs;
     settings := settings gs; chambers := chambers gs; analytics := analytics gs |}.
Definition set_user (v : User) (gs : GameState) : GameState :=
  {| currentChamber := currentChamber gs; currentPuzzle := currentPuzzle gs; user := v;
     settings := settings gs; chambers := chambers gs; analytics := analytics gs |}.
Definition set_chambers (v : gmap string Chamber) (gs : GameState) : GameState :=
  {| currentChamber := currentChamber gs; currentPuzzle := currentPuzzle gs; user := user gs;
     settings := settings gs; chambers := v; analytics := analytics gs |}.
Definition set_analytics (v : Analytics) (gs : GameState) : GameState :=
  {| currentChamber := currentChamber gs; currentPuzzle := currentPuzzle gs; user := user gs;
     settings := settings gs; chambers := chambers gs; analytics := v |}.

(** [this.gameState.user.f = v], [.analytics.f = v], [currentPuzzle.f = v] *)
Definition on_user (f : User → User) : M GameState unit :=
  modify (λ gs, set_user (f (user gs)) gs).
Definition on_analytics (f : Analytics → Analytics) : M GameState unit :=
  modify (λ gs, set_analytics (f (analytics gs)) gs).
Definition on_currentPuzzle (f : CurrentPuzzle → CurrentPuzzle) : M GameState unit :=
  modify (λ gs, set_currentPuzzle (f <$> currentPuzzle gs) gs).

(** What a session method reports to the player. *)
Inductive outcome :=
  | NotUnlocked        (* toast 'This chamber is not yet unlocked.' *)
  | ChamberExhausted   (* toast 'All puzzles in this chamber are completed!' *)
  | PuzzleNotFound     (* toast 'Puzzle not found.' *)
  | Started            (* the puzzle screen is shown *)
  | ChamberCompleted   (* toast 'Chamber completed! Well done!' *)
  | NoMoreHints        (* toast 'No more hints available!' *)
  | Hint (text : option string) (* the hint panel shows hints[hintIndex] *)
  | Correct (finalScore : Z)    (* success feedback *)
  | Incorrect                   (* encouragement toast *)
  | Ignored.                    (* a bare [return] *)

(** The chamber definitions of [initializeChambers] that matter to the
    logic: id, [unlockLevel], [puzzleCount]. *)
Definition chamberDefinitions : list (string * (Z * Z)) :=
  [ ("pattern-recognition", (1, 25)); ("logical-sequences", (1, 25));
    ("spatial-reasoning", (3, 25)); ("deductive-reasoning", (5, 25));
    ("inductive-reasoning", (7, 25)); ("analytical-thinking", (10, 25));
    ("mathematical-logic", (12, 25)); ("verbal-reasoning", (8, 25));
    ("conditional-logic", (15, 25)); ("set-theory", (18, 25));
    ("logical-paradoxes", (20, 25)); ("meta-reasoning", (25, 30)) ]%string.

(** [chamber.puzzles[i]] for a number [i]: [undefined] out of range. *)
Definition js_index {A} (l : list A) (i : Z) : option A :=
  if 0 <=? i then l !! Z.to_nat i else None.

(** [x || d] on a number that may be absent: [undefined] and [0] are falsy. *)
Definition js_or (x : option Z) (d : Z) : Z :=
  match x with
  | Some v => if v =? 0 then d else v
  | None => d
  end.

(** [s.toLowerCase()] on the ASCII letters. *)
Definition lower_ascii (c : ascii) : ascii :=
  let n := nat_of_ascii c in
  if (Nat.leb 65 n && Nat.leb n 90)%bool then ascii_of_nat (n + 32) else c.

Fixpoint toLowerCase (s : string) : string :=
  match s with
  | EmptyString => EmptyString
  | String c r => String (lower_ascii c) (toLowerCase r)
  end.

(** ** The tab of the browser *)

(** What the methods ask of the document: whether the elements
    [#puzzle-number], [#puzzle-container] and [#answer-input] are there. *)
Record Document := {
  puzzle_number : bool;
  puzzle_container : bool;
  answer_input : bool
}.

(** The tab: the game, the item ['mindforge_analytics'] of
    [sessionStorage], the document, and the clock readings of the log:
    [Date_now k] is what [Date.now()] gives the call of [logEvent] that
    finds [k] events stored. *)
Record Tab := {
  game : GameState;
  mindforge_analytics : option text;
  document : Document;
  Date_now : nat → Z
}.

Definition set_game (v : GameState) (tab : Tab) : Tab :=
  {| game := v; mindforge_analytics := mindforge_analytics tab;
     document := document tab; Date_now := Date_now tab |}.

Definition set_mindforge_analytics (v : option text) (tab : Tab) : Tab :=
  {| game := game tab; mindforge_analytics := v;
     document := document tab; Date_now := Date_now tab |}.

(** A computation over [gameState], run in the tab. *)
Definition in_game {A} (m : M GameState A) : M Tab A :=
  λ tab, let r := m (game tab) in (r.1, set_game r.2 tab).

(** The reading of [Date.now()] in a call of [logEvent] made now. *)
Definition stamp (tab : Tab) : Z :=
  Date_now tab (length (default [] (storedEvents (mindforge_analytics tab)))).

(** [s.padStart(targetLength, c)] for a pad [c] of one character *)
Definition padStart (targetLength : nat) (c : ascii) (s : string) : string :=
  string_of_list_ascii (replicate (targetLength - String.length s) c) +:+ s.

(** ** The methods [formatTime] and [logEvent] of the class [MindForge] *)

Module MindForge.

(** [formatTime] *)
Definition formatTime (milliseconds : Z) : string :=
  let seconds := milliseconds `div` 1000 in
  let minutes := seconds `div` 60 in
  if 0 <? minutes
  then pretty minutes +:+ ":" +:+ padStart 2 "0" (pretty (seconds `rem` 60))
  else pretty seconds +:+ "s".

(** [logEvent]; the clock reads [now], and the write to [sessionStorage]
    is taken to succeed. *)
Definition logEvent (now : Z) (eventName : string) (data : value) : M Tab unit :=
  tab ← get;
  let event :=
    VObj (map_to_list
            (spread (list_to_map
                       [ ("event", VStr eventName); ("timestamp", VNum now);
                         ("sessionId", VNum (sessionStart (analytics (game tab)))) ])
                    data)) in
  events ← lift (JSON_parse (default (Json (VArr [])) (present (mindforge_analytics tab))));
  match events with
  | VArr events =>
      let events := events ++ [event] in
      modify (set_mindforge_analytics (Some (JSON_stringify (VArr events))))
  | _ => throw TypeError
  end.

End MindForge.

(** ** The class [MindForge] of [src/js/core/game.js] *)

Module Game.

(** [logEvent] *)
Definition logEvent : Z → string → value → M Tab unit := MindForge.logEvent.

(** [loadGameData] *)
Definition loadGameData : M Page unit :=
  try_catch (
    pg ← get;
    let savedData := mindforge_save pg in
    match present savedData with
    | Some savedData =>
        data ← lift (JSON_parse savedData);
        data_user ← lift (get_prop data "user");
        modify (λ pg, set_raw_user (spread (raw_user pg) data_user) pg);;
        data_settings ← lift (get_prop data "settings");
        modify (λ pg, set_raw_settings (spread (raw_settings pg) data_settings) pg);;
        data_chambers ← lift (get_prop data "chambers");
        if truthy data_chambers
        then chambers ← lift (Map_new data_chambers); modify (set_raw_chambers chambers)
        else mret tt
    | None => mret tt
    end).

(** [saveGameData]; the write to [localStorage] is taken to succeed. *)
Definition saveGameData (now : Z) : M Page unit :=
  try_catch (
    pg ← get;
    let saveData :=
      VObj [ ("user", VObj (map_to_list (raw_user pg)));
             ("settings", VObj (map_to_list (raw_settings pg)));
             ("chambers", Map_entries (raw_chambers pg));
             ("lastSaved", VNum now) ] in
    modify (set_mindforge_save (Some (JSON_stringify saveData)))).

(** [generatePlaceholderPuzzles] *)
Definition generatePlaceholderPuzzles (chamberId : string) : M GameState (list Puzzle) :=
  gs ← get;
  match chambers gs !! chamberId with
  | None => throw TypeError
  | Some chamber =>
      mret ((λ i,
              {| puzzle_id := chamberId +:+ "_" +:+ pretty i;
                 puzzle_type := Some "multiple-choice";
                 difficulty :=
                   if i <=? 8 then "easy" else if i <=? 16 then "medium" else "hard";
                 options := Some ["Option A"; "Option B"; "Option C"; "Option D"];
                 correctAnswer := Some (ANum 0);
                 explanation := "This is the explanation for puzzle " +:+ pretty i +:+ ".";
                 hints := Some [ "First hint for puzzle " +:+ pretty i;
                                 "Second hint for puzzle " +:+ pretty i;
                                 "Final hint for puzzle " +:+ pretty i ];
                 points := Some (if i <=? 8 then 10 else if i <=? 16 then 15 else 25) |})
            <$> seqZ 1 (puzzleCount chamber))
  end.

(** [generatePuzzlesForChamber]; [PuzzleGenerators] is the registry
    [window.PuzzleGenerators] with what each generator returns. *)
Definition generatePuzzlesForChamber (PuzzleGenerators : string → option (list Puzzle))
    (chamberId : string) : M GameState (list Puzzle) :=
  match PuzzleGenerators chamberId with
  | Some generated => mret generated
  | None => generatePlaceholderPuzzles chamberId
  end.

Definition implementedChambers : list string :=
  ["pattern-recognition"; "logical-sequences"; "spatial-reasoning"].

(** [loadChamberPuzzles] *)
Definition loadChamberPuzzles (PuzzleGenerators : string → option (list Puzzle))
  : M GameState unit :=
  foldr (λ chamberId (rest : M GameState unit),
           gs ← get;
           match chambers gs !! chamberId with
           | Some chamber =>
               if (length (puzzles chamber) =? 0)%nat then
                 generated ← generatePuzzlesForChamber PuzzleGenerators chamberId;
                 modify (λ gs, set_chambers
                   (<[chamberId :=
                        {| unlockLevel := unlockLevel chamber;
                           puzzleCount := puzzleCount chamber;
                           progress := progress chamber;
                           puzzles := generated |}]> (chambers gs)) gs);;
                 rest
               else rest
           | None => rest
           end)
        (mret tt) implementedChambers.

(** [initializeChambers] *)
Definition initializeChambers (PuzzleGenerators : string → option (list Puzzle))
  : M GameState unit :=
  foldr (λ chamberDef (rest : M GameState unit),
           gs ← get;
           let '(id, (unlock, count)) := chamberDef in
           match chambers gs !! id with
           | Some _ => rest
           | None =>
               modify (set_chambers
                 (<[id :=
                      {| unlockLevel := unlock; puzzleCount := count;
                         progress :=
                           {| completed := 0; total := count; bestTimes := [];
                              p_hintsUsed := 0; accuracy := 0;
                              unlockedPuzzles :=
                                if unlock <=? level (user gs) then 1 else 0 |};
                         puzzles := [] |}]> (chambers gs)));;
               rest
           end)
        (loadChamberPuzzles PuzzleGenerators) chamberDefinitions.

(** [calculateXPForNextLevel]: [Math.floor(100 * Math.pow(1.1, level - 1))] *)
Definition calculateXPForNextLevel (level : Z) : Z :=
  if 1 <=? level then (100 * 11 ^ (level - 1)) `div` 10 ^ (level - 1)
  else (100 * 10 ^ (1 - level)) `div` 11 ^ (1 - level).

(** [updateUnlockedChambers] *)
Definition updateUnlockedChambers : M GameState unit :=
  gs ← get;
  let unlockedCount :=
    map_fold (λ _ chamber n,
                if unlockLevel chamber <=? level (user gs) then n + 1 else n)
             0 (chambers gs) in
  on_user (set_chambersUnlocked unlockedCount).

(** The call [this.logEvent(eventName, data)] of a handler. *)
Definition this_logEvent (eventName : string) (data : value) : M Tab unit :=
  tab ← get;
  logEvent (stamp tab) eventName data.

(** The body of the level-up loop of [addXP]. *)
Definition levelUp : M Tab unit :=
  in_game (on_user (λ u, set_xp (xp u - xpToNext u) u));;
  in_game (on_user (λ u, set_level (level u + 1) u));;
  in_game (on_user (λ u, set_xpToNext (calculateXPForNextLevel (level u)) u));;
  in_game updateUnlockedChambers;;
  tab ← get;
  this_logEvent "level_up" (VObj [("newLevel", VNum (level (user (game tab))))]).

Definition levelUpDue (gs : GameState) : bool :=
  xpToNext (user gs) <=? xp (user gs).

(** Iterations that the loop of [addXP] can need from [gs]. *)
Definition levelUpFuel (gs : GameState) : nat :=
  S (Z.to_nat (xp (user gs) - xpToNext (user gs)) + Z.to_nat (- level (user gs))).

(** [addXP] *)
Definition addXP (amount : Z) : M Tab unit :=
  in_game (on_user (λ u, set_xp (xp u + amount) u));;
  tab ← get;
  while_ (levelUpFuel (game tab)) (λ tab, levelUpDue (game tab)) levelUp.

(** [calculateTimeBonus], the clock reading [now]. *)
Definition calculateTimeBonus (now startTime : Z) : Z :=
  let timeSpent := now - startTime in
  let maxBonus := 5 in
  let fastTime := 30000 in
  if timeSpent <=? fastTime then maxBonus
  else if timeSpent <=? fastTime * 2 then maxBonus `div` 2
  else 0.

(** [createMultipleChoiceInput]: [puzzle.options.forEach(...)] *)
Definition createMultipleChoiceInput (puzzle : Puzzle) : M Tab unit :=
  match options puzzle with
  | Some _ => mret tt
  | None => throw TypeError
  end.

(** [initializePuzzleContent]; the class has no method [createGridPuzzle],
    so that the call of it throws. *)
Definition initializePuzzleContent (puzzle : Puzzle) : M Tab unit :=
  tab ← get;
  if negb (puzzle_container (document tab)) || negb (answer_input (document tab))
  then mret tt
  else if bool_decide (puzzle_type puzzle = Some "multiple-choice"%string)
  then createMultipleChoiceInput puzzle
  else if bool_decide (puzzle_type puzzle = Some "text-input"%string)
  then mret tt
  else if bool_decide (puzzle_type puzzle = Some "grid"%string)
  then throw TypeError
  else mret tt.

(** [updatePuzzleScreen]: [#puzzle-number], when it is there, is given
    [chamber.puzzles.length] to show. *)
Definition updatePuzzleScreen : M Tab unit :=
  tab ← get;
  match currentPuzzle (game tab) with
  | None => mret tt
  | Some currentPuzzle =>
      (if puzzle_number (document tab)
       then match chambers (game tab) !! chamberId currentPuzzle with
            | Some _ => mret tt
            | None => throw TypeError
            end
       else mret tt);;
      initializePuzzleContent (puzzle currentPuzzle)
  end.

(** [startPuzzle] *)
Definition startPuzzle (now : Z) (chamberId : string) (puzzleIndex : Z)
  : M Tab outcome :=
  tab ← get;
  match chambers (game tab) !! chamberId with
  | None => throw TypeError
  | Some chamber =>
      match js_index (puzzles chamber) puzzleIndex with
      | None => mret PuzzleNotFound
      | Some puzzle =>
          in_game (modify (set_currentPuzzle (Some
            {| chamberId := chamberId; puzzleIndex := puzzleIndex; puzzle := puzzle;
               startTime := now; hintsUsed := 0; attempts := 0 |})));;
          updatePuzzleScreen;;
          this_logEvent "puzzle_started"
            (VObj [ ("chamber", VStr chamberId); ("puzzle", VNum puzzleIndex);
                    ("difficulty", VStr (difficulty puzzle)) ]);;
          mret Started
      end
  end.

(** [enterChamber] *)
Definition enterChamber (now : Z) (chamberId : string) : M Tab outcome :=
  tab ← get;
  match chambers (game tab) !! chamberId with
  | None => mret NotUnlocked
  | Some chamber =>
      if level (user (game tab)) <? unlockLevel chamber then mret NotUnlocked
      else
        in_game (modify (set_currentChamber (Some chamberId)));;
        let nextPuzzleIndex := completed (progress chamber) in
        if nextPuzzleIndex <? Z.of_nat (length (puzzles chamber))
        then startPuzzle now chamberId nextPuzzleIndex
        else mret ChamberExhausted
  end.

(** [validateAnswer] *)
Definition validateAnswer (userAnswer : answer) (correctAnswer : option answer)
  : M GameState bool :=
  match correctAnswer with
  | Some (ANum c) =>
      mret (match userAnswer with ANum n => n =? c | AStr _ => false end)
  | Some (AStr c) =>
      match userAnswer with
      | AStr s => mret (String.eqb (toLowerCase s) (toLowerCase c))
      | ANum _ => throw TypeError
      end
  | None => mret false
  end.

(** The score of [handleCorrectAnswer]. *)
Definition finalScore (now : Z) (currentPuzzle : CurrentPuzzle) : Z :=
  let timeBonus := calculateTimeBonus now (startTime currentPuzzle) in
  let hintPenalty := hintsUsed currentPuzzle * 2 in
  let attemptPenalty := (attempts currentPuzzle - 1) * 1 in
  let basePoints := js_or (points (puzzle currentPuzzle)) 10 in
  Z.max 1 (basePoints + timeBonus - hintPenalty - attemptPenalty).

(** [handleCorrectAnswer]; [now] and [later] are its two clock readings.
    Of the closing [saveGameData], which catches what it throws, the write
    to [localStorage] is outside the tab and its [logEvent] is not. *)
Definition handleCorrectAnswer (now later : Z) : M Tab outcome :=
  tab ← get;
  match currentPuzzle (game tab) with
  | None => throw TypeError
  | Some currentPuzzle =>
      let finalScore := finalScore now currentPuzzle in
      match chambers (game tab) !! chamberId currentPuzzle with
      | None => throw TypeError
      | Some chamber =>
          let progress' :=
            set_completed (completed (progress chamber) + 1) (progress chamber) in
          in_game (modify (set_chambers
            (<[chamberId currentPuzzle := set_progress progress' chamber]>
               (chambers (game tab)))));;
          in_game (on_user (λ u, set_totalSolved (totalSolved u + 1) u));;
          in_game (on_user (λ u, set_currentStreak (currentStreak u + 1) u));;
          addXP finalScore;;
          let spent := later - startTime currentPuzzle in
          in_game (on_analytics (λ a, set_timeSpent (timeSpent a + spent) a));;
          this_logEvent "puzzle_completed"
            (VObj [ ("chamber", VStr (chamberId currentPuzzle));
                    ("puzzle", VNum (puzzleIndex currentPuzzle));
                    ("attempts", VNum (attempts currentPuzzle));
                    ("hintsUsed", VNum (hintsUsed currentPuzzle));
                    ("timeSpent", VNum spent); ("score", VNum finalScore) ]);;
          try_catch (this_logEvent "game_saved" VUndefined);;
          mret (Correct finalScore)
      end
  end.

(** [handleIncorrectAnswer] *)
Definition handleIncorrectAnswer : M Tab outcome :=
  tab ← get;
  match currentPuzzle (game tab) with
  | None => throw TypeError
  | Some currentPuzzle =>
      (if 3 <=? attempts currentPuzzle
       then in_game (on_user (set_currentStreak 0))
       else mret tt);;
      this_logEvent "puzzle_attempt_failed"
        (VObj [ ("chamber", VStr (chamberId currentPuzzle));
                ("puzzle", VNum (puzzleIndex currentPuzzle));
                ("attempt", VNum (attempts currentPuzzle)) ]);;
      mret Incorrect
  end.

(** [checkAnswer]; [userAnswer] is what [getCurrentAnswer] read. *)
Definition checkAnswer (now later : Z) (userAnswer : option answer)
  : M Tab outcome :=
  tab ← get;
  match currentPuzzle (game tab) with
  | None => mret Ignored
  | Some currentPuzzle =>
      match userAnswer with
      | None => mret Ignored
      | Some userAnswer =>
          in_game (on_currentPuzzle (λ c, set_attempts (attempts c + 1) c));;
          in_game (on_analytics (λ a, set_puzzleAttempts (puzzleAttempts a + 1) a));;
          isCorrect ← in_game (validateAnswer userAnswer
                                 (correctAnswer (puzzle currentPuzzle)));
          if isCorrect : bool then handleCorrectAnswer now later
          else handleIncorrectAnswer
      end
  end.

(** [showHint] *)
Definition showHint : M Tab outcome :=
  tab ← get;
  match currentPuzzle (game tab) with
  | None => mret Ignored
  | Some currentPuzzle =>
      let hints := default [] (hints (puzzle currentPuzzle)) in
      let hintIndex := Z.min (hintsUsed currentPuzzle) (Z.of_nat (length hints) - 1) in
      if Z.of_nat (length hints) <=? hintIndex then mret NoMoreHints
      else
        in_game (on_currentPuzzle (λ c, set_hintsUsed (hintsUsed c + 1) c));;
        in_game (on_analytics (λ a, set_a_hintsUsed (a_hintsUsed a + 1) a));;
        this_logEvent "hint_used"
          (VObj [ ("chamber", VStr (chamberId currentPuzzle));
                  ("puzzle", VNum (puzzleIndex currentPuzzle));
                  ("hintLevel", VNum (hintsUsed currentPuzzle + 1)) ]);;
        mret (Hint (js_index hints hintIndex))
  end.

(** [nextPuzzle] *)
Definition nextPuzzle (now : Z) : M Tab outcome :=
  tab ← get;
  match currentPuzzle (game tab) with
  | None => mret Ignored
  | Some currentPuzzle =>
      match chambers (game tab) !! chamberId currentPuzzle with
      | None => throw TypeError
      | Some chamber =>
          let nextIndex := puzzleIndex currentPuzzle + 1 in
          if nextIndex <? Z.of_nat (length (puzzles chamber))
          then startPuzzle now (chamberId currentPuzzle) nextIndex
          else mret ChamberCompleted
      end
  end.

(** [resetPuzzle] *)
Definition resetPuzzle (now : Z) : M GameState unit :=
  on_currentPuzzle (λ c, set_startTime now (set_hintsUsed 0 (set_attempts 0 c))).

End Game.

(** ** The class [MindForge] of the bundle [public/js/app.js] *)

Module Bundle.

(** [logEvent]; the clock reads [now], and the write to [sessionStorage]
    is taken to succeed. *)
Definition logEvent (now : Z) (eventName : string) (data : value) : M Tab unit :=
  tab ← get;
  let event :=
    VObj (map_to_list
            (spread (list_to_map
                       [ ("event", VStr eventName); ("timestamp", VNum now);
                         ("sessionId", VNum (sessionStart (analytics (game tab)))) ])
                    data)) in
  events ← lift (JSON_parse (default (Json (VArr [])) (present (mindforge_analytics tab))));
  match events with
  | VArr events =>
      let events := events ++ [event] in
      modify (set_mindforge_analytics (Some (JSON_stringify (VArr events))))
  | _ => throw TypeError
  end.

(** [loadGameData] *)
Definition loadGameData : M Page unit :=
  try_catch (
    pg ← get;
    let savedData := mindforge_save pg in
    match present savedData with
    | Some savedData =>
        data ← lift (JSON_parse savedData);
        data_user ← lift (get_prop data "user");
        modify (λ pg, set_raw_user (spread (raw_user pg) data_user) pg);;
        data_settings ← lift (get_prop data "settings");
        modify (λ pg, set_raw_settings (spread (raw_settings pg) data_settings) pg);;
        data_chambers ← lift (get_prop data "chambers");
        if truthy data_chambers
        then chambers ← lift (Map_new data_chambers); modify (set_raw_chambers chambers)
        else mret tt
    | None => mret tt
    end).

(** [saveGameData]; the write to [localStorage] is taken to succeed. *)
Definition saveGameData (now : Z) : M Page unit :=
  try_catch (
    pg ← get;
    let saveData :=
      VObj [ ("user", VObj (map_to_list (raw_user pg)));
             ("settings", VObj (map_to_list (raw_settings pg)));
             ("chambers", Map_entries (raw_chambers pg));
             ("lastSaved", VNum now) ] in
    modify (set_mindforge_save (Some (JSON_stringify saveData)))).

(** [generatePlaceholderPuzzles] *)
Definition generatePlaceholderPuzzles (chamberId : string) : M GameState (list Puzzle) :=
  gs ← get;
  match chambers gs !! chamberId with
  | None => throw TypeError
  | Some chamber =>
      mret ((λ i,
              {| puzzle_id := chamberId +:+ "_" +:+ pretty i;
                 puzzle_type := Some "multiple-choice";
                 difficulty :=
                   if i <=? 8 then "easy" else if i <=? 16 then "medium" else "hard";
                 options := Some ["Option A"; "Option B"; "Option C"; "Option D"];
                 correctAnswer := Some (ANum 0);
                 explanation := "This is the explanation for puzzle " +:+ pretty i +:+ ".";
                 hints := Some [ "First hint for puzzle " +:+ pretty i;
                                 "Second hint for puzzle " +:+ pretty i;
                                 "Final hint for puzzle " +:+ pretty i ];
                 points := Some (if i <=? 8 then 10 else if i <=? 16 then 15 else 25) |})
            <$> seqZ 1 (puzzleCount chamber))
  end.

(** [generatePuzzlesForChamber]; [PuzzleGenerators] is the registry
    [window.PuzzleGenerators] with what each generator returns. *)
Definition generatePuzzlesForChamber (PuzzleGenerators : string → option (list Puzzle))
    (chamberId : string) : M GameState (list Puzzle) :=
  match PuzzleGenerators chamberId with
  | Some generated => mret generated
  | None => generatePlaceholderPuzzles chamberId
  end.

Definition implementedChambers : list string :=
  ["pattern-recognition"; "logical-sequences"; "spatial-reasoning"].

(** [loadChamberPuzzles] *)
Definition loadChamberPuzzles (PuzzleGenerators : string → option (list Puzzle))
  : M GameState unit :=
  foldr (λ chamberId (rest : M GameState unit),
           gs ← get;
           match chambers gs !! chamberId with
           | Some chamber =>
               if (length (puzzles chamber) =? 0)%nat then
                 generated ← generatePuzzlesForChamber PuzzleGenerators chamberId;
                 modify (λ gs, set_chambers
                   (<[chamberId :=
                        {| unlockLevel := unlockLevel chamber;
                           puzzleCount := puzzleCount chamber;
                           progress := progress chamber;
                           puzzles := generated |}]> (chambers gs)) gs);;
                 rest
               else rest
           | None => rest
           end)
        (mret tt) implementedChambers.

(** [initializeChambers] *)
Definition initializeChambers (PuzzleGenerators : string → option (list Puzzle))
  : M GameState unit :=
  foldr (λ chamberDef (rest : M GameState unit),
           gs ← get;
           let '(id, (unlock, count)) := chamberDef in
           match chambers gs !! id with
           | Some _ => rest
           | None =>
               modify (set_chambers
                 (<[id :=
                      {| unlockLevel := unlock; puzzleCount := count;
                         progress :=
                           {| completed := 0; total := count; bestTimes := [];
                              p_hintsUsed := 0; accuracy := 0;
                              unlockedPuzzles :=
                                if unlock <=? level (user gs) then 1 else 0 |};
                         puzzles := [] |}]> (chambers gs)));;
               rest
           end)
        (loadChamberPuzzles PuzzleGenerators) chamberDefinitions.

(** [calculateXPForNextLevel]: [Math.floor(100 * Math.pow(1.1, level - 1))] *)
Definition calculateXPForNextLevel (level : Z) : Z :=
  if 1 <=? level then (100 * 11 ^ (level - 1)) `div` 10 ^ (level - 1)
  else (100 * 10 ^ (1 - level)) `div` 11 ^ (1 - level).

(** [updateUnlockedChambers] *)
Definition updateUnlockedChambers : M GameState unit :=
  gs ← get;
  let unlockedCount :=
    map_fold (λ _ chamber n,
                if unlockLevel chamber <=? level (user gs) then n + 1 else n)
             0 (chambers gs) in
  on_user (set_chambersUnlocked unlockedCount).

(** The call [this.logEvent(eventName, data)] of a handler. *)
Definition this_logEvent (eventName : string) (data : value) : M Tab unit :=
  tab ← get;
  logEvent (stamp tab) eventName data.

(** The body of the level-up loop of [addXP]. *)
Definition levelUp : M Tab unit :=
  in_game (on_user (λ u, set_xp (xp u - xpToNext u) u));;
  in_game (on_user (λ u, set_level (level u + 1) u));;
  in_game (on_user (λ u, set_xpToNext (calculateXPForNextLevel (level u)) u));;
  in_game updateUnlockedChambers;;
  tab ← get;
  this_logEvent "level_up" (VObj [("newLevel", VNum (level (user (game tab))))]).

Definition levelUpDue (gs : GameState) : bool :=
  xpToNext (user gs) <=? xp (user gs).

(** Iterations that the loop of [addXP] can need from [gs]. *)
Definition levelUpFuel (gs : GameState) : nat :=
  S (Z.to_nat (xp (user gs) - xpToNext (user gs)) + Z.to_nat (- level (user gs))).

(** [addXP] *)
Definition addXP (amount : Z) : M Tab unit :=
  in_game (on_user (λ u, set_xp (xp u + amount) u));;
  tab ← get;
  while_ (levelUpFuel (game tab)) (λ tab, levelUpDue (game tab)) levelUp.

(** [calculateTimeBonus], the clock reading [now]. *)
Definition calculateTimeBonus (now startTime : Z) : Z :=
  let timeSpent := now - startTime in
  let maxBonus := 5 in
  let fastTime := 30000 in
  if timeSpent <=? fastTime then maxBonus
  else if timeSpent <=? fastTime * 2 then maxBonus `div` 2
  else 0.

(** [createMultipleChoiceInput]: [puzzle.options.forEach(...)] *)
Definition createMultipleChoiceInput (puzzle : Puzzle) : M Tab unit :=
  match options puzzle with
  | Some _ => mret tt
  | None => throw TypeError
  end.

(** [initializePuzzleContent]; the class has no method [createGridPuzzle],
    so that the call of it throws. *)
Definition initializePuzzleContent (puzzle : Puzzle) : M Tab unit :=
  tab ← get;
  if negb (puzzle_container (document tab)) || negb (answer_input (document tab))
  then mret tt
  else if bool_decide (puzzle_type puzzle = Some "multiple-choice"%string)
  then createMultipleChoiceInput puzzle
  else if bool_decide (puzzle_type puzzle = Some "text-input"%string)
  then mret tt
  else if bool_decide (puzzle_type puzzle = Some "grid"%string)
  then throw TypeError
  else mret tt.

(** [updatePuzzleScreen]: [#puzzle-number], when it is there, is given
    [chamber.puzzles.length] to show. *)
Definition updatePuzzleScreen : M Tab unit :=
  tab ← get;
  match currentPuzzle (game tab) with
  | None => mret tt
  | Some currentPuzzle =>
      (if puzzle_number (document tab)
       then match chambers (game tab) !! chamberId currentPuzzle with
            | Some _ => mret tt
            | None => throw TypeError
            end
       else mret tt);;
      initializePuzzleContent (puzzle currentPuzzle)
  end.

(** [startPuzzle] *)
Definition startPuzzle (now : Z) (chamberId : string) (puzzleIndex : Z)
  : M Tab outcome :=
  tab ← get;
  match chambers (game tab) !! chamberId with
  | None => throw TypeError
  | Some chamber =>
      match js_index (puzzles chamber) puzzleIndex with
      | None => mret PuzzleNotFound
      | Some puzzle =>
          in_game (modify (set_currentPuzzle (Some
            {| chamberId := chamberId; puzzleIndex := puzzleIndex; puzzle := puzzle;
               startTime := now; hintsUsed := 0; attempts := 0 |})));;
          updatePuzzleScreen;;
          this_logEvent "puzzle_started"
            (VObj [ ("chamber", VStr chamberId); ("puzzle", VNum puzzleIndex);
                    ("difficulty", VStr (difficulty puzzle)) ]);;
          mret Started
      end
  end.

(** [enterChamber] *)
Definition enterChamber (now : Z) (chamberId : string) : M Tab outcome :=
  tab ← get;
  match chambers (game tab) !! chamberId with
  | None => mret NotUnlocked
  | Some chamber =>
      if level (user (game tab)) <? unlockLevel chamber then mret NotUnlocked
      else
        in_game (modify (set_currentChamber (Some chamberId)));;
        let nextPuzzleIndex := completed (progress chamber) in
        if nextPuzzleIndex <? Z.of_nat (length (puzzles chamber))
        then startPuzzle now chamberId nextPuzzleIndex
        else mret ChamberExhausted
  end.

(** [validateAnswer] *)
Definition validateAnswer (userAnswer : answer) (correctAnswer : option answer)
  : M GameState bool :=
  match correctAnswer with
  | Some (ANum c) =>
      mret (match userAnswer with ANum n => n =? c | AStr _ => false end)
  | Some (AStr c) =>
      match userAnswer with
      | AStr s => mret (String.eqb (toLowerCase s) (toLowerCase c))
      | ANum _ => throw TypeError
      end
  | None => mret false
  end.

(** The score of [handleCorrectAnswer]. *)
Definition finalScore (now : Z) (currentPuzzle : CurrentPuzzle) : Z :=
  let timeBonus := calculateTimeBonus now (startTime currentPuzzle) in
  let hintPenalty := hintsUsed currentPuzzle * 2 in
  let attemptPenalty := (attempts currentPuzzle - 1) * 1 in
  let basePoints := js_or (points (puzzle currentPuzzle)) 10 in
  Z.max 1 (basePoints + timeBonus - hintPenalty - attemptPenalty).

(** [handleCorrectAnswer]; [now] and [later] are its two clock readings.
    Of the closing [saveGameData], which catches what it throws, the write
    to [localStorage] is outside the tab and its [logEvent] is not. *)
Definition handleCorrectAnswer (now later : Z) : M Tab outcome :=
  tab ← get;
  match currentPuzzle (game tab) with
  | None => throw TypeError
  | Some currentPuzzle =>
      let finalScore := finalScore now currentPuzzle in
      match chambers (game tab) !! chamberId currentPuzzle with
      | None => throw TypeError
      | Some chamber =>
          let progress' :=
            set_completed (completed (progress chamber) + 1) (progress chamber) in
          in_game (modify (set_chambers
            (<[chamberId currentPuzzle := set_progress progress' chamber]>
               (chambers (game tab)))));;
          in_game (on_user (λ u, set_totalSolved (totalSolved u + 1) u));;
          in_game (on_user (λ u, set_currentStreak (currentStreak u + 1) u));;
          addXP finalScore;;
          let spent := later - startTime currentPuzzle in
          in_game (on_analytics (λ a, set_timeSpent (timeSpent a + spent) a));;
          this_logEvent "puzzle_completed"
            (VObj [ ("chamber", VStr (chamberId currentPuzzle));
                    ("puzzle", VNum (puzzleIndex currentPuzzle));
                    ("attempts", VNum (attempts currentPuzzle));
                    ("hintsUsed", VNum (hintsUsed currentPuzzle));
                    ("timeSpent", VNum spent); ("score", VNum finalScore) ]);;
          try_catch (this_logEvent "game_saved" VUndefined);;
          mret (Correct finalScore)
      end
  end.

(** [handleIncorrectAnswer] *)
Definition handleIncorrectAnswer : M Tab outcome :=
  tab ← get;
  match currentPuzzle (game tab) with
  | None => throw TypeError
  | Some currentPuzzle =>
      (if 3 <=? attempts currentPuzzle
       then in_game (on_user (set_currentStreak 0))
       else mret tt);;
      this_logEvent "puzzle_attempt_failed"
        (VObj [ ("chamber", VStr (chamberId currentPuzzle));
                ("puzzle", VNum (puzzleIndex currentPuzzle));
                ("attempt", VNum (attempts currentPuzzle)) ]);;
      mret Incorrect
  end.

(** [checkAnswer]; [userAnswer] is what [getCurrentAnswer] read. *)
Definition checkAnswer (now later : Z) (userAnswer : option answer)
  : M Tab outcome :=
  tab ← get;
  match currentPuzzle (game tab) with
  | None => mret Ignored
  | Some currentPuzzle =>
      match userAnswer with
      | None => mret Ignored
      | Some userAnswer =>
          in_game (on_currentPuzzle (λ c, set_attempts (attempts c + 1) c));;
          in_game (on_analytics (λ a, set_puzzleAttempts (puzzleAttempts a + 1) a));;
          isCorrect ← in_game (validateAnswer userAnswer
                                 (correctAnswer (puzzle currentPuzzle)));
          if isCorrect : bool then handleCorrectAnswer now later
          else handleIncorrectAnswer
      end
  end.

(** [showHint] *)
Definition showHint : M Tab outcome :=
  tab ← get;
  match currentPuzzle (game tab) with
  | None => mret Ignored
  | Some currentPuzzle =>
      let hints := default [] (hints (puzzle currentPuzzle)) in
      let hintIndex := Z.min (hintsUsed currentPuzzle) (Z.of_nat (length hints) - 1) in
      if Z.of_nat (length hints) <=? hintIndex then mret NoMoreHints
      else
        in_game (on_currentPuzzle (λ c, set_hintsUsed (hintsUsed c + 1) c));;
        in_game (on_analytics (λ a, set_a_hintsUsed (a_hintsUsed a + 1) a));;
        this_logEvent "hint_used"
          (VObj [ ("chamber", VStr (chamberId currentPuzzle));
                  ("puzzle", VNum (puzzleIndex currentPuzzle));
                  ("hintLevel", VNum (hintsUsed currentPuzzle + 1)) ]);;
        mret (Hint (js_index hints hintIndex))
  end.

(** [nextPuzzle] *)
Definition nextPuzzle (now : Z) : M Tab outcome :=
  tab ← get;
  match currentPuzzle (game tab) with
  | None => mret Ignored
  | Some currentPuzzle =>
      match chambers (game tab) !! chamberId currentPuzzle with
      | None => throw TypeError
      | Some chamber =>
          let nextIndex := puzzleIndex currentPuzzle + 1 in
          if nextIndex <? Z.of_nat (length (puzzles chamber))
          then startPuzzle now (chamberId currentPuzzle) nextIndex
          else mret ChamberCompleted
      end
  end.

(** [resetPuzzle] *)
Definition resetPuzzle (now : Z) : M GameState unit :=
  on_currentPuzzle (λ c, set_startTime now (set_hintsUsed 0 (set_attempts 0 c))).

End Bundle.

Definition freshUser : User :=
  {| level := 1; xp := 0; xpToNext := 100; totalSolved := 0; currentStreak := 0;
     chambersUnlocked := 1; achievements := [] |}.

Definition defaultSettings : Settings :=
  {| soundEffects := true; autoHints := false; highContrast := false;
     reducedMotion := false; fontSize := "medium" |}.

(** The state built by the constructor, at clock value [now]. *)
Definition constructorState (now : Z) : GameState :=
  {| currentChamber := None; currentPuzzle := None; user := freshUser;
     settings := defaultSettings; chambers := ∅;
     analytics := {| sessionStart := now; puzzleAttempts := 0;
                     a_hintsUsed := 0; timeSpent := 0 |} |}.

(** ** The class [AnalyticsManager] *)

Module AnalyticsManager.

(** [storeEventLocally], on the item ['mindforge_analytics'] of
    [localStorage]; the write is taken to succeed. *)
Definition storeEventLocally (event : value) : M (option text) unit :=
  try_catch (
    stored ← get;
    storedEvents ← lift (JSON_parse (default (Json (VArr [])) (present stored)));
    match storedEvents with
    | VArr storedEvents =>
        let storedEvents := storedEvents ++ [event] in
        let storedEvents :=
          if (1000 <? length storedEvents)%nat
          then drop (length storedEvents - 1000) storedEvents
          else storedEvents in
        modify (λ _, Some (JSON_stringify (VArr storedEvents)))
    | _ => throw TypeError
    end).

End AnalyticsManager.

(** ** The class [AccessibilityManager] *)

(** A number that may be [Infinity]. *)
Inductive number :=
  | Finite (n : Z)
  | Infinity.

Inductive Key := ArrowRight | ArrowLeft | ArrowDown | ArrowUp | OtherKey.

(** [s.split(' ').length] *)
Fixpoint split_length (s : string) : Z :=
  match s with
  | EmptyString => 1
  | String c rest => (if Ascii.eqb c " " then 1 else 0) + split_length rest
  end.

Module AccessibilityManager.

(** [getGridColumns]: [gridTemplateColumns] is the computed style of the
    grid; [firstItem] holds the [offsetWidth] of the grid and of its first
    card, when it has a card. *)
Definition getGridColumns (gridTemplateColumns : string) (firstItem : option (Z * Z))
  : number :=
  if negb (String.eqb gridTemplateColumns "") && negb (String.eqb gridTemplateColumns "none")
  then Finite (split_length gridTemplateColumns)
  else
    match firstItem with
    | Some (gridWidth, itemWidth) =>
        if itemWidth =? 0
        then if 0 <? gridWidth then Infinity else Finite 1
        else let columns := gridWidth `div` itemWidth in
             if columns =? 0 then Finite 1 else Finite columns
    | None => Finite 3
    end.

Section keyboard.
Context {Element : Type} `{EqDecision Element}.

(** The grid that [closest] finds: the cards that the selector matches, in
    document order, and what [getGridColumns] reads. *)
Record Grid := {
  cards : list Element;
  gridTemplateColumns : string;
  firstItem : option (Z * Z)
}.

(** [items.indexOf(x)] *)
Fixpoint indexOf (items : list Element) (x : Element) : Z :=
  match items with
  | [] => -1
  | y :: rest =>
      if decide (y = x) then 0
      else let i := indexOf rest x in if i =? -1 then -1 else i + 1
  end.

(** [items[newIndex].focus()]: the element that gets the focus. *)
Definition focus (items : list Element) (newIndex : Z) : res (option Element) :=
  match js_index items newIndex with
  | Some element => Ok (Some element)
  | None => Throw TypeError
  end.

(** [navigateGrid]; the result is the element focused, if any. *)
Definition navigateGrid (key : Key) (target : Element) (grid : option Grid)
  : res (option Element) :=
  match grid with
  | None => Ok None
  | Some grid =>
      let items := cards grid in
      let currentIndex := indexOf items target in
      if currentIndex =? -1 then Ok None
      else
        let columns := getGridColumns (gridTemplateColumns grid) (firstItem grid) in
        let length := Z.of_nat (length items) in
        let newIndex :=
          match key with
          | ArrowRight => Some (Z.min (currentIndex + 1) (length - 1))
          | ArrowLeft => Some (Z.max (currentIndex - 1) 0)
          | ArrowDown =>
              Some (match columns with
                    | Finite columns => Z.min (currentIndex + columns) (length - 1)
                    | Infinity => length - 1
                    end)
          | ArrowUp =>
              Some (match columns with
                    | Finite columns => Z.max (currentIndex - columns) 0
                    | Infinity => 0
                    end)
          | OtherKey => None
          end in
        match newIndex with
        | None => Ok None
        | Some newIndex =>
            if negb (newIndex =? currentIndex) then focus items newIndex else Ok None
        end
  end.

(** [navigateList] *)
Definition navigateList (key : Key) (target : Element) (list : option (list Element))
  : res (option Element) :=
  match list with
  | None => Ok None
  | Some items =>
      let currentIndex := indexOf items target in
      if currentIndex =? -1 then Ok None
      else
        let length := Z.of_nat (length items) in
        let isVertical :=
          match key with ArrowUp | ArrowDown => true | _ => false end in
        let newIndex :=
          if isVertical then
            match key with
            | ArrowDown => Some ((currentIndex + 1) `rem` length)
            | ArrowUp => Some ((currentIndex - 1 + length) `rem` length)
            | _ => None
            end
          else
            match key with
            | ArrowRight => Some ((currentIndex + 1) `rem` length)
            | ArrowLeft => Some ((currentIndex - 1 + length) `rem` length)
            | _ => None
            end in
        match newIndex with
        | None => Ok None
        | Some newIndex => focus items newIndex
        end
  end.

End keyboard.

End AccessibilityManager.

(** * Notions for the statements *)

(** ** Progression *)

(** The state after one pass through the body of the level-up loop. *)
Definition crossing (gs : GameState) : GameState :=
  let u := user gs in
  let level' := level u + 1 in
  let unlockedCount :=
    map_fold (λ _ chamber n, if unlockLevel chamber <=? level' then n + 1 else n)
             0 (chambers gs) in
  set_user
    (set_chambersUnlocked unlockedCount
       (set_xpToNext (Game.calculateXPForNextLevel level')
          (set_level level' (set_xp (xp u - xpToNext u) u))))
    gs.

(** After the first pass the threshold is the one of the current level. *)
Definition settled (gs : GameState) : Prop :=
  xpToNext (user gs) = Game.calculateXPForNextLevel (level (user gs)).

Definition passes_left (gs : GameState) : nat :=
  (Z.to_nat (xp (user gs)) + Z.to_nat (1 - level (user gs)))%nat.

(** The state on which the loop of [addXP] starts. *)
Definition credited (amount : Z) (gs : GameState) : GameState :=
  set_user (set_xp (xp (user gs) + amount) (user gs)) gs.

(** The results of the calls of a sequence of [addXP] calls, each with the
    tab it leaves. *)
Fixpoint awards (amounts : list Z) (tab : Tab) : list (res unit * Tab) :=
  match amounts with
  | [] => []
  | amount :: rest => let r := Game.addXP amount tab in r :: awards rest r.2
  end.

(** The state in which [handleCorrectAnswer] calls [addXP]: one more puzzle
    completed in the chamber, one more solved, the streak one longer. *)
Definition solved (cp : CurrentPuzzle) (chamber : Chamber) (gs : GameState) : GameState :=
  let progress' := set_completed (completed (progress chamber) + 1) (progress chamber) in
  let u := user gs in
  set_user (set_currentStreak (currentStreak u + 1) (set_totalSolved (totalSolved u + 1) u))
    (set_chambers (<[chamberId cp := set_progress progress' chamber]> (chambers gs)) gs).

(** ** The tab *)

(** The item of [sessionStorage] is one that [logEvent] can extend. *)
Definition loggable (tab : Tab) : Prop :=
  is_Some (storedEvents (mindforge_analytics tab)).

(** The document shows puzzle [p] without a throw. *)
Definition renders (tab : Tab) (p : Puzzle) : Prop :=
  (Game.initializePuzzleContent p tab).1 = Ok tt.

(** The tab of a page that has the elements of the puzzle screen and has
    logged nothing yet, with game [gs]. *)
Definition playing (gs : GameState) : Tab :=
  {| game := gs; mindforge_analytics := None;
     document := {| puzzle_number := true; puzzle_container := true;
                    answer_input := true |};
     Date_now := λ k, Z.of_nat k |}.

(** That tab with an item under ['mindforge_analytics'] that is not JSON. *)
Definition spoiled (gs : GameState) : Tab :=
  set_mindforge_analytics (Some Unparseable) (playing gs).

(** The tab with the game [f] makes of its game. *)
Definition on_game (f : GameState → GameState) (tab : Tab) : Tab :=
  set_game (f (game tab)) tab.

(** The tab once [addXP] has added the amount, and the tab that a pass of
    its loop leaves. *)
Definition credit (amount : Z) (tab : Tab) : Tab :=
  set_game (credited amount (game tab)) tab.

Definition pass (tab : Tab) : Tab := (Game.levelUp tab).2.

(** ** States of a game *)

(** A page on which no generator is registered, after [initializeChambers]. *)
Definition startedGame : GameState :=
  (Game.initializeChambers (λ _, None) (constructorState 0)).2.

(** The same game after 500 XP: level 5, which unlocks
    ['deductive-reasoning'], a chamber whose puzzles are never loaded. *)
Definition levelFiveGame : GameState := game (Game.addXP 500 (playing startedGame)).2.

(** An attempt on a puzzle with three hints, all of them shown already. *)
Definition threeHints : list string := ["first"; "second"; "final"].

Definition allHintsShown : GameState :=
  set_currentPuzzle (Some
    {| chamberId := "logical-sequences"; puzzleIndex := 0;
       puzzle := {| puzzle_id := "logical_sequences_1";
                    puzzle_type := Some "multiple-choice"; difficulty := "easy";
                    options := Some ["A"; "B"; "C"; "D"];
                    correctAnswer := Some (ANum 0); explanation := "";
                    hints := Some threeHints; points := Some 10 |};
       startTime := 0; hintsUsed := 3; attempts := 0 |})
    startedGame.

(** The same game after 250 XP: level 3. *)
Definition levelThreeGame : GameState := game (Game.addXP 250 (playing startedGame)).2.

(** ['deductive-reasoning'] as [initializeChambers] sets it. *)
Definition deductiveReasoning : Chamber :=
  {| unlockLevel := 5; puzzleCount := 25;
     progress := {| completed := 0; total := 25; bestTimes := []; p_hintsUsed := 0;
                    accuracy := 0; unlockedPuzzles := 0 |};
     puzzles := [] |}.


(** The two puzzles of the examples. *)
Definition firstPuzzle : Puzzle :=
  {| puzzle_id := "logical_sequences_1"; puzzle_type := Some "multiple-choice";
     difficulty := "easy"; options := Some ["A"; "B"; "C"; "D"];
     correctAnswer := Some (ANum 0); explanation := "";
     hints := Some threeHints; points := Some 10 |}.

Definition secondPuzzle : Puzzle :=
  {| puzzle_id := "logical_sequences_2"; puzzle_type := Some "multiple-choice";
     difficulty := "easy"; options := Some ["A"; "B"; "C"; "D"];
     correctAnswer := Some (ANum 1); explanation := "";
     hints := None; points := Some 10 |}.

(** An attempt answered after 20 seconds with one hint on the first try. *)
Definition quickAttempt : CurrentPuzzle :=
  {| chamberId := "logical-sequences"; puzzleIndex := 0; puzzle := firstPuzzle;
     startTime := 1000; hintsUsed := 1; attempts := 1 |}.

(** A chamber of two puzzles, the first of them solved. *)
Definition halfDone : Chamber :=
  {| unlockLevel := 1; puzzleCount := 25;
     progress := {| completed := 1; total := 25; bestTimes := []; p_hintsUsed := 0;
                    accuracy := 0; unlockedPuzzles := 1 |};
     puzzles := [firstPuzzle; secondPuzzle] |}.

Definition halfDoneGame : GameState :=
  set_chambers {[ "logical-sequences"%string := halfDone ]} (constructorState 0).

(** That game with a streak of 4, inside its second puzzle. *)
Definition streakGame : GameState :=
  game (Game.enterChamber 7 "logical-sequences"
          (playing (set_user (set_currentStreak 4 freshUser) halfDoneGame))).2.

(** An attempt answered after 20 seconds with five hints on the fifth try. *)
Definition laboriousAttempt : CurrentPuzzle :=
  set_hintsUsed 5 (set_attempts 5 quickAttempt).

(** ** Persistence *)

(** A value that holds no [undefined]. *)
Fixpoint is_json (v : value) : bool :=
  match v with
  | VUndefined => false
  | VArr items => forallb is_json items
  | VObj fields => forallb (λ p, is_json p.2) fields
  | _ => true
  end.

(** The property bags of the typed profile and settings. *)
Definition raw_of_user (u : User) : gmap string value :=
  list_to_map
    [ ("level", VNum (level u)); ("xp", VNum (xp u)); ("xpToNext", VNum (xpToNext u));
      ("totalSolved", VNum (totalSolved u)); ("currentStreak", VNum (currentStreak u));
      ("chambersUnlocked", VNum (chambersUnlocked u));
      ("achievements", VArr (VStr <$> achievements u)) ].

Definition raw_of_settings (st : Settings) : gmap string value :=
  list_to_map
    [ ("soundEffects", VBool (soundEffects st)); ("autoHints", VBool (autoHints st));
      ("highContrast", VBool (highContrast st));
      ("reducedMotion", VBool (reducedMotion st)); ("fontSize", VStr (fontSize st)) ].

(** The page of a new [MindForge] instance, over what [localStorage] holds. *)
Definition constructorPage (stored : option text) : Page :=
  {| raw_user := raw_of_user freshUser; raw_settings := raw_of_settings defaultSettings;
     raw_chambers := []; mindforge_save := stored |}.

(** The blob that [saveGameData] stringifies. *)
Definition saveData (now : Z) (pg : Page) : value :=
  VObj [ ("user", VObj (map_to_list (raw_user pg)));
         ("settings", VObj (map_to_list (raw_settings pg)));
         ("chambers", Map_entries (raw_chambers pg));
         ("lastSaved", VNum now) ].

(** The states of the persisted components that the class can be in, over
    sessions: a first session finds nothing stored; the class assigns JSON
    values to properties of [user] and [settings], sets chambers under
    string ids, saves; a later session is a new instance that loads what
    the previous one left in [localStorage]. *)
Inductive reachable : Page → Prop :=
  | reach_first : reachable (constructorPage None)
  | reach_user pg k v :
      reachable pg → is_json v = true →
      reachable (set_raw_user (<[k:=v]> (raw_user pg)) pg)
  | reach_settings pg k v :
      reachable pg → is_json v = true →
      reachable (set_raw_settings (<[k:=v]> (raw_settings pg)) pg)
  | reach_chamber pg id v :
      reachable pg → is_json v = true →
      reachable (set_raw_chambers (Map_set (VStr id) v (raw_chambers pg)) pg)
  | reach_save pg now :
      reachable pg → reachable (Game.saveGameData now pg).2
  | reach_session pg :
      reachable pg →
      reachable (Game.loadGameData (constructorPage (mindforge_save pg))).2.

(** [data.name] where it does not throw, [undefined] where it does. *)
Definition field (data : value) (name : string) : value :=
  default VUndefined (own_props data !! name).

(** The value of property [name] of the stored blob, [undefined] when
    there is no blob to read it from. *)
Definition stored_field (pg : Page) (name : string) : value :=
  match present (mindforge_save pg) with
  | Some (Json data) => field data name
  | _ => VUndefined
  end.

(** The page after the two merges of [loadGameData]. *)
Definition merged (pg : Page) (data : value) : Page :=
  set_raw_settings (spread (raw_settings pg) (field data "settings"))
    (set_raw_user (spread (raw_user pg) (field data "user")) pg).

(** The page that [loadGameData] leaves. *)
Definition loaded (pg : Page) : Page :=
  match present (mindforge_save pg) with
  | Some (Json data) =>
      match get_prop data "user" with
      | Ok _ =>
          if truthy (field data "chambers") then
            match Map_new (field data "chambers") with
            | Ok m => set_raw_chambers m (merged pg data)
            | _ => merged pg data
            end
          else merged pg data
      | _ => pg
      end
  | _ => pg
  end.

(** What the persisted components of a running game satisfy: the default
    properties of [user] and [settings] are all there, the values are JSON
    values, the chambers sit under distinct string ids. *)
Record persistable (pg : Page) : Prop := {
  user_covers : dom (raw_of_user freshUser) ⊆ dom (raw_user pg);
  user_json : map_Forall (λ _ v, is_json v = true) (raw_user pg);
  settings_covers : dom (raw_of_settings defaultSettings) ⊆ dom (raw_settings pg);
  settings_json : map_Forall (λ _ v, is_json v = true) (raw_settings pg);
  chambers_distinct : NoDup (raw_chambers pg).*1;
  chambers_json :
    Forall (λ e, (∃ id, e.1 = VStr id) ∧ is_json e.2 = true) (raw_chambers pg)
}.

(** The page of a game whose profile is [u], whose settings are [st] and
    whose chambers are the objects [cs], each under its id. *)
Definition progressPage (u : User) (st : Settings) (cs : list (string * value)) : Page :=
  {| raw_user := raw_of_user u; raw_settings := raw_of_settings st;
     raw_chambers := (λ c, (VStr c.1, c.2)) <$> cs; mindforge_save := None |}.

(** A page in play: 42 XP and one chamber with a solved puzzle. *)
Definition playedPage : Page :=
  let pg := constructorPage None in
  let pg := set_raw_user (<["xp" := VNum 42]> (raw_user pg)) pg in
  set_raw_chambers
    (Map_set (VStr "pattern-recognition")
       (VObj [ ("unlockLevel", VNum 1); ("puzzleCount", VNum 25);
               ("progress", VObj [("completed", VNum 1)]); ("puzzles", VArr []) ])
       (raw_chambers pg)) pg.

(** A stored blob that carries part of a profile only. *)
Definition partialBlob : value :=
  VObj [ ("user", VObj [("xp", VNum 42)]); ("chambers", VNum 5) ].

(** [localStorage] holds nothing, or what a running game saved. *)
Definition own_blob (stored : option text) : Prop :=
  stored = None ∨
  ∃ pg now, persistable pg ∧ stored = Some (JSON_stringify (saveData now pg)).

(** * Further notions *)

(** ** Progression *)

(** All the experience a profile stands for: what it holds, and the
    thresholds of the levels it has passed. *)
Definition lifetimeXP (u : User) : Z :=
  xp u + foldr Z.add 0 (Game.calculateXPForNextLevel <$> seqZ 1 (level u - 1)).

(** A profile as the progression engine leaves it. *)
Definition sound_profile (u : User) : Prop :=
  1 ≤ level u ∧ 0 ≤ xp u < xpToNext u ∧
  xpToNext u = Game.calculateXPForNextLevel (level u).

(** The chambers that level [lvl] unlocks. *)
Definition unlockedAt (lvl : Z) (chambers : gmap string Chamber) : gmap string Chamber :=
  filter (λ kc, unlockLevel kc.2 ≤ lvl) chambers.

(** ** Session *)

(** The verdict of [validateAnswer], which reads no state. *)
Definition verdict (userAnswer : answer) (correctAnswer : option answer) : res bool :=
  match correctAnswer with
  | Some (ANum c) => Ok (match userAnswer with ANum n => n =? c | AStr _ => false end)
  | Some (AStr c) =>
      match userAnswer with
      | AStr s => Ok (String.eqb (toLowerCase s) (toLowerCase c))
      | ANum _ => Throw TypeError
      end
  | None => Ok false
  end.

(** The state once [checkAnswer] has counted the attempt. *)
Definition counted (gs : GameState) : GameState :=
  set_analytics (set_puzzleAttempts (puzzleAttempts (analytics gs) + 1) (analytics gs))
    (set_currentPuzzle ((λ c, set_attempts (attempts c + 1) c) <$> currentPuzzle gs) gs).

(** The state once [handleCorrectAnswer] has added the time spent. *)
Definition timed (later : Z) (cp : CurrentPuzzle) (gs : GameState) : GameState :=
  set_analytics
    (set_timeSpent (timeSpent (analytics gs) + (later - startTime cp)) (analytics gs)) gs.

(** A new attempt on puzzle [p], number [i] of chamber [id]. *)
Definition attemptOn (now : Z) (id : string) (i : Z) (p : Puzzle) : CurrentPuzzle :=
  {| chamberId := id; puzzleIndex := i; puzzle := p;
     startTime := now; hintsUsed := 0; attempts := 0 |}.

(** The attempt, when there is one, is on a puzzle of a chamber of the game. *)
Definition attempt_placed (gs : GameState) : Prop :=
  ∀ cp, currentPuzzle gs = Some cp →
    ∃ chamber, chambers gs !! chamberId cp = Some chamber ∧
      js_index (puzzles chamber) (puzzleIndex cp) = Some (puzzle cp).

(** What a handler whose last step is a call of [logEvent] gives: [o]
    when the item of the log can be extended, a throw when it cannot. *)
Definition logged {A} (tab : Tab) (o : A) (r : res A) : Prop :=
  (r = Ok o ∨ ∃ e, r = Throw e) ∧ (r = Ok o ↔ loggable tab).

(** What a handler that starts puzzle [p] gives: the start when the
    document shows the puzzle and the item of the log can be extended, a
    throw otherwise. *)
Definition started (tab : Tab) (p : Puzzle) (r : res outcome) : Prop :=
  (r = Ok Started ∨ ∃ e, r = Throw e) ∧
  (r = Ok Started ↔ renders tab p ∧ loggable tab).




(** What the player can do in a session. *)
Inductive command :=
  | EnterChamber (now : Z) (chamberId : string)
  | CheckAnswer (now later : Z) (userAnswer : option answer)
  | ShowHint
  | NextPuzzle (now : Z)
  | ResetPuzzle (now : Z).

(** The handler of a command; what it reports is left aside. *)
Definition perform (c : command) : M Tab unit :=
  match c with
  | EnterChamber now chamberId => Game.enterChamber now chamberId ≫= λ _, mret tt
  | CheckAnswer now later userAnswer =>
      Game.checkAnswer now later userAnswer ≫= λ _, mret tt
  | ShowHint => Game.showHint ≫= λ _, mret tt
  | NextPuzzle now => Game.nextPuzzle now ≫= λ _, mret tt
  | ResetPuzzle now => in_game (Game.resetPuzzle now)
  end.

(** The tab after a sequence of commands; a handler that throws leaves
    the state it had reached, and the page goes on from there. *)
Fixpoint perform_all (cs : list command) (tab : Tab) : Tab :=
  match cs with
  | [] => tab
  | c :: rest => perform_all rest (perform c tab).2
  end.

(** The puzzles counted as completed, over all chambers. *)
Definition completedTotal (chambers : gmap string Chamber) : Z :=
  map_fold (λ _ chamber n, completed (progress chamber) + n) 0 chambers.

(** Chamber [chamber'] is [chamber] with no fewer puzzles completed, and
    nothing else changed. *)
Definition grown (chamber chamber' : Chamber) : Prop :=
  ∃ n, completed (progress chamber) ≤ n ∧
    chamber' = set_progress (set_completed n (progress chamber)) chamber.

(** ** Chambers *)

(** The placeholder puzzle number [i] of a chamber. *)
Definition placeholder (chamberId : string) (i : Z) : Puzzle :=
  {| puzzle_id := chamberId +:+ "_" +:+ pretty i;
     puzzle_type := Some "multiple-choice";
     difficulty := if i <=? 8 then "easy" else if i <=? 16 then "medium" else "hard";
     options := Some ["Option A"; "Option B"; "Option C"; "Option D"];
     correctAnswer := Some (ANum 0);
     explanation := "This is the explanation for puzzle " +:+ pretty i +:+ ".";
     hints := Some [ "First hint for puzzle " +:+ pretty i;
                     "Second hint for puzzle " +:+ pretty i;
                     "Final hint for puzzle " +:+ pretty i ];
     points := Some (if i <=? 8 then 10 else if i <=? 16 then 15 else 25) |}.

Definition with_puzzles (ps : list Puzzle) (chamber : Chamber) : Chamber :=
  {| unlockLevel := unlockLevel chamber; puzzleCount := puzzleCount chamber;
     progress := progress chamber; puzzles := ps |}.

(** The puzzles that [generatePuzzlesForChamber] gives for a chamber. *)
Definition stock (PuzzleGenerators : string → option (list Puzzle))
    (id : string) (chamber : Chamber) : list Puzzle :=
  match PuzzleGenerators id with
  | Some generated => generated
  | None => placeholder id <$> seqZ 1 (puzzleCount chamber)
  end.

(** A chamber once [loadChamberPuzzles] has gone over the ids [ids]. *)
Definition stocked (PuzzleGenerators : string → option (list Puzzle))
    (ids : list string) (id : string) (chamber : Chamber) : Chamber :=
  if bool_decide (id ∈ ids) && (length (puzzles chamber) =? 0)%nat
  then with_puzzles (stock PuzzleGenerators id chamber) chamber
  else chamber.

(** The chamber that [initializeChambers] makes of a definition, for a
    player at level [lvl]. *)
Definition newChamber (lvl unlock count : Z) : Chamber :=
  {| unlockLevel := unlock; puzzleCount := count;
     progress := {| completed := 0; total := count; bestTimes := [];
                    p_hintsUsed := 0; accuracy := 0;
                    unlockedPuzzles := if unlock <=? lvl then 1 else 0 |};
     puzzles := [] |}.

(** The chambers once the first loop of [initializeChambers] has gone over
    the definitions [defs]. *)
Definition registered (lvl : Z) (defs : list (string * (Z * Z)))
    (m : gmap string Chamber) : gmap string Chamber :=
  foldl (λ m def, match m !! def.1 with
                  | Some _ => m
                  | None => <[def.1 := newChamber lvl def.2.1 def.2.2]> m
                  end) m defs.

(** ** The analytics logs *)


(** A value as [JSON.stringify] writes it when it is an element of an
    array. *)
Definition as_element (v : value) : value :=
  match v with VUndefined => VNull | _ => jsonify v end.


(** * Properties *)

(** ** Running the monad *)

Lemma bind_run {S A B} (m : M S A) (k : A → M S B) s :
  (m ≫= k) s =
  match m s with
  | (Ok a, s') => k a s'
  | (Throw e, s') => (Throw e, s')
  | (OutOfFuel, s') => (OutOfFuel, s')
  end.
Proof. reflexivity. Qed.

Lemma while_0 {S} (cond : S → bool) (body : M S unit) s :
  while_ 0 cond body s = if cond s then (OutOfFuel, s) else (Ok tt, s).
Proof. reflexivity. Qed.

Lemma while_S {S} (cond : S → bool) (body : M S unit) fuel s :
  while_ (Datatypes.S fuel) cond body s =
  if cond s then
    match body s with
    | (Ok _, s') => while_ fuel cond body s'
    | r => r
    end
  else (Ok tt, s).
Proof. reflexivity. Qed.


(** A result of [while_] is a state in which the condition fails. *)
Lemma while_exit {S} (cond : S → bool) (body : M S unit) fuel s s' :
  while_ fuel cond body s = (Ok tt, s') → cond s' = false.
Proof.
  revert s. induction fuel as [|fuel IH]; intros s; simpl.
  - destruct (cond s) eqn:E; [done|]. by intros [= <-].
  - destruct (cond s) eqn:E; [|by intros [= <-]].
    destruct (body s) as [[[]| |] s1]; try done. apply IH.
Qed.


(** ** The tab and its log *)

Section tab.
Import Game.

Lemma set_game_game tab : set_game (game tab) tab = tab.
Proof. by destruct tab. Qed.

Lemma in_game_run {A} (m : M GameState A) tab :
  in_game m tab = ((m (game tab)).1, set_game (m (game tab)).2 tab).
Proof. reflexivity. Qed.

Lemma loggable_dec tab : loggable tab ∨ ¬ loggable tab.
Proof.
  unfold loggable. destruct (storedEvents (mindforge_analytics tab)); [left|right].
  - by eexists.
  - by intros [? ?].
Qed.

(** A call of [logEvent] leaves the game, the document and the clock as
    they are.  It returns when the item can be extended, which it can be
    afterwards too; when it cannot, the call throws and the tab is as it
    was. *)
Lemma logEvent_cases eventName data tab :
  ∃ r tab',
    this_logEvent eventName data tab = (r, tab') ∧
    game tab' = game tab ∧ document tab' = document tab ∧
    Date_now tab' = Date_now tab ∧
    ((r = Ok tt ∧ loggable tab ∧ loggable tab') ∨
     (∃ e, r = Throw e ∧ ¬ loggable tab ∧ tab' = tab)).
Proof.
  unfold this_logEvent, logEvent, MindForge.logEvent, loggable, storedEvents.
  rewrite bind_run. cbn [get fst snd]. rewrite bind_run. cbn [get fst snd].
  destruct (present (mindforge_analytics tab)) as [[| |v]|] eqn:Hp; simpl.
  - destruct (mindforge_analytics tab) as [[]|]; done.
  - eexists _, _. split; [done|]. split_and!; try done.
    right. eexists. split; [done|]. split; [|done]. by intros [? ?].
  - destruct v; simpl;
      try (eexists _, _; split; [done|]; split_and!; try done;
           right; eexists; split; [done|]; split; [|done]; by intros [? ?]).
    eexists _, _. split; [done|]. split_and!; try done.
    left. split; [done|]. split; by eexists.
  - eexists _, _. split; [done|]. split_and!; try done.
    left. split; [done|]. split; by eexists.
Qed.

Lemma logEvent_loggable eventName data tab :
  loggable tab →
  ∃ tab', this_logEvent eventName data tab = (Ok tt, tab') ∧
    game tab' = game tab ∧ document tab' = document tab ∧
    Date_now tab' = Date_now tab ∧ loggable tab'.
Proof.
  intros Hlog.
  destruct (logEvent_cases eventName data tab)
    as (r & tab' & Hrun & Hg & Hd & Hc & [(-> & _ & Hl)|(e & _ & Hn & _)]); [|done].
  by exists tab'.
Qed.

Lemma logEvent_spoiled eventName data tab :
  ¬ loggable tab → ∃ e, this_logEvent eventName data tab = (Throw e, tab).
Proof.
  intros Hlog.
  destruct (logEvent_cases eventName data tab)
    as (r & tab' & Hrun & Hg & Hd & Hc & [(_ & Hl & _)|(e & -> & _ & ->)]); [done|].
  by exists e.
Qed.

(** The error does not depend on the event. *)
Lemma logEvent_error name1 data1 name2 data2 tab e :
  this_logEvent name1 data1 tab = (Throw e, tab) →
  this_logEvent name2 data2 tab = (Throw e, tab).
Proof.
  unfold this_logEvent, logEvent, MindForge.logEvent.
  rewrite !bind_run. cbn [get fst snd]. rewrite !bind_run. cbn [get fst snd].
  destruct (present (mindforge_analytics tab)) as [[| |v]|]; simpl; try done.
  destruct v; simpl; try done.
Qed.

Lemma loggable_game gs tab : loggable (set_game gs tab) ↔ loggable tab.
Proof. done. Qed.

End tab.

(** ** Progression engine *)

Section progression.
Import Game.

(** A pass of the loop: the state that the pass leaves, and a call of
    [logEvent] on the new level. *)
Lemma levelUp_run tab :
  levelUp tab =
  this_logEvent "level_up"
    (VObj [("newLevel", VNum (level (user (crossing (game tab)))))])
    (set_game (crossing (game tab)) tab).
Proof. reflexivity. Qed.

Lemma pass_game tab : game (pass tab) = crossing (game tab).
Proof.
  unfold pass. rewrite levelUp_run.
  destruct (logEvent_cases "level_up"
              (VObj [("newLevel", VNum (level (user (crossing (game tab)))))])
              (set_game (crossing (game tab)) tab))
    as (r & tab' & -> & Hg & _). done.
Qed.

Lemma pass_frame tab :
  document (pass tab) = document tab ∧ Date_now (pass tab) = Date_now tab.
Proof.
  unfold pass. rewrite levelUp_run.
  destruct (logEvent_cases "level_up"
              (VObj [("newLevel", VNum (level (user (crossing (game tab)))))])
              (set_game (crossing (game tab)) tab))
    as (r & tab' & -> & _ & Hd & Hc & _). done.
Qed.

Lemma levelUp_loggable tab :
  loggable tab → levelUp tab = (Ok tt, pass tab) ∧ loggable (pass tab).
Proof.
  intros Hlog. unfold pass. rewrite levelUp_run.
  destruct (logEvent_loggable "level_up"
              (VObj [("newLevel", VNum (level (user (crossing (game tab)))))])
              (set_game (crossing (game tab)) tab) Hlog)
    as (tab' & -> & _ & _ & _ & Hl). done.
Qed.

Lemma levelUp_spoiled tab :
  ¬ loggable tab →
  ∃ e, levelUp tab = (Throw e, set_game (crossing (game tab)) tab).
Proof. intros Hlog. rewrite levelUp_run. by apply logEvent_spoiled. Qed.

Lemma pass_spoiled tab :
  ¬ loggable tab → pass tab = set_game (crossing (game tab)) tab.
Proof.
  intros Hlog. unfold pass. by destruct (levelUp_spoiled tab Hlog) as [e ->].
Qed.

Lemma passes_game n tab : game (Nat.iter n pass tab) = Nat.iter n crossing (game tab).
Proof. induction n as [|n IH]; simpl; [done|]. by rewrite pass_game, IH. Qed.

Lemma passes_loggable n tab : loggable tab → loggable (Nat.iter n pass tab).
Proof.
  intros Hlog. induction n as [|n IH]; simpl; [done|]. by apply levelUp_loggable.
Qed.

Lemma passes_document n tab :
  document (Nat.iter n pass tab) = document tab ∧
  Date_now (Nat.iter n pass tab) = Date_now tab.
Proof.
  induction n as [|n [IH1 IH2]]; simpl; [done|].
  destruct (pass_frame (Nat.iter n pass tab)) as [-> ->]. done.
Qed.

Lemma threshold_nonneg lvl : 0 ≤ calculateXPForNextLevel lvl.
Proof.
  unfold calculateXPForNextLevel. destruct (1 <=? lvl) eqn:E.
  - apply Z.leb_le in E. apply Z.div_pos; [|apply Z.pow_pos_nonneg; lia].
    apply Z.mul_nonneg_nonneg; [lia|]. apply Z.pow_nonneg. lia.
  - apply Z.leb_gt in E. apply Z.div_pos; [|apply Z.pow_pos_nonneg; lia].
    apply Z.mul_nonneg_nonneg; [lia|]. apply Z.pow_nonneg. lia.
Qed.

Lemma threshold_ge_100 lvl : 1 ≤ lvl → 100 ≤ calculateXPForNextLevel lvl.
Proof.
  intros H. unfold calculateXPForNextLevel.
  destruct (1 <=? lvl) eqn:E; [|apply Z.leb_gt in E; lia].
  assert (0 < 10 ^ (lvl - 1)) by (apply Z.pow_pos_nonneg; lia).
  apply Z.div_le_lower_bound; [done|].
  assert (10 ^ (lvl - 1) ≤ 11 ^ (lvl - 1)) by (apply Z.pow_le_mono_l; lia).
  lia.
Qed.

(** [calculateXPForNextLevel level] is the floor of [100 * 1.1^(level-1)]. *)
Lemma threshold_floor lvl :
  1 ≤ lvl →
  calculateXPForNextLevel lvl * 10 ^ (lvl - 1) ≤ 100 * 11 ^ (lvl - 1) <
  (calculateXPForNextLevel lvl + 1) * 10 ^ (lvl - 1).
Proof.
  intros H. unfold calculateXPForNextLevel.
  assert ((1 <=? lvl) = true) as -> by (apply Z.leb_le; lia).
  assert (0 < 10 ^ (lvl - 1)) as Hpos by (apply Z.pow_pos_nonneg; lia).
  pose proof (Z.mul_div_le (100 * 11 ^ (lvl - 1)) _ Hpos).
  pose proof (Z.mul_succ_div_gt (100 * 11 ^ (lvl - 1)) _ Hpos).
  lia.
Qed.

Lemma crossing_settled gs : settled (crossing gs).
Proof. reflexivity. Qed.

Lemma crossing_passes_left gs :
  settled gs → levelUpDue gs = true →
  (passes_left (crossing gs) < passes_left gs)%nat.
Proof.
  unfold settled, levelUpDue, passes_left. intros Hs Hd.
  apply Z.leb_le in Hd. simpl.
  pose proof (threshold_nonneg (level (user gs))).
  destruct (Z_le_gt_dec 1 (level (user gs))) as [Hl|Hl].
  - pose proof (threshold_ge_100 _ Hl). lia.
  - lia.
Qed.

Lemma loop_settled fuel tab :
  loggable tab → settled (game tab) → (passes_left (game tab) ≤ fuel)%nat →
  ∃ tab', while_ fuel (λ tab, levelUpDue (game tab)) levelUp tab = (Ok tt, tab').
Proof.
  revert tab. induction fuel as [|fuel IH]; intros tab Hlog Hs Hle.
  - rewrite while_0. destruct (levelUpDue (game tab)) eqn:E; [|by eexists].
    pose proof (crossing_passes_left _ Hs E). lia.
  - rewrite while_S. destruct (levelUpDue (game tab)) eqn:E; [|by eexists].
    destruct (levelUp_loggable tab Hlog) as [-> Hlog'].
    apply IH; [done|rewrite pass_game; apply crossing_settled|].
    rewrite pass_game. pose proof (crossing_passes_left _ Hs E). lia.
Qed.

Lemma loop_terminates tab :
  loggable tab →
  ∃ tab', while_ (levelUpFuel (game tab)) (λ tab, levelUpDue (game tab)) levelUp tab
          = (Ok tt, tab').
Proof.
  intros Hlog. unfold levelUpFuel. rewrite while_S.
  destruct (levelUpDue (game tab)) eqn:E; [|by eexists].
  destruct (levelUp_loggable tab Hlog) as [-> Hlog'].
  apply loop_settled; [done|rewrite pass_game; apply crossing_settled|].
  rewrite pass_game. unfold passes_left. simpl.
  unfold levelUpDue in E. apply Z.leb_le in E. lia.
Qed.

Lemma addXP_run amount tab :
  addXP amount tab =
  while_ (levelUpFuel (credited amount (game tab))) (λ tab, levelUpDue (game tab))
         levelUp (credit amount tab).
Proof. reflexivity. Qed.

(** The loop makes some number of passes, each one due, and stops at
    the first state where none is. *)
Lemma loop_passes fuel tab tab' :
  while_ fuel (λ tab, levelUpDue (game tab)) levelUp tab = (Ok tt, tab') →
  ∃ n : nat, tab' = Nat.iter n pass tab ∧
    ∀ i : nat, (i < n)%nat → levelUpDue (Nat.iter i crossing (game tab)) = true.
Proof.
  revert tab. induction fuel as [|fuel IH]; intros tab.
  - rewrite while_0. destruct (levelUpDue (game tab)) eqn:E; [done|].
    intros [= <-]. exists 0%nat. split; [done|]. lia.
  - rewrite while_S. destruct (levelUpDue (game tab)) eqn:E.
    + destruct (levelUp tab) as [[[]|e|] tab1] eqn:Hbody; try done.
      assert (tab1 = pass tab) as -> by (unfold pass; by rewrite Hbody).
      intros H. destruct (IH _ H) as (n & -> & Hn).
      exists (S n). split; [by rewrite Nat.iter_succ_r|].
      intros [|i] Hi; [done|]. rewrite Nat.iter_succ_r, <- pass_game. apply Hn. lia.
    + intros [= <-]. exists 0%nat. split; [done|]. lia.
Qed.

(** With a log that can be extended, [addXP] returns, with no pass due. *)
Lemma addXP_returns amount tab :
  loggable tab →
  ∃ tab', addXP amount tab = (Ok tt, tab') ∧ levelUpDue (game tab') = false ∧
    loggable tab'.
Proof.
  intros Hlog. rewrite addXP_run.
  destruct (loop_terminates (credit amount tab) Hlog) as [tab' H].
  exists tab'. split; [done|]. split.
  - by apply (while_exit (λ tab, levelUpDue (game tab))) in H.
  - apply loop_passes in H as (n & -> & _). by apply passes_loggable.
Qed.

(** With an item that cannot be extended, [addXP] makes one pass, when a
    pass is due, and the call of [logEvent] in it throws. *)
Lemma addXP_spoiled amount tab :
  ¬ loggable tab →
  if levelUpDue (credited amount (game tab))
  then ∃ e, addXP amount tab = (Throw e, pass (credit amount tab))
  else addXP amount tab = (Ok tt, credit amount tab).
Proof.
  intros Hlog. rewrite addXP_run. unfold levelUpFuel. rewrite while_S.
  change (game (credit amount tab)) with (credited amount (game tab)).
  destruct (levelUpDue (credited amount (game tab))); [|done].
  rewrite (pass_spoiled (credit amount tab) Hlog).
  destruct (levelUp_spoiled (credit amount tab) Hlog) as [e ->]. by exists e.
Qed.

(** What a call of [addXP] does, in every tab. *)
Lemma addXP_cases amount tab :
  ∃ (n : nat) r tab',
    addXP amount tab = (r, tab') ∧
    tab' = Nat.iter n pass (credit amount tab) ∧
    (∀ i : nat, (i < n)%nat →
       levelUpDue (Nat.iter i crossing (credited amount (game tab))) = true) ∧
    ((r = Ok tt ∧ levelUpDue (game tab') = false) ∨
     (∃ e, r = Throw e ∧ ¬ loggable tab ∧ n = 1%nat)) ∧
    (loggable tab → r = Ok tt ∧ loggable tab') ∧
    (¬ loggable tab → mindforge_analytics tab' = mindforge_analytics tab).
Proof.
  destruct (loggable_dec tab) as [Hlog|Hlog].
  - destruct (addXP_returns amount tab Hlog) as (tab' & Hrun & Hstop & Hlog').
    pose proof Hrun as Hrun'. rewrite addXP_run in Hrun'.
    apply loop_passes in Hrun' as (n & -> & Hn).
    exists n, (Ok tt), (Nat.iter n pass (credit amount tab)).
    split; [done|]. split; [done|]. split; [done|]. split; [by left|]. done.
  - pose proof (addXP_spoiled amount tab Hlog) as H.
    destruct (levelUpDue (credited amount (game tab))) eqn:E.
    + destruct H as [e H]. exists 1%nat, (Throw e), (pass (credit amount tab)).
      split; [done|]. split; [done|]. split.
      { intros i Hi. by replace i with 0%nat by lia. }
      split; [right; by exists e|]. split; [done|].
      intros _. by rewrite (pass_spoiled (credit amount tab) Hlog).
    + exists 0%nat, (Ok tt), (credit amount tab).
      split; [done|]. split; [done|]. split; [intros i Hi; lia|].
      split; [by left|]. done.
Qed.

Lemma awards_below_threshold amounts tab :
  loggable tab →
  Forall (λ r, r.1 = Ok tt ∧ xp (user (game r.2)) < xpToNext (user (game r.2)))
         (awards amounts tab).
Proof.
  revert tab. induction amounts as [|amount rest IH]; intros tab Hlog; simpl;
    [constructor|].
  destruct (addXP_returns amount tab Hlog) as (tab' & Hrun & Hd & Hlog').
  rewrite Hrun. constructor; [|by apply IH].
  split; [done|]. apply Z.leb_gt in Hd. exact Hd.
Qed.

(** C1 at a failing input.  While the item that [logEvent] extends is an
    array, or is not there, every call of a sequence of [addXP] calls
    returns and leaves [xp < xpToNext].  With an item that is not JSON,
    [addXP(500)] on a new game, whose threshold is 100, throws from the
    call of [logEvent] in the first pass of its loop: it leaves the level
    at 2 and [xp] at 400, above the threshold of 110. *)
Theorem xp_at_threshold_when_logEvent_throws :
  (∀ tab amounts,
     loggable tab →
     Forall (λ r, r.1 = Ok tt ∧ xp (user (game r.2)) < xpToNext (user (game r.2)))
            (awards amounts tab)) ∧
  xpToNext (user startedGame) = 100 ∧
  (addXP 500 (spoiled startedGame)).1 = Throw SyntaxError ∧
  level (user (game (addXP 500 (spoiled startedGame)).2)) = 2 ∧
  xp (user (game (addXP 500 (spoiled startedGame)).2)) = 400 ∧
  xpToNext (user (game (addXP 500 (spoiled startedGame)).2)) = 110.
Proof.
  split; [intros tab amounts; apply awards_below_threshold|].
  split; [reflexivity|]. split; [vm_compute; reflexivity|].
  split; [vm_compute; reflexivity|]. split; vm_compute; reflexivity.
Qed.

(** C6 at a failing input.  [calculateXPForNextLevel level] is the floor of
    [100 * 1.1^(level-1)], stated for the levels from 1 to below 250, where
    the number of the code is this integer.  A profile at level 1 with 0 XP and threshold
    100 that is awarded 150 XP is left at level 2 with 50 XP and threshold
    110, and the call returns when its [logEvent] does.  While the item
    that [logEvent] extends is an array, or is not there, one call makes
    every pass that is due: it returns the credited tab after [n] passes
    of the loop body, each of them due, with no pass due in the result; a
    pass subtracts the threshold, raises the level by one and sets the
    threshold to [calculateXPForNextLevel] of the new level.  With an item
    that is not JSON, [addXP(500)] on a new game makes the first of its
    four crossings only: it throws with the level at 2 and a pass due,
    where the call with a log that can be extended ends at level 5. *)
Theorem addXP_levels_up_in_one_call :
  (∀ lvl, 1 ≤ lvl < 250 →
     calculateXPForNextLevel lvl * 10 ^ (lvl - 1) ≤ 100 * 11 ^ (lvl - 1) <
     (calculateXPForNextLevel lvl + 1) * 10 ^ (lvl - 1)) ∧
  (∀ tab, level (user (game tab)) = 1 → xp (user (game tab)) = 0 →
     xpToNext (user (game tab)) = 100 →
     ∃ r tab', addXP 150 tab = (r, tab') ∧
       level (user (game tab')) = 2 ∧ xp (user (game tab')) = 50 ∧
       xpToNext (user (game tab')) = 110 ∧
       (loggable tab → r = Ok tt)) ∧
  (∀ tab amount, loggable tab →
     ∃ n : nat,
       addXP amount tab = (Ok tt, Nat.iter n pass (credit amount tab)) ∧
       game (Nat.iter n pass (credit amount tab)) =
         Nat.iter n crossing (credited amount (game tab)) ∧
       (∀ i : nat, (i < n)%nat →
          levelUpDue (Nat.iter i crossing (credited amount (game tab))) = true) ∧
       levelUpDue (Nat.iter n crossing (credited amount (game tab))) = false) ∧
  (∀ tab, game (levelUp tab).2 = crossing (game tab) ∧
     xp (user (crossing (game tab))) = xp (user (game tab)) - xpToNext (user (game tab)) ∧
     level (user (crossing (game tab))) = level (user (game tab)) + 1 ∧
     xpToNext (user (crossing (game tab))) =
       calculateXPForNextLevel (level (user (crossing (game tab))))) ∧
  (addXP 500 (spoiled startedGame)).1 = Throw SyntaxError ∧
  level (user (game (addXP 500 (spoiled startedGame)).2)) = 2 ∧
  levelUpDue (game (addXP 500 (spoiled startedGame)).2) = true ∧
  (addXP 500 (playing startedGame)).1 = Ok tt ∧
  level (user (game (addXP 500 (playing startedGame)).2)) = 5.
Proof.
  split; [intros lvl [Hl _]; by apply threshold_floor|]. split; [|split; [|split]].
  - intros tab Hl Hx Ht.
    assert (levelUpDue (credited 150 (game tab)) = true) as Hdue.
    { unfold levelUpDue. simpl. rewrite Hx, Ht. reflexivity. }
    assert (levelUpDue (crossing (credited 150 (game tab))) = false) as Hstop.
    { unfold levelUpDue. simpl. rewrite Hl, Hx, Ht. reflexivity. }
    destruct (addXP_cases 150 tab)
      as (n & r & tab' & Hrun & -> & Hn & Hres & Hlog & _).
    assert (n = 1%nat) as ->.
    { destruct Hres as [[_ Hnd]|(e & _ & _ & ->)]; [|done].
      rewrite passes_game in Hnd. change (game (credit 150 tab))
        with (credited 150 (game tab)) in Hnd.
      destruct n as [|[|n]]; [simpl in Hnd; congruence|done|].
      pose proof (Hn 1%nat ltac:(lia)) as H1. simpl in H1. congruence. }
    exists r, (Nat.iter 1 pass (credit 150 tab)). split; [done|].
    rewrite passes_game. simpl. rewrite Hl, Hx, Ht.
    split; [done|]. split; [done|]. split; [done|]. intros H. by apply Hlog.
  - intros tab amount Hlog.
    destruct (addXP_cases amount tab)
      as (n & r & tab' & Hrun & -> & Hn & Hres & Hok & _).
    destruct (Hok Hlog) as [-> _].
    exists n. split; [done|]. split; [apply passes_game|]. split; [done|].
    destruct Hres as [[_ Hnd]|(e & ? & _)]; [|done].
    by rewrite passes_game in Hnd.
  - intros tab. split; [apply pass_game|]. done.
  - split; [vm_compute; reflexivity|]. split; [vm_compute; reflexivity|].
    split; [vm_compute; reflexivity|]. split; vm_compute; reflexivity.
Qed.



End progression.

(** ** The handlers, case by case *)

Section handlers.
Import Game.

Lemma validateAnswer_run userAnswer correct (gs : GameState) :
  validateAnswer userAnswer correct gs = (verdict userAnswer correct, gs).
Proof. destruct correct as [[c|c]|], userAnswer; reflexivity. Qed.

Lemma js_index_Some {A} (l : list A) i x :
  js_index l i = Some x ↔ 0 ≤ i < Z.of_nat (length l) ∧ l !! Z.to_nat i = Some x.
Proof.
  unfold js_index. destruct (0 <=? i) eqn:E.
  - apply Z.leb_le in E. split.
    + intros H. pose proof (lookup_lt_Some _ _ _ H). split; [lia|done].
    + by intros [_ H].
  - apply Z.leb_gt in E. split; [done|]. intros [? _]. lia.
Qed.

Lemma js_index_None {A} (l : list A) i :
  js_index l i = None ↔ i < 0 ∨ Z.of_nat (length l) ≤ i.
Proof.
  unfold js_index. destruct (0 <=? i) eqn:E.
  - apply Z.leb_le in E. rewrite lookup_ge_None. lia.
  - apply Z.leb_gt in E. split; [lia|done].
Qed.

(** A handler that ends in a call of [logEvent]. *)
Lemma log_then_cases {A} eventName data (o : A) tab :
  ∃ r tab',
    (this_logEvent eventName data ≫= λ _, mret o) tab = (r, tab') ∧
    game tab' = game tab ∧ document tab' = document tab ∧
    Date_now tab' = Date_now tab ∧
    ((r = Ok o ∧ loggable tab ∧ loggable tab') ∨
     (∃ e, r = Throw e ∧ ¬ loggable tab ∧ tab' = tab)).
Proof.
  rewrite bind_run.
  destruct (logEvent_cases eventName data tab)
    as (r & tab' & -> & Hg & Hd & Hc & [(-> & Hl & Hl')|(e & -> & Hn & ->)]).
  - exists (Ok o), tab'. split; [done|]. split_and!; try done. by left.
  - exists (Throw e), tab. split; [done|]. split_and!; try done.
    right. by exists e.
Qed.

(** *** Showing a puzzle *)

Lemma renders_iff tab p :
  renders tab p ↔
  puzzle_container (document tab) = false ∨ answer_input (document tab) = false ∨
  (puzzle_type p ≠ Some "grid"%string ∧
   (puzzle_type p = Some "multiple-choice"%string → is_Some (options p))).
Proof.
  unfold renders, initializePuzzleContent, createMultipleChoiceInput.
  rewrite bind_run. cbn [get fst snd].
  destruct (puzzle_container (document tab)), (answer_input (document tab));
    simpl; try (split; [auto|done]).
  repeat case_bool_decide; simpl.
  - destruct (options p) as [os|] eqn:Ho; simpl.
    + split; [|done]. intros _. right. right. split; [congruence|]. by eexists.
    + split; [done|]. intros [?|[?|[_ Hr]]]; try done. by destruct (Hr ltac:(done)).
  - split; [|done]. intros _. right. right. split; [congruence|]. congruence.
  - split; [done|]. intros [?|[?|[Hr _]]]; done.
  - split; [|done]. intros _. right. right. split; [done|]. congruence.
Qed.

Lemma renders_document tab tab' p :
  document tab' = document tab → renders tab' p ↔ renders tab p.
Proof. intros H. by rewrite !renders_iff, H. Qed.

Lemma initializePuzzleContent_cases p tab :
  (renders tab p ∧ initializePuzzleContent p tab = (Ok tt, tab)) ∨
  (¬ renders tab p ∧ initializePuzzleContent p tab = (Throw TypeError, tab)).
Proof.
  unfold renders, initializePuzzleContent, createMultipleChoiceInput.
  rewrite bind_run. cbn [get fst snd].
  destruct (_ || _); [by left|].
  repeat case_bool_decide; try (by left); try (by right).
  destruct (options p); [by left|by right].
Qed.

(** *** Entering and starting *)

Lemma startPuzzle_run now id i tab :
  startPuzzle now id i tab =
  match chambers (game tab) !! id with
  | None => (Throw TypeError, tab)
  | Some chamber =>
      match js_index (puzzles chamber) i with
      | None => (Ok PuzzleNotFound, tab)
      | Some p =>
          (initializePuzzleContent p;;
           this_logEvent "puzzle_started"
             (VObj [ ("chamber", VStr id); ("puzzle", VNum i);
                     ("difficulty", VStr (difficulty p)) ]);;
           mret Started)
            (on_game (set_currentPuzzle (Some (attemptOn now id i p))) tab)
      end
  end.
Proof.
  unfold startPuzzle. rewrite bind_run. cbn [get fst snd].
  destruct (chambers (game tab) !! id) as [chamber|] eqn:Hch; [|done].
  destruct (js_index (puzzles chamber) i) as [p|]; [|done].
  rewrite bind_run, in_game_run. cbn [modify fst snd].
  rewrite bind_run. unfold updatePuzzleScreen at 1. rewrite bind_run.
  cbn [get fst snd game set_game set_currentPuzzle currentPuzzle chambers
       chamberId puzzle].
  rewrite Hch. cbn [document set_game].
  by destruct (puzzle_number (document tab)).
Qed.

Lemma show_and_log_cases p data tab :
  ∃ r tab',
    (initializePuzzleContent p ≫= λ _,
     this_logEvent "puzzle_started" data ≫= λ _, mret Started) tab = (r, tab') ∧
    game tab' = game tab ∧ document tab' = document tab ∧
    Date_now tab' = Date_now tab ∧
    ((r = Ok Started ∧ renders tab p ∧ loggable tab ∧ loggable tab') ∨
     (∃ e, r = Throw e ∧ (¬ renders tab p ∨ ¬ loggable tab) ∧ tab' = tab)).
Proof.
  rewrite bind_run.
  destruct (initializePuzzleContent_cases p tab) as [[Hr ->]|[Hr ->]].
  - destruct (log_then_cases "puzzle_started" data Started tab)
      as (r & tab' & -> & Hg & Hd & Hc & [(-> & Hl & Hl')|(e & -> & Hn & ->)]).
    + exists (Ok Started), tab'. split; [done|]. split_and!; try done. by left.
    + exists (Throw e), tab. split; [done|]. split_and!; try done.
      right. exists e. split; [done|]. split; [by right|done].
  - exists (Throw TypeError), tab. split; [done|]. split_and!; try done.
    right. exists TypeError. split; [done|]. split; [by left|done].
Qed.

Lemma startPuzzle_cases now id i tab chamber p :
  chambers (game tab) !! id = Some chamber →
  js_index (puzzles chamber) i = Some p →
  ∃ r tab',
    startPuzzle now id i tab = (r, tab') ∧
    game tab' = set_currentPuzzle (Some (attemptOn now id i p)) (game tab) ∧
    document tab' = document tab ∧ Date_now tab' = Date_now tab ∧
    ((r = Ok Started ∧ renders tab p ∧ loggable tab ∧ loggable tab') ∨
     (∃ e, r = Throw e ∧ (¬ renders tab p ∨ ¬ loggable tab) ∧
        mindforge_analytics tab' = mindforge_analytics tab)).
Proof.
  intros Hch Hp. rewrite startPuzzle_run, Hch, Hp.
  set (tab0 := on_game _ tab).
  assert (Hr0 : renders tab0 p ↔ renders tab p) by by apply renders_document.
  assert (Hl0 : loggable tab0 ↔ loggable tab) by apply loggable_game.
  destruct (show_and_log_cases p
              (VObj [ ("chamber", VStr id); ("puzzle", VNum i);
                      ("difficulty", VStr (difficulty p)) ]) tab0)
    as (r & tab' & -> & Hg & Hd & Hc & [(-> & Hr & Hl & Hl')|(e & -> & Hn & ->)]).
  - exists (Ok Started), tab'. split; [done|]. split_and!; try done.
    left. split_and!; try done; tauto.
  - exists (Throw e), tab0. split; [done|]. split_and!; try done.
    right. exists e. split; [done|]. split; [tauto|done].
Qed.

Lemma enterChamber_run now id tab :
  enterChamber now id tab =
  match chambers (game tab) !! id with
  | None => (Ok NotUnlocked, tab)
  | Some chamber =>
      if level (user (game tab)) <? unlockLevel chamber then (Ok NotUnlocked, tab)
      else if completed (progress chamber) <? Z.of_nat (length (puzzles chamber))
      then startPuzzle now id (completed (progress chamber))
             (on_game (set_currentChamber (Some id)) tab)
      else (Ok ChamberExhausted, on_game (set_currentChamber (Some id)) tab)
  end.
Proof.
  unfold enterChamber. rewrite bind_run. cbn [get fst snd].
  destruct (chambers (game tab) !! id) as [chamber|]; [|done].
  destruct (_ <? unlockLevel chamber); [done|].
  rewrite bind_run, in_game_run. cbn [modify fst snd].
  by destruct (_ <? Z.of_nat _).
Qed.

(** [enterChamber] when it goes on to start a puzzle. *)
Lemma enterChamber_cases now id tab chamber p :
  chambers (game tab) !! id = Some chamber →
  unlockLevel chamber ≤ level (user (game tab)) →
  js_index (puzzles chamber) (completed (progress chamber)) = Some p →
  ∃ r tab',
    enterChamber now id tab = (r, tab') ∧
    game tab' =
      set_currentPuzzle (Some (attemptOn now id (completed (progress chamber)) p))
        (set_currentChamber (Some id) (game tab)) ∧
    document tab' = document tab ∧ Date_now tab' = Date_now tab ∧
    ((r = Ok Started ∧ renders tab p ∧ loggable tab ∧ loggable tab') ∨
     (∃ e, r = Throw e ∧ (¬ renders tab p ∨ ¬ loggable tab) ∧
        mindforge_analytics tab' = mindforge_analytics tab)).
Proof.
  intros Hch Hlvl Hp. rewrite enterChamber_run, Hch.
  destruct (_ <? unlockLevel chamber) eqn:E; [apply Z.ltb_lt in E; lia|].
  pose proof Hp as Hp'. apply js_index_Some in Hp' as [Hn _].
  destruct (_ <? Z.of_nat _) eqn:E2; [|apply Z.ltb_ge in E2; lia].
  set (tab0 := on_game _ tab).
  assert (Hr0 : renders tab0 p ↔ renders tab p) by by apply renders_document.
  assert (Hl0 : loggable tab0 ↔ loggable tab) by apply loggable_game.
  destruct (startPuzzle_cases now id (completed (progress chamber)) tab0 chamber p)
    as (r & tab' & -> & Hg & Hd & Hc & Hcases); [done|done|].
  exists r, tab'. split; [done|]. split_and!; try done.
  destruct Hcases as [(-> & Hr & Hl & Hl')|(e & -> & Hn' & Hm)].
  - left. split; [done|]. tauto.
  - right. exists e. split; [done|]. split; [tauto|done].
Qed.

(** *** Answers *)

Lemma handleIncorrectAnswer_run tab :
  handleIncorrectAnswer tab =
  match currentPuzzle (game tab) with
  | None => (Throw TypeError, tab)
  | Some cp =>
      (this_logEvent "puzzle_attempt_failed"
         (VObj [ ("chamber", VStr (chamberId cp)); ("puzzle", VNum (puzzleIndex cp));
                 ("attempt", VNum (attempts cp)) ]) ≫= λ _, mret Incorrect)
        (if 3 <=? attempts cp
         then on_game (λ gs, set_user (set_currentStreak 0 (user gs)) gs) tab
         else tab)
  end.
Proof.
  unfold handleIncorrectAnswer. rewrite bind_run. cbn [get fst snd].
  destruct (currentPuzzle (game tab)) as [cp|]; [|done].
  rewrite bind_run. by destruct (3 <=? attempts cp).
Qed.

Lemma handleIncorrectAnswer_cases tab cp :
  currentPuzzle (game tab) = Some cp →
  ∃ r tab',
    handleIncorrectAnswer tab = (r, tab') ∧
    game tab' = (if 3 <=? attempts cp
                 then set_user (set_currentStreak 0 (user (game tab))) (game tab)
                 else game tab) ∧
    document tab' = document tab ∧ Date_now tab' = Date_now tab ∧
    ((r = Ok Incorrect ∧ loggable tab ∧ loggable tab') ∨
     (∃ e, r = Throw e ∧ ¬ loggable tab ∧
        mindforge_analytics tab' = mindforge_analytics tab)).
Proof.
  intros Hcp. rewrite handleIncorrectAnswer_run, Hcp.
  set (tab0 := if 3 <=? attempts cp then _ else tab).
  assert (Hg0 : game tab0 = if 3 <=? attempts cp
                 then set_user (set_currentStreak 0 (user (game tab))) (game tab)
                 else game tab) by (subst tab0; by destruct (3 <=? _)).
  assert (Hd0 : document tab0 = document tab ∧ Date_now tab0 = Date_now tab ∧
                mindforge_analytics tab0 = mindforge_analytics tab)
    by (subst tab0; by destruct (3 <=? _)).
  destruct Hd0 as (Hd0 & Hc0 & Hm0).
  assert (Hl0 : loggable tab0 ↔ loggable tab) by (unfold loggable; by rewrite Hm0).
  destruct (log_then_cases "puzzle_attempt_failed"
              (VObj [ ("chamber", VStr (chamberId cp)); ("puzzle", VNum (puzzleIndex cp));
                      ("attempt", VNum (attempts cp)) ]) Incorrect tab0)
    as (r & tab' & -> & Hg & Hd & Hc & [(-> & Hl & Hl')|(e & -> & Hn & ->)]).
  - exists (Ok Incorrect), tab'. split; [done|].
    split_and!; try congruence. left. split_and!; try done; tauto.
  - exists (Throw e), tab0. split; [done|]. split_and!; try done.
    right. exists e. split; [done|]. split; [tauto|done].
Qed.

Lemma handleCorrectAnswer_run now later tab cp chamber :
  currentPuzzle (game tab) = Some cp →
  chambers (game tab) !! chamberId cp = Some chamber →
  handleCorrectAnswer now later tab =
  (addXP (finalScore now cp);;
   in_game (on_analytics (λ a,
     set_timeSpent (timeSpent a + (later - startTime cp)) a));;
   this_logEvent "puzzle_completed"
     (VObj [ ("chamber", VStr (chamberId cp)); ("puzzle", VNum (puzzleIndex cp));
             ("attempts", VNum (attempts cp)); ("hintsUsed", VNum (hintsUsed cp));
             ("timeSpent", VNum (later - startTime cp));
             ("score", VNum (finalScore now cp)) ]);;
   try_catch (this_logEvent "game_saved" VUndefined);;
   mret (Correct (finalScore now cp)))
    (on_game (solved cp chamber) tab).
Proof.
  intros Hcp Hch. unfold handleCorrectAnswer. rewrite bind_run. cbn [get fst snd].
  rewrite Hcp, Hch. by rewrite !bind_run, !in_game_run.
Qed.

Lemma handleCorrectAnswer_cases now later tab cp chamber :
  currentPuzzle (game tab) = Some cp →
  chambers (game tab) !! chamberId cp = Some chamber →
  let score := finalScore now cp in
  let base := credited score (solved cp chamber (game tab)) in
  ∃ (n : nat) r tab',
    handleCorrectAnswer now later tab = (r, tab') ∧
    game (addXP score (on_game (solved cp chamber) tab)).2 = Nat.iter n crossing base ∧
    (∀ i : nat, (i < n)%nat → levelUpDue (Nat.iter i crossing base) = true) ∧
    document tab' = document tab ∧ Date_now tab' = Date_now tab ∧
    ((r = Ok (Correct score) ∧ loggable tab ∧ loggable tab' ∧
      game tab' = timed later cp (Nat.iter n crossing base) ∧
      levelUpDue (Nat.iter n crossing base) = false) ∨
     (∃ e, r = Throw e ∧ ¬ loggable tab ∧
        mindforge_analytics tab' = mindforge_analytics tab ∧
        ((n = 1%nat ∧ game tab' = crossing base) ∨
         (n = 0%nat ∧ levelUpDue base = false ∧ game tab' = timed later cp base)))).
Proof.
  intros Hcp Hch score base. rewrite (handleCorrectAnswer_run _ _ _ _ _ Hcp Hch).
  fold score. set (tab0 := on_game _ tab).
  assert (Hl0 : loggable tab0 ↔ loggable tab) by apply loggable_game.
  rewrite bind_run.
  destruct (loggable_dec tab) as [Hl|Hl].
  - destruct (addXP_cases score tab0)
      as (n & r & tab1 & Hrun & Htab1 & Hdue & Hres & Hlog & _).
    rewrite Hrun.
    assert (Hg1 : game tab1 = Nat.iter n crossing base)
      by (rewrite Htab1, passes_game; done).
    assert (Hd1 : document tab1 = document tab ∧ Date_now tab1 = Date_now tab).
    { rewrite Htab1. by destruct (passes_document n (credit score tab0)) as [-> ->]. }
    destruct Hd1 as [Hd1 Hc1]. exists n.
    destruct Hlog as [-> Hl1]; [tauto|].
    destruct Hres as [[_ Hstop]|(e & ? & _)]; [|done].
    rewrite bind_run, in_game_run. cbn [on_analytics modify fst snd].
    set (tab2 := set_game _ tab1).
    assert (Hl2 : loggable tab2) by by apply loggable_game.
    rewrite bind_run.
    destruct (logEvent_cases "puzzle_completed"
      (VObj [ ("chamber", VStr (chamberId cp)); ("puzzle", VNum (puzzleIndex cp));
              ("attempts", VNum (attempts cp)); ("hintsUsed", VNum (hintsUsed cp));
              ("timeSpent", VNum (later - startTime cp)); ("score", VNum score) ]) tab2)
      as (r3 & tab3 & -> & Hg3 & Hd3 & Hc3 & [(-> & _ & Hl3)|(e & _ & ? & _)]);
      [|done].
    rewrite bind_run. unfold try_catch.
    destruct (logEvent_cases "game_saved" VUndefined tab3)
      as (r4 & tab4 & -> & Hg4 & Hd4 & Hc4 & [(-> & _ & Hl4)|(e & _ & ? & _)]);
      [|done].
    exists (Ok (Correct score)), tab4. split; [done|]. split; [done|].
    split; [done|].
    split; [by rewrite Hd4, Hd3|]. split; [by rewrite Hc4, Hc3|].
    left. split_and!; try done.
    + rewrite Hg4, Hg3. subst tab2. cbn [game set_game]. by rewrite Hg1.
    + by rewrite <- Hg1.
  - pose proof (addXP_spoiled score tab0 ltac:(tauto)) as Hsp.
    change (credited score (game tab0)) with base in Hsp.
    destruct (levelUpDue base) eqn:Hbase.
    + destruct Hsp as [e ->]. exists 1%nat, (Throw e), (pass (credit score tab0)).
      split; [done|]. split; [cbn [snd]; by rewrite pass_game|]. split.
      { intros i Hi. by replace i with 0%nat by lia. }
      destruct (pass_frame (credit score tab0)) as (Hd & Hc).
      split; [by rewrite Hd|]. split; [by rewrite Hc|].
      right. exists e. split; [done|]. split; [done|]. split.
      * rewrite pass_spoiled; [done|]. intros H. apply loggable_game in H. tauto.
      * left. split; [done|]. by rewrite pass_game.
    + rewrite Hsp. rewrite bind_run, in_game_run. cbn [on_analytics modify fst snd].
      set (tab2 := set_game _ (credit score tab0)).
      assert (Hl2 : ¬ loggable tab2).
      { intros H. do 2 apply loggable_game in H. tauto. }
      rewrite bind_run.
      destruct (logEvent_cases "puzzle_completed"
        (VObj [ ("chamber", VStr (chamberId cp)); ("puzzle", VNum (puzzleIndex cp));
                ("attempts", VNum (attempts cp)); ("hintsUsed", VNum (hintsUsed cp));
                ("timeSpent", VNum (later - startTime cp)); ("score", VNum score) ]) tab2)
        as (r3 & tab3 & -> & Hg3 & Hd3 & Hc3 & [(_ & ? & _)|(e & -> & _ & ->)]);
        [done|].
      exists 0%nat, (Throw e), tab2. split; [done|]. split; [done|].
      split; [intros; lia|].
      split; [done|]. split; [done|]. right. exists e.
      split; [done|]. split; [done|]. split; [done|]. right. done.
Qed.

Lemma checkAnswer_run now later userAnswer tab :
  checkAnswer now later userAnswer tab =
  match currentPuzzle (game tab), userAnswer with
  | Some cp, Some a =>
      match verdict a (correctAnswer (puzzle cp)) with
      | Ok true => handleCorrectAnswer now later (on_game counted tab)
      | Ok false => handleIncorrectAnswer (on_game counted tab)
      | Throw e => (Throw e, on_game counted tab)
      | OutOfFuel => (OutOfFuel, on_game counted tab)
      end
  | _, _ => (Ok Ignored, tab)
  end.
Proof.
  unfold checkAnswer. rewrite bind_run. cbn [get fst snd].
  destruct (currentPuzzle (game tab)) as [cp|]; [|done].
  destruct userAnswer as [a|]; [|done].
  rewrite !bind_run, !in_game_run. cbn [on_currentPuzzle on_analytics modify fst snd].
  rewrite bind_run, in_game_run. cbn [on_currentPuzzle on_analytics modify fst snd].
  rewrite bind_run. unfold in_game at 1. rewrite validateAnswer_run. cbn [fst snd].
  by destruct (verdict a (correctAnswer (puzzle cp))) as [[]| |].
Qed.

(** *** Hints, the next puzzle, a reset *)

Lemma showHint_run tab :
  showHint tab =
  match currentPuzzle (game tab) with
  | None => (Ok Ignored, tab)
  | Some cp =>
      let hints := default [] (hints (puzzle cp)) in
      let hintIndex := Z.min (hintsUsed cp) (Z.of_nat (length hints) - 1) in
      if Z.of_nat (length hints) <=? hintIndex then (Ok NoMoreHints, tab)
      else
        (this_logEvent "hint_used"
           (VObj [ ("chamber", VStr (chamberId cp)); ("puzzle", VNum (puzzleIndex cp));
                   ("hintLevel", VNum (hintsUsed cp + 1)) ]) ≫= λ _,
         mret (Hint (js_index hints hintIndex)))
          (on_game (λ gs,
             set_analytics (set_a_hintsUsed (a_hintsUsed (analytics gs) + 1) (analytics gs))
               (set_currentPuzzle (Some (set_hintsUsed (hintsUsed cp + 1) cp)) gs)) tab)
  end.
Proof.
  unfold showHint. rewrite bind_run. cbn [get fst snd].
  destruct (currentPuzzle (game tab)) as [cp|] eqn:Hcp; [|done].
  cbv zeta. destruct (_ <=? _); [done|].
  rewrite !bind_run, !in_game_run. cbn [on_currentPuzzle on_analytics modify fst snd].
  rewrite bind_run, in_game_run. cbn [on_currentPuzzle on_analytics modify fst snd].
  unfold on_game. cbn [game set_game]. by rewrite Hcp.
Qed.

Lemma nextPuzzle_run now tab :
  nextPuzzle now tab =
  match currentPuzzle (game tab) with
  | None => (Ok Ignored, tab)
  | Some cp =>
      match chambers (game tab) !! chamberId cp with
      | None => (Throw TypeError, tab)
      | Some chamber =>
          if puzzleIndex cp + 1 <? Z.of_nat (length (puzzles chamber))
          then startPuzzle now (chamberId cp) (puzzleIndex cp + 1) tab
          else (Ok ChamberCompleted, tab)
      end
  end.
Proof.
  unfold nextPuzzle. rewrite bind_run. cbn [get fst snd].
  destruct (currentPuzzle (game tab)) as [cp|]; [|done].
  destruct (chambers (game tab) !! chamberId cp) as [chamber|]; [|done].
  by destruct (_ <? _).
Qed.

End handlers.

(** ** Scoring function *)

Section scoring.
Import Game.

(** C2. With [basePoints >= 1], the points of the puzzle or 10 when it
    has none, [elapsedMs >= 0], [hintsUsed >= 0] and [attempts >= 1], the
    score of a correct answer is
    [max 1 (basePoints + timeBonus - 2 * hintsUsed - (attempts - 1))] with
    a time bonus of 5 up to 30000 ms, 2 up to 60000 ms and 0 beyond; it
    is at least 1, and it is the score that [handleCorrectAnswer] hands
    to [addXP], on the state [solved], and reports.  It reports when the
    item of the log can be extended, and then the game is the one [addXP]
    left, with the time spent added; when the item cannot be extended a
    [logEvent] throws, in [addXP] or after it. *)
Theorem score_of_correct_answer now cp basePoints :
  js_or (points (puzzle cp)) 10 = basePoints →
  1 ≤ basePoints →
  0 ≤ now - startTime cp →
  0 ≤ hintsUsed cp →
  1 ≤ attempts cp →
  let elapsedMs := now - startTime cp in
  let timeBonus :=
    if elapsedMs <=? 30000 then 5 else if elapsedMs <=? 60000 then 2 else 0 in
  let score :=
    Z.max 1 (basePoints + timeBonus - 2 * hintsUsed cp - (attempts cp - 1)) in
  finalScore now cp = score ∧
  1 ≤ finalScore now cp ∧
  ∀ later tab chamber,
    currentPuzzle (game tab) = Some cp →
    chambers (game tab) !! chamberId cp = Some chamber →
    ∃ r1 tab1 r tab',
      addXP score (on_game (solved cp chamber) tab) = (r1, tab1) ∧
      handleCorrectAnswer now later tab = (r, tab') ∧
      (loggable tab →
         r1 = Ok tt ∧ r = Ok (Correct score) ∧
         game tab' = timed later cp (game tab1)) ∧
      (¬ loggable tab →
         (∃ e, r = Throw e) ∧
         (game tab' = game tab1 ∨ game tab' = timed later cp (game tab1))).
Proof.
  intros Hp Hb He Hh Ha elapsedMs timeBonus score.
  assert (finalScore now cp = score) as Hscore.
  { unfold finalScore, calculateTimeBonus, score, timeBonus, elapsedMs.
    rewrite Hp. change (5 `div` 2) with 2. change (30000 * 2) with 60000.
    repeat case_match; lia. }
  split; [done|]. split; [rewrite Hscore; unfold score; lia|].
  intros later tab chamber Hcp Hch.
  destruct (handleCorrectAnswer_cases now later tab cp chamber Hcp Hch)
    as (n & r & tab' & Hrun & Hxp & _ & _ & _ & Hcases).
  rewrite Hscore in Hxp, Hcases.
  destruct (addXP score (on_game (solved cp chamber) tab)) as [r1 tab1] eqn:Hadd.
  cbn [snd] in Hxp.
  exists r1, tab1, r, tab'. split; [done|]. split; [done|]. split.
  - intros Hlog.
    destruct Hcases as [(-> & _ & _ & Hg & _)|(e & _ & Hn & _)]; [|done].
    destruct (addXP_returns score (on_game (solved cp chamber) tab)) as (t & Ht & _).
    { by apply loggable_game. }
    split; [congruence|]. split; [done|]. by rewrite Hxp.
  - intros Hlog.
    destruct Hcases as [(_ & Hl & _)|(e & -> & _ & _ & Hg)]; [done|].
    split; [by exists e|].
    destruct Hg as [[-> Hg]|(-> & _ & Hg)]; [left|right]; by rewrite Hxp.
Qed.

(** Scenario C of the specification: the floor of 1. *)
Example score_floor : finalScore 21000 laboriousAttempt = 1.
Proof. reflexivity. Qed.

(** Scenario B of the specification. *)
Lemma score_witness :
  js_or (points (puzzle quickAttempt)) 10 = 10 ∧
  1 ≤ 10 ∧ 0 ≤ 21000 - startTime quickAttempt ∧
  0 ≤ hintsUsed quickAttempt ∧ 1 ≤ attempts quickAttempt ∧
  finalScore 21000 quickAttempt = 13.
Proof.
  assert (js_or (points (puzzle quickAttempt)) 10 = 10) as H1 by reflexivity.
  assert (1 ≤ 10) as H2 by lia.
  assert (0 ≤ 21000 - startTime quickAttempt) as H3 by (simpl; lia).
  assert (0 ≤ hintsUsed quickAttempt) as H4 by (simpl; lia).
  assert (1 ≤ attempts quickAttempt) as H5 by (simpl; lia).
  repeat (split; [assumption|]).
  exact (proj1 (score_of_correct_answer 21000 quickAttempt 10 H1 H2 H3 H4 H5)).
Defined.

End scoring.

(** ** Session controller *)

Section session.
Import Game.

(** C7. Entering a chamber whose [unlockLevel] exceeds the user's level
    reports that the chamber is not unlocked and leaves the whole game
    state, and the rest of the tab, as it was. *)
Theorem enterChamber_locked_changes_nothing now chamberId tab chamber :
  chambers (game tab) !! chamberId = Some chamber →
  level (user (game tab)) < unlockLevel chamber →
  enterChamber now chamberId tab = (Ok NotUnlocked, tab).
Proof.
  intros Hch Hlock. rewrite enterChamber_run, Hch.
  apply Z.ltb_lt in Hlock. by rewrite Hlock.
Qed.

(** C3, as amended.  For an unlocked chamber, [enterChamber] reports that
    the chamber is exhausted exactly when [completed] has reached the
    number of puzzles loaded for the chamber; with [completed] from 0 up to
    below that number it starts, with a new attempt, the puzzle at index
    [completed]: the attempt is in the game whatever comes after, and the
    start is reported when the document shows the puzzle and the item
    of the log can be extended; otherwise the call throws. *)
Theorem enterChamber_next_unsolved now chamberId tab chamber :
  chambers (game tab) !! chamberId = Some chamber →
  unlockLevel chamber ≤ level (user (game tab)) →
  let n := completed (progress chamber) in
  ((enterChamber now chamberId tab).1 = Ok ChamberExhausted ↔
     Z.of_nat (length (puzzles chamber)) ≤ n) ∧
  (0 ≤ n < Z.of_nat (length (puzzles chamber)) →
     ∃ p, puzzles chamber !! Z.to_nat n = Some p ∧
       game (enterChamber now chamberId tab).2 =
         set_currentPuzzle (Some
           {| chamberId := chamberId; puzzleIndex := n; puzzle := p;
              startTime := now; hintsUsed := 0; attempts := 0 |})
           (set_currentChamber (Some chamberId) (game tab)) ∧
       (renders tab p → loggable tab →
          (enterChamber now chamberId tab).1 = Ok Started) ∧
       ((enterChamber now chamberId tab).1 = Ok Started ∨
        ∃ e, (enterChamber now chamberId tab).1 = Throw e ∧
             (¬ renders tab p ∨ ¬ loggable tab))).
Proof.
  intros Hch Hun n. split.
  - rewrite enterChamber_run, Hch.
    assert ((level (user (game tab)) <? unlockLevel chamber) = false) as ->
      by (apply Z.ltb_ge; lia).
    fold n. destruct (n <? Z.of_nat (length (puzzles chamber))) eqn:E.
    + apply Z.ltb_lt in E. split; [|lia]. intros H. exfalso.
      rewrite startPuzzle_run in H. cbn [on_game game set_game chambers
        set_currentChamber] in H. rewrite Hch in H.
      destruct (js_index (puzzles chamber) n) as [p|] eqn:Hp; [|done].
      match type of H with (?m ?t).1 = _ =>
        destruct (show_and_log_cases p
          (VObj [ ("chamber", VStr chamberId); ("puzzle", VNum n);
                  ("difficulty", VStr (difficulty p)) ]) t)
          as (r & tab' & Hrun & _ & _ & _ & [(-> & _)|(e & -> & _)]);
        rewrite Hrun in H; done
      end.
    + apply Z.ltb_ge in E. done.
  - intros [H0 Hlt].
    destruct (lookup_lt_is_Some_2 (puzzles chamber) (Z.to_nat n)) as [p Hp]; [lia|].
    exists p. split; [done|].
    destruct (enterChamber_cases now chamberId tab chamber p Hch Hun)
      as (r & tab' & -> & Hg & _ & _ & Hcases).
    { apply js_index_Some. by split. }
    cbn [fst snd]. split; [done|].
    destruct Hcases as [(-> & _)|(e & -> & Hn & _)].
    + split; [done|by left].
    + split; [tauto|]. right. by exists e.
Qed.

(** C3 as the claim has it fails: ['deductive-reasoning'] is unlocked at
    level 5, nothing in it is completed, its [puzzleCount] is 25, and
    [enterChamber] reports it exhausted. *)
Lemma enterChamber_exhausted_before_puzzleCount :
  ∃ chamber,
    chambers levelFiveGame !! "deductive-reasoning" = Some chamber ∧
    unlockLevel chamber ≤ level (user levelFiveGame) ∧
    completed (progress chamber) = 0 ∧
    puzzleCount chamber = 25 ∧
    (enterChamber 0 "deductive-reasoning" (playing levelFiveGame)).1
      = Ok ChamberExhausted ∧
    ¬ ((enterChamber 0 "deductive-reasoning" (playing levelFiveGame)).1
         = Ok ChamberExhausted ↔
       completed (progress chamber) = puzzleCount chamber).
Proof.
  eexists. split; [vm_compute; reflexivity|].
  split; [vm_compute; discriminate|].
  split; [reflexivity|]. split; [reflexivity|].
  split; [vm_compute; reflexivity|].
  intros [H _]. specialize (H ltac:(vm_compute; reflexivity)). discriminate H.
Qed.

(** [showHint] never reports that the hints have run out: with a live
    attempt it counts one more hint, whatever the count was, and then
    shows a hint or, when the item of the log cannot be extended,
    throws. *)
Lemma showHint_always_counts tab cp :
  currentPuzzle (game tab) = Some cp →
  ∃ shown r tab',
    showHint tab = (r, tab') ∧
    (hintsUsed <$> currentPuzzle (game tab')) = Some (hintsUsed cp + 1) ∧
    (loggable tab → r = Ok (Hint shown)) ∧
    (¬ loggable tab → ∃ e, r = Throw e).
Proof.
  intros Hcp. rewrite showHint_run, Hcp. cbv zeta.
  set (n := Z.of_nat (length (default [] (hints (puzzle cp))))).
  assert ((n <=? Z.min (hintsUsed cp) (n - 1)) = false) as -> by (apply Z.leb_gt; lia).
  set (tab0 := on_game _ tab).
  assert (Hl0 : loggable tab0 ↔ loggable tab) by apply loggable_game.
  exists (js_index (default [] (hints (puzzle cp))) (Z.min (hintsUsed cp) (n - 1))).
  destruct (log_then_cases "hint_used"
              (VObj [ ("chamber", VStr (chamberId cp)); ("puzzle", VNum (puzzleIndex cp));
                      ("hintLevel", VNum (hintsUsed cp + 1)) ])
              (Hint (js_index (default [] (hints (puzzle cp)))
                       (Z.min (hintsUsed cp) (n - 1)))) tab0)
    as (r & tab' & Hrun & Hg & _ & _ & Hcases).
  exists r, tab'. split; [done|]. rewrite Hg. split; [done|].
  destruct Hcases as [(-> & Hl & _)|(e & -> & Hl & _)].
  - split; [done|tauto].
  - split; [tauto|]. intros _. by exists e.
Qed.

(** C4 at a failing input: with all three hints of the puzzle shown,
    one more [showHint] shows the last hint again and counts a fourth. *)
Lemma showHint_past_the_last_hint :
  ∃ tab',
    showHint (playing allHintsShown) = (Ok (Hint (Some "final")), tab') ∧
    (hintsUsed <$> currentPuzzle allHintsShown) = Some 3 ∧
    (hintsUsed <$> currentPuzzle (game tab')) = Some 4 ∧
    Z.of_nat (length threeHints) = 3.
Proof. eexists. split; [vm_compute; reflexivity|]. done. Qed.

(** Scenario D of the specification: the third wrong answer in a row on
    one puzzle ends the streak, and the attempt stays live. *)
Example three_wrong_answers :
  let wrong := checkAnswer 8 8 (Some (ANum 3)) in
  let after2 := (wrong (wrong (playing streakGame)).2).2 in
  let after3 := (wrong after2).2 in
  (wrong after2).1 = Ok Incorrect ∧
  currentStreak (user (game after2)) = 4 ∧
  currentStreak (user (game after3)) = 0 ∧
  (attempts <$> currentPuzzle (game after3)) = Some 3 ∧
  (puzzleIndex <$> currentPuzzle (game after3)) = Some 1.
Proof. vm_compute. done. Qed.

(** Scenario E of the specification. *)
Lemma enterChamber_locked_witness :
  chambers levelThreeGame !! "deductive-reasoning" = Some deductiveReasoning ∧
  level (user levelThreeGame) < unlockLevel deductiveReasoning ∧
  enterChamber 0 "deductive-reasoning" (playing levelThreeGame)
    = (Ok NotUnlocked, playing levelThreeGame).
Proof.
  assert (chambers levelThreeGame !! "deductive-reasoning" = Some deductiveReasoning)
    as H1 by (vm_compute; reflexivity).
  assert (level (user levelThreeGame) < unlockLevel deductiveReasoning)
    as H2 by (vm_compute; reflexivity).
  split; [exact H1|]. split; [exact H2|].
  exact (enterChamber_locked_changes_nothing 0 "deductive-reasoning"
           (playing levelThreeGame) deductiveReasoning H1 H2).
Defined.

Lemma enterChamber_next_unsolved_witness :
  chambers halfDoneGame !! "logical-sequences" = Some halfDone ∧
  unlockLevel halfDone ≤ level (user halfDoneGame) ∧
  0 ≤ completed (progress halfDone) < Z.of_nat (length (puzzles halfDone)) ∧
  ((enterChamber 7 "logical-sequences" (playing halfDoneGame)).1 = Ok ChamberExhausted ↔
     Z.of_nat (length (puzzles halfDone)) ≤ completed (progress halfDone)) ∧
  (enterChamber 7 "logical-sequences" (playing halfDoneGame)).1 = Ok Started.
Proof.
  assert (chambers (game (playing halfDoneGame)) !! "logical-sequences" = Some halfDone)
    as H1 by (vm_compute; reflexivity).
  assert (unlockLevel halfDone ≤ level (user (game (playing halfDoneGame))))
    as H2 by (simpl; lia).
  assert (0 ≤ completed (progress halfDone) < Z.of_nat (length (puzzles halfDone)))
    as H3 by (simpl; lia).
  split; [exact H1|]. split; [exact H2|]. split; [exact H3|].
  destruct (enterChamber_next_unsolved 7 "logical-sequences" (playing halfDoneGame)
              halfDone H1 H2) as [Hex Hstart].
  split; [exact Hex|]. vm_compute. reflexivity.
Defined.

End session.
(** ** Persistence *)

Section persistence.
Import Game.

Lemma value_nested_ind (P : value → Prop) :
  P VUndefined → P VNull → (∀ b, P (VBool b)) → (∀ n, P (VNum n)) →
  (∀ s, P (VStr s)) →
  (∀ items, Forall P items → P (VArr items)) →
  (∀ fields, Forall (λ p, P p.2) fields → P (VObj fields)) →
  ∀ v, P v.
Proof.
  intros Hu Hn Hb Hz Hs Ha Ho.
  fix IH 1. intros [| |b|n|s|items|fields].
  - exact Hu.
  - exact Hn.
  - apply Hb.
  - apply Hz.
  - apply Hs.
  - apply Ha. induction items as [|x items IHi]; constructor; [apply IH|exact IHi].
  - apply Ho. induction fields as [|[k x] fields IHf]; constructor; [apply IH|exact IHf].
Qed.

Lemma jsonify_json v : is_json v = true → jsonify v = v.
Proof.
  induction v as [| | | | |items IH|fields IH] using value_nested_ind; try done.
  - simpl. intros Hj. f_equal.
    induction IH as [|x items Hx _ IHi]; [done|].
    simpl in Hj. apply andb_true_iff in Hj as [Hjx Hji]. simpl.
    rewrite (IHi Hji). f_equal. destruct x; try done; by apply Hx.
  - simpl. intros Hj. f_equal.
    induction IH as [|[k x] fields Hx _ IHf]; [done|].
    simpl in Hj. apply andb_true_iff in Hj as [Hjx Hjf]. simpl in Hx, Hjx.
    rewrite (IHf Hjf). destruct x; try done; by rewrite (Hx Hjx).
Qed.

Lemma is_json_bag (m : gmap string value) :
  map_Forall (λ _ v, is_json v = true) m → is_json (VObj (map_to_list m)) = true.
Proof.
  intros Hm. simpl. apply forallb_forall. intros [k v] Hin.
  apply (Hm k v). apply elem_of_map_to_list. by apply list_elem_of_In.
Qed.

Lemma own_props_bag (m : gmap string value) : own_props (VObj (map_to_list m)) = m.
Proof. apply list_to_map_to_list. Qed.

(** Spreading a bag over defaults it covers gives the bag back. *)
Lemma spread_covering (defaults m : gmap string value) :
  dom defaults ⊆ dom m → spread defaults (VObj (map_to_list m)) = m.
Proof.
  intros Hdom. unfold spread. rewrite own_props_bag. apply map_eq. intros k.
  rewrite lookup_union. destruct (m !! k) as [v|] eqn:Hm.
  - by destruct (defaults !! k).
  - destruct (defaults !! k) as [d|] eqn:Hd; [|done].
    assert (k ∈ dom m) as Hk by (apply Hdom, elem_of_dom; eauto).
    apply elem_of_dom in Hk as [v Hv]. congruence.
Qed.

Lemma entry_key (k v : value) : get_prop (VArr [k; v]) "0" = Ok k.
Proof. unfold get_prop. simpl. by destruct k. Qed.

Lemma entry_value (k v : value) : get_prop (VArr [k; v]) "1" = Ok v.
Proof. unfold get_prop. simpl. by destruct v. Qed.

Lemma get_prop_field data name :
  get_prop data name =
  match data with
  | VUndefined | VNull => Throw TypeError
  | _ => Ok (field data name)
  end.
Proof. by destruct data. Qed.

Lemma get_prop_uniform data name name' v :
  get_prop data name = Ok v → get_prop data name' = Ok (field data name').
Proof. by destruct data. Qed.

Lemma Map_new_in_fuel v : Map_new v ≠ OutOfFuel.
Proof.
  assert (∀ items m, Map_add_entries m items ≠ OutOfFuel) as Hadd.
  { induction items as [|item items IH]; intros m; [done|]. simpl.
    unfold Map_add_entry.
    destruct item as [| | | | |xs|fs]; try done.
    all: rewrite !get_prop_field; simpl; apply IH. }
  destruct v as [| | | |s| |]; simpl; try done.
  by destruct (String.eqb s "").
Qed.

Lemma loadGameData_run pg : loadGameData pg = (Ok tt, loaded pg).
Proof.
  unfold loadGameData, loaded, try_catch. rewrite bind_run. simpl.
  destruct (present (mindforge_save pg)) as [[| |data]|]; try reflexivity.
  assert (get_prop data "user" = Throw TypeError ∨
          ∀ k, get_prop data k = Ok (field data k)) as [Ht|Hok]
    by (destruct data; auto).
  - rewrite Ht. rewrite !bind_run. unfold lift. simpl. by rewrite Ht.
  - rewrite Hok. rewrite bind_run. unfold lift at 1. simpl.
    repeat (rewrite bind_run; unfold lift at 1; rewrite ?Hok; simpl).
    rewrite bind_run. simpl. fold (merged pg data).
    destruct (truthy (field data "chambers")); [|done].
    rewrite bind_run.
    pose proof (Map_new_in_fuel (field data "chambers")).
    by destruct (Map_new (field data "chambers")).
Qed.

Lemma loaded_keeps_storage pg : mindforge_save (loaded pg) = mindforge_save pg.
Proof.
  unfold loaded. repeat case_match; done.
Qed.

Lemma loaded_user pg :
  raw_user (loaded pg) = spread (raw_user pg) (stored_field pg "user").
Proof.
  unfold loaded, stored_field, spread.
  destruct (present (mindforge_save pg)) as [[| |data]|];
    try (simpl; by rewrite map_empty_union).
  destruct data; simpl; repeat case_match; try reflexivity.
  all: unfold field; simpl; rewrite lookup_empty; simpl; by rewrite map_empty_union.
Qed.

Lemma loaded_settings pg :
  raw_settings (loaded pg) = spread (raw_settings pg) (stored_field pg "settings").
Proof.
  unfold loaded, stored_field, spread.
  destruct (present (mindforge_save pg)) as [[| |data]|];
    try (simpl; by rewrite map_empty_union).
  destruct data; simpl; repeat case_match; try reflexivity.
  all: unfold field; simpl; rewrite lookup_empty; simpl; by rewrite map_empty_union.
Qed.

Lemma loaded_chambers pg :
  raw_chambers (loaded pg) =
  if truthy (stored_field pg "chambers") then
    match Map_new (stored_field pg "chambers") with
    | Ok m => m
    | _ => raw_chambers pg
    end
  else raw_chambers pg.
Proof.
  unfold loaded, stored_field.
  destruct (present (mindforge_save pg)) as [[| |data]|]; try done.
  destruct data; try done; repeat case_match; done.
Qed.

(** *** A [Map] built from its own entries *)

Lemma res_bind_ok {A B} (a : A) (k : A → res B) : (Ok a ≫= k) = k a.
Proof. reflexivity. Qed.

Lemma same_value_zero_str k id : same_value_zero k (VStr id) = true ↔ k = VStr id.
Proof.
  destruct k; simpl; try (split; [done|discriminate]).
  rewrite String.eqb_eq. split; congruence.
Qed.

Lemma Map_set_fresh id v m :
  VStr id ∉ m.*1 → Map_set (VStr id) v m = m ++ [(VStr id, v)].
Proof.
  induction m as [|[k' v'] m IH]; [done|]. simpl. intros Hnot.
  apply not_elem_of_cons in Hnot as [Hne Hnot].
  destruct (same_value_zero k' (VStr id)) eqn:E.
  - apply same_value_zero_str in E. congruence.
  - by rewrite IH.
Qed.

Lemma Map_set_keys id v m x :
  x ∈ (Map_set (VStr id) v m).*1 → x ∈ m.*1 ∨ x = VStr id.
Proof.
  induction m as [|[k' v'] m IH]; simpl.
  - rewrite list_elem_of_singleton. auto.
  - destruct (same_value_zero k' (VStr id)); simpl; rewrite !elem_of_cons; [tauto|].
    intros [->|H]; [auto|]. destruct (IH H); auto.
Qed.

Lemma Map_set_distinct id v m : NoDup m.*1 → NoDup (Map_set (VStr id) v m).*1.
Proof.
  induction m as [|[k' v'] m IH]; simpl.
  - intros _. apply NoDup_singleton.
  - rewrite NoDup_cons. intros [Hk Hm].
    destruct (same_value_zero k' (VStr id)) eqn:E; simpl; rewrite NoDup_cons.
    + done.
    + split; [|by apply IH]. intros Hin.
      apply Map_set_keys in Hin as [Hin| ->]; [done|].
      assert (same_value_zero (VStr id) (VStr id) = true) by by apply same_value_zero_str.
      congruence.
Qed.

Lemma Map_set_json id v m :
  is_json v = true →
  Forall (λ e, (∃ id, e.1 = VStr id) ∧ is_json e.2 = true) m →
  Forall (λ e, (∃ id, e.1 = VStr id) ∧ is_json e.2 = true) (Map_set (VStr id) v m).
Proof.
  intros Hv. induction m as [|[k' v'] m IH]; simpl; intros Hm.
  - constructor; [|done]. simpl. eauto.
  - apply Forall_cons in Hm as [[Hk Hv'] Hm].
    destruct (same_value_zero k' (VStr id)); constructor; auto.
Qed.

Lemma Map_add_own_entries m acc :
  Forall (λ e, (∃ id, e.1 = VStr id) ∧ is_json e.2 = true) m →
  NoDup (acc ++ m).*1 →
  Map_add_entries acc (map (λ e, VArr [e.1; e.2]) m) = Ok (acc ++ m).
Proof.
  revert acc. induction m as [|[k v] m IH]; intros acc Hm Hnd.
  - simpl. by rewrite app_nil_r.
  - apply Forall_cons in Hm as [[[id Hid] _] Hm]. simpl in Hid. subst k.
    cbn [map Map_add_entries fst snd]. unfold Map_add_entry.
    rewrite entry_key, entry_value, !res_bind_ok.
    assert (VStr id ∉ acc.*1) as Hfresh.
    { rewrite fmap_app in Hnd. apply NoDup_app in Hnd as (_ & Hnd & _).
      intros Hin. apply (Hnd _ Hin). simpl. left. }
    rewrite (Map_set_fresh _ _ _ Hfresh).
    rewrite IH; [by rewrite <- app_assoc|done|by rewrite <- app_assoc].
Qed.

Lemma Map_new_own_entries m :
  Forall (λ e, (∃ id, e.1 = VStr id) ∧ is_json e.2 = true) m →
  NoDup m.*1 →
  Map_new (Map_entries m) = Ok m.
Proof. intros Hm Hnd. simpl. by rewrite (Map_add_own_entries m []). Qed.

Lemma is_json_entries m :
  Forall (λ e, (∃ id, e.1 = VStr id) ∧ is_json e.2 = true) m →
  is_json (Map_entries m) = true.
Proof.
  intros Hm. simpl. apply forallb_forall. intros x Hin.
  apply in_map_iff in Hin as ([k v] & <- & Hin).
  rewrite Forall_forall in Hm. apply list_elem_of_In in Hin.
  destruct (Hm _ Hin) as [[id Hid] Hv]. simpl in *. subst k. by rewrite Hv.
Qed.

(** *** Saving, then loading in a new instance *)

Lemma saveGameData_run now pg :
  saveGameData now pg =
  (Ok tt, set_mindforge_save (Some (JSON_stringify (saveData now pg))) pg).
Proof. reflexivity. Qed.

Lemma is_json_saveData now pg : persistable pg → is_json (saveData now pg) = true.
Proof.
  intros [? Hu ? Hs ? Hc]. unfold saveData.
  change (is_json (VObj ?l)) with (forallb (λ p, is_json p.2) l).
  cbn [forallb snd].
  rewrite (is_json_bag _ Hu), (is_json_bag _ Hs), (is_json_entries _ Hc). done.
Qed.

Lemma field_saveData now pg :
  field (saveData now pg) "user" = VObj (map_to_list (raw_user pg)) ∧
  field (saveData now pg) "settings" = VObj (map_to_list (raw_settings pg)) ∧
  field (saveData now pg) "chambers" = Map_entries (raw_chambers pg).
Proof.
  unfold field, saveData. cbn [own_props list_to_map foldr uncurry].
  repeat split.
Qed.

Lemma load_own_blob now pg :
  persistable pg →
  let stored := Some (JSON_stringify (saveData now pg)) in
  loaded (constructorPage stored) =
  {| raw_user := raw_user pg; raw_settings := raw_settings pg;
     raw_chambers := raw_chambers pg; mindforge_save := stored |}.
Proof.
  intros Hp stored. pose proof Hp as [Hud Hu Hsd Hs Hcd Hc].
  unfold loaded, stored, JSON_stringify.
  rewrite (jsonify_json _ (is_json_saveData now pg Hp)).
  change (present (mindforge_save (constructorPage ?x))) with (present x).
  cbn [present]. change (get_prop (saveData now pg) "user") with
    (Ok (field (saveData now pg) "user") : res value).
  unfold merged.
  destruct (field_saveData now pg) as (-> & -> & ->).
  change (truthy (Map_entries _)) with true. cbv iota.
  rewrite (Map_new_own_entries _ Hc Hcd).
  unfold set_raw_chambers, set_raw_settings, set_raw_user. cbn [raw_user raw_settings
    raw_chambers mindforge_save constructorPage].
  by rewrite !spread_covering.
Qed.

(** *** What holds of every reachable page *)

Lemma is_json_defaults :
  map_Forall (λ _ v, is_json v = true) (raw_of_user freshUser) ∧
  map_Forall (λ _ v, is_json v = true) (raw_of_settings defaultSettings).
Proof.
  split; unfold raw_of_user, raw_of_settings; cbn [list_to_map foldr uncurry].
  all: repeat (apply map_Forall_insert_2; [done|]); apply map_Forall_empty.
Qed.

Lemma persistable_first stored : persistable (constructorPage stored).
Proof.
  destruct is_json_defaults. split; simpl; try done. constructor.
Qed.

Lemma persistable_components pg pg' :
  raw_user pg' = raw_user pg → raw_settings pg' = raw_settings pg →
  raw_chambers pg' = raw_chambers pg → persistable pg → persistable pg'.
Proof. intros Hu Hs Hc [? ? ? ? ? ?]. split; by rewrite ?Hu, ?Hs, ?Hc. Qed.

Lemma reachable_persistable pg :
  reachable pg → persistable pg ∧ own_blob (mindforge_save pg).
Proof.
  induction 1 as [|pg k v _ [IH Hb] Hv|pg k v _ [IH Hb] Hv|pg id v _ [IH Hb] Hv
                 |pg now _ [IH Hb]|pg _ [IH Hb]].
  - split; [apply persistable_first|by left].
  - split; [|done]. destruct IH. split; simpl; try done.
    + etrans; [done|]. apply dom_insert_subseteq.
    + by apply map_Forall_insert_2.
  - split; [|done]. destruct IH. split; simpl; try done.
    + etrans; [done|]. apply dom_insert_subseteq.
    + by apply map_Forall_insert_2.
  - split; [|done]. destruct IH. split; simpl; try done.
    + by apply Map_set_distinct.
    + by apply Map_set_json.
  - rewrite saveGameData_run. simpl. split.
    + by apply (persistable_components pg).
    + right. eauto.
  - rewrite loadGameData_run. simpl. destruct Hb as [->|(pg0 & now & Hp0 & ->)].
    + split; [apply persistable_first|by left].
    + rewrite (load_own_blob now pg0 Hp0). split.
      * by apply (persistable_components pg0).
      * right. eauto.
Qed.

Lemma union_covering (defaults m : gmap string value) :
  dom defaults ⊆ dom m → m ∪ defaults = m.
Proof.
  intros Hdom. apply map_eq. intros k.
  rewrite lookup_union. destruct (m !! k) as [v|] eqn:Hm.
  - by destruct (defaults !! k).
  - destruct (defaults !! k) as [d|] eqn:Hd; [|done].
    assert (k ∈ dom m) as Hk by (apply Hdom, elem_of_dom; eauto).
    apply elem_of_dom in Hk as [v Hv]. congruence.
Qed.

Lemma assign_all (l : list (string * value)) (m : gmap string value) :
  foldr (λ kv acc, <[kv.1 := kv.2]> acc) m l = list_to_map l ∪ m.
Proof.
  induction l as [|[k v] l IH]; simpl; [by rewrite map_empty_union|].
  by rewrite IH, insert_union_l.
Qed.

Lemma reach_user_all pg (l : list (string * value)) :
  reachable pg → Forall (λ kv, is_json kv.2 = true) l →
  reachable (set_raw_user (foldr (λ kv acc, <[kv.1 := kv.2]> acc) (raw_user pg) l) pg).
Proof.
  intros Hr. induction 1 as [|[k v] l Hv _ IH]; simpl.
  - by destruct pg.
  - apply (reach_user _ k v) in IH; done.
Qed.

Lemma reach_settings_all pg (l : list (string * value)) :
  reachable pg → Forall (λ kv, is_json kv.2 = true) l →
  reachable
    (set_raw_settings (foldr (λ kv acc, <[kv.1 := kv.2]> acc) (raw_settings pg) l) pg).
Proof.
  intros Hr. induction 1 as [|[k v] l Hv _ IH]; simpl.
  - by destruct pg.
  - apply (reach_settings _ k v) in IH; done.
Qed.

Lemma is_json_strings (l : list string) : is_json (VArr (VStr <$> l)) = true.
Proof. simpl. induction l; simpl; auto. Qed.

(** Every profile, with every settings record and every collection of
    chamber objects under distinct ids, is a reachable state. *)
Lemma progressPage_reachable u st cs :
  NoDup cs.*1 → Forall (λ c, is_json c.2 = true) cs →
  reachable (progressPage u st cs).
Proof.
  induction cs as [|c cs IH] using rev_ind; intros Hnd Hjs.
  - pose proof (reach_user_all (constructorPage None)
      [ ("level", VNum (level u)); ("xp", VNum (xp u)); ("xpToNext", VNum (xpToNext u));
        ("totalSolved", VNum (totalSolved u)); ("currentStreak", VNum (currentStreak u));
        ("chambersUnlocked", VNum (chambersUnlocked u));
        ("achievements", VArr (VStr <$> achievements u)) ] reach_first) as Hu.
    rewrite assign_all in Hu. fold (raw_of_user u) in Hu.
    rewrite union_covering in Hu by (simpl; unfold raw_of_user; simpl; set_solver).
    specialize (Hu ltac:(repeat constructor; try done; apply is_json_strings)).
    apply (reach_settings_all _
      [ ("soundEffects", VBool (soundEffects st)); ("autoHints", VBool (autoHints st));
        ("highContrast", VBool (highContrast st));
        ("reducedMotion", VBool (reducedMotion st)); ("fontSize", VStr (fontSize st)) ])
      in Hu; [|by repeat constructor].
    rewrite assign_all in Hu. fold (raw_of_settings st) in Hu.
    rewrite union_covering in Hu by (simpl; unfold raw_of_settings; simpl; set_solver).
    exact Hu.
  - rewrite fmap_app in Hnd. apply NoDup_app in Hnd as (Hnd & Hfresh & _).
    apply Forall_app in Hjs as [Hjs Hc]. rewrite Forall_singleton in Hc.
    specialize (IH Hnd Hjs).
    apply (reach_chamber _ c.1 c.2) in IH; [|exact Hc].
    rewrite Map_set_fresh in IH.
    + unfold progressPage. rewrite fmap_app. exact IH.
    + simpl. rewrite <- list_fmap_compose. intros Hin.
      apply list_elem_of_fmap in Hin as (c' & Heq & Hin). simpl in Heq.
      injection Heq as Heq.
      apply (Hfresh c.1); [|simpl; left].
      apply list_elem_of_fmap. exists c'. by rewrite Heq.
Qed.

(** C5. For every reachable state of the profile, the settings and the
    chamber collection, saving it and loading the saved blob in a new
    instance gives the same profile, settings and chamber collection. *)
Theorem saved_state_loads_back pg now :
  reachable pg →
  ∃ saved restored,
    saveGameData now pg = (Ok tt, saved) ∧
    loadGameData (constructorPage (mindforge_save saved)) = (Ok tt, restored) ∧
    raw_user restored = raw_user pg ∧
    raw_settings restored = raw_settings pg ∧
    raw_chambers restored = raw_chambers pg.
Proof.
  intros Hr. apply reachable_persistable in Hr as [Hp _].
  eexists _, _. split; [apply saveGameData_run|].
  rewrite loadGameData_run. split; [reflexivity|].
  cbn [mindforge_save set_mindforge_save]. by rewrite (load_own_blob now pg Hp).
Qed.

(** C8. Whatever [localStorage] holds, [loadGameData] returns: a
    property that the stored [user] or [settings] lacks keeps the value
    it had, one that it has takes the stored value; the chambers stay
    as they were unless the stored ones are there and make a [Map]; and
    with nothing stored, or a blob that does not parse, or the blob
    [null], the whole state is as it was, which for a new instance is
    the default profile. *)
Theorem loadGameData_falls_back_to_defaults pg :
  ∃ pg',
    loadGameData pg = (Ok tt, pg') ∧
    mindforge_save pg' = mindforge_save pg ∧
    (∀ k, own_props (stored_field pg "user") !! k = None →
       raw_user pg' !! k = raw_user pg !! k) ∧
    (∀ k v, own_props (stored_field pg "user") !! k = Some v →
       raw_user pg' !! k = Some v) ∧
    (∀ k, own_props (stored_field pg "settings") !! k = None →
       raw_settings pg' !! k = raw_settings pg !! k) ∧
    (∀ k v, own_props (stored_field pg "settings") !! k = Some v →
       raw_settings pg' !! k = Some v) ∧
    (∀ m, truthy (stored_field pg "chambers") = true →
       Map_new (stored_field pg "chambers") = Ok m → raw_chambers pg' = m) ∧
    (truthy (stored_field pg "chambers") = false ∨
     (∃ e, Map_new (stored_field pg "chambers") = Throw e) →
       raw_chambers pg' = raw_chambers pg) ∧
    (present (mindforge_save pg) = None ∨ mindforge_save pg = Some Unparseable ∨
     mindforge_save pg = Some (Json VNull) → pg' = pg) ∧
    loadGameData (constructorPage (Some Unparseable)) =
      (Ok tt, constructorPage (Some Unparseable)).
Proof.
  exists (loaded pg). split; [apply loadGameData_run|].
  split; [apply loaded_keeps_storage|].
  rewrite loaded_user, loaded_settings, loaded_chambers. unfold spread.
  repeat split.
  - intros k Hk. by rewrite lookup_union_r.
  - intros k v Hk. by erewrite lookup_union_Some_l.
  - intros k Hk. by rewrite lookup_union_r.
  - intros k v Hk. by erewrite lookup_union_Some_l.
  - intros m -> ->. done.
  - intros [->|[e ->]]; [done|]. by case_match.
  - unfold loaded. intros [->|[->| ->]]; done.
Qed.

Lemma saved_state_witness :
  reachable playedPage ∧
  ∃ saved restored,
    saveGameData 1700000000000 playedPage = (Ok tt, saved) ∧
    loadGameData (constructorPage (mindforge_save saved)) = (Ok tt, restored) ∧
    raw_user restored = raw_user playedPage ∧
    raw_settings restored = raw_settings playedPage ∧
    raw_chambers restored = raw_chambers playedPage.
Proof.
  assert (reachable playedPage) as H.
  { apply reach_chamber; [|reflexivity]. apply reach_user; [|reflexivity].
    apply reach_first. }
  split; [exact H|]. exact (saved_state_loads_back playedPage 1700000000000 H).
Defined.

Lemma loadGameData_partial_witness :
  own_props (stored_field (constructorPage (Some (Json partialBlob))) "user") !! "level"
    = None ∧
  ∃ pg', loadGameData (constructorPage (Some (Json partialBlob))) = (Ok tt, pg') ∧
    raw_user pg' !! "level" = Some (VNum 1) ∧
    raw_user pg' !! "xp" = Some (VNum 42) ∧
    raw_chambers pg' = [].
Proof.
  assert (own_props (stored_field (constructorPage (Some (Json partialBlob))) "user")
            !! "level" = None) as H1 by (vm_compute; reflexivity).
  assert (own_props (stored_field (constructorPage (Some (Json partialBlob))) "user")
            !! "xp" = Some (VNum 42)) as H2 by (vm_compute; reflexivity).
  assert (∃ e, Map_new (stored_field (constructorPage (Some (Json partialBlob)))
                          "chambers") = Throw e) as H3 by (by exists TypeError).
  split; [exact H1|].
  destruct (loadGameData_falls_back_to_defaults (constructorPage (Some (Json partialBlob))))
    as (pg' & Hrun & _ & Hmiss & Hhas & _ & _ & _ & Hch & _).
  exists pg'. split; [exact Hrun|]. split; [|split].
  - rewrite (Hmiss _ H1). vm_compute. reflexivity.
  - exact (Hhas _ _ H2).
  - rewrite (Hch (or_intror H3)). reflexivity.
Defined.

End persistence.

(** ** The bundle *)

(** C9. The class of the bundle and the class of [src/js/core/game.js]
    give, for every input and every state of the tab or of the page, the
    same result and the same state, in each of [enterChamber], [checkAnswer], [showHint],
    [resetPuzzle], [nextPuzzle], [addXP], [saveGameData] and
    [loadGameData]. *)
Theorem bundle_agrees_with_core :
  (∀ now chamberId tab,
     Bundle.enterChamber now chamberId tab = Game.enterChamber now chamberId tab) ∧
  (∀ now later userAnswer tab,
     Bundle.checkAnswer now later userAnswer tab =
     Game.checkAnswer now later userAnswer tab) ∧
  (∀ tab, Bundle.showHint tab = Game.showHint tab) ∧
  (∀ now gs, Bundle.resetPuzzle now gs = Game.resetPuzzle now gs) ∧
  (∀ now tab, Bundle.nextPuzzle now tab = Game.nextPuzzle now tab) ∧
  (∀ amount tab, Bundle.addXP amount tab = Game.addXP amount tab) ∧
  (∀ now pg, Bundle.saveGameData now pg = Game.saveGameData now pg) ∧
  (∀ pg, Bundle.loadGameData pg = Game.loadGameData pg).
Proof. repeat split. Qed.



(** * Further properties *)

(** ** Progression engine *)

Section progression_more.
Import Game.

(** X1. From level 1 on, the threshold of the next level is at least 10
    above the threshold of the level: thresholds grow strictly. *)
Theorem threshold_grows lvl :
  1 ≤ lvl →
  calculateXPForNextLevel lvl + 10 ≤ calculateXPForNextLevel (lvl + 1).
Proof.
  intros Hl. pose proof (threshold_ge_100 lvl Hl) as H100.
  unfold calculateXPForNextLevel in *.
  assert ((1 <=? lvl) = true) as E1 by (apply Z.leb_le; lia).
  assert ((1 <=? lvl + 1) = true) as E2 by (apply Z.leb_le; lia).
  rewrite E1 in *. rewrite E2.
  replace (lvl + 1 - 1) with (Z.succ (lvl - 1)) by lia.
  rewrite !Z.pow_succ_r by lia.
  set (A := 11 ^ (lvl - 1)) in *. set (B := 10 ^ (lvl - 1)) in *.
  assert (0 < B) as HB by (apply Z.pow_pos_nonneg; lia).
  set (q := (100 * A) `div` B) in *.
  assert (B * q ≤ 100 * A) as Hq by (apply Z.mul_div_le; lia).
  assert (10 * (q `div` 10) ≤ q) as Hq10 by (apply Z.mul_div_le; lia).
  assert (10 ≤ q `div` 10) as Hten by (apply Z.div_le_lower_bound; lia).
  transitivity (q + q `div` 10); [lia|].
  apply Z.div_le_lower_bound; [lia|]. nia.
Qed.

Lemma threshold_grows_witness :
  1 ≤ 1 ∧ calculateXPForNextLevel 1 + 10 ≤ calculateXPForNextLevel (1 + 1).
Proof.
  assert (1 ≤ 1) as H by lia.
  split; [exact H|]. exact (threshold_grows 1 H).
Defined.

(** *** The loop, pass by pass *)









(** What [n] passes do to the fields. *)
Lemma passes_frame n gs :
  let gs' := Nat.iter n crossing gs in
  currentChamber gs' = currentChamber gs ∧ currentPuzzle gs' = currentPuzzle gs ∧
  settings gs' = settings gs ∧ chambers gs' = chambers gs ∧
  analytics gs' = analytics gs ∧
  totalSolved (user gs') = totalSolved (user gs) ∧
  currentStreak (user gs') = currentStreak (user gs) ∧
  achievements (user gs') = achievements (user gs) ∧
  level (user gs') = level (user gs) + Z.of_nat n.
Proof.
  induction n as [|n IH]; simpl; [repeat split; lia|].
  destruct IH as (-> & -> & -> & -> & -> & -> & -> & -> & Hl).
  repeat split. lia.
Qed.



(** *** What a pass keeps *)

Lemma lifetimeXP_crossing gs :
  1 ≤ level (user gs) → settled gs →
  lifetimeXP (user (crossing gs)) = lifetimeXP (user gs).
Proof.
  unfold settled, lifetimeXP. intros Hl Hs. simpl.
  replace (level (user gs) + 1 - 1) with ((level (user gs) - 1) + 1) by lia.
  rewrite seqZ_app by lia. rewrite fmap_app, foldr_app.
  replace (1 + (level (user gs) - 1)) with (level (user gs)) by lia.
  change (seqZ (level (user gs)) 1) with [level (user gs)].
  cbn [fmap list_fmap foldr]. rewrite Z.add_0_r.
  assert (∀ l c x, foldr Z.add (c + x) l = foldr Z.add x l + c) as Hsum.
  { induction l as [|y l IH]; intros c x; simpl; [lia|]. rewrite IH. lia. }
  replace (calculateXPForNextLevel (level (user gs)))
    with (calculateXPForNextLevel (level (user gs)) + 0) at 1 by lia.
  rewrite Hsum. lia.
Qed.

Lemma passes_settled n gs :
  1 ≤ level (user gs) → settled gs →
  settled (Nat.iter n crossing gs) ∧
  lifetimeXP (user (Nat.iter n crossing gs)) = lifetimeXP (user gs).
Proof.
  intros Hl Hs. induction n as [|n [IHs IHx]]; [done|].
  rewrite Nat.iter_succ. split; [apply crossing_settled|].
  rewrite lifetimeXP_crossing; [done| |done].
  pose proof (passes_frame n gs) as (_ & _ & _ & _ & _ & _ & _ & _ & Hlev).
  simpl in Hlev. lia.
Qed.

(** The game that a call of [addXP] leaves, whatever its result. *)
Lemma addXP_game amount tab :
  ∃ (n : nat) r tab',
    addXP amount tab = (r, tab') ∧
    game tab' = Nat.iter n crossing (credited amount (game tab)) ∧
    (∀ i : nat, (i < n)%nat →
       levelUpDue (Nat.iter i crossing (credited amount (game tab))) = true) ∧
    document tab' = document tab ∧ Date_now tab' = Date_now tab ∧
    (r = Ok tt → levelUpDue (game tab') = false) ∧
    (r = Ok tt ∨ ∃ e, r = Throw e ∧ ¬ loggable tab) ∧
    (loggable tab → r = Ok tt ∧ loggable tab').
Proof.
  destruct (addXP_cases amount tab)
    as (n & r & tab' & Hrun & -> & Hdue & Hres & Hlog & _).
  exists n, r, (Nat.iter n pass (credit amount tab)). split; [done|].
  split; [by rewrite passes_game|]. split; [done|].
  destruct (passes_document n (credit amount tab)) as [Hd Hc].
  split; [done|]. split; [done|]. split.
  - intros ->. destruct Hres as [[_ H]|(e & ? & _)]; done.
  - split; [|done]. destruct Hres as [[-> _]|(e & -> & Hl & _)]; [by left|].
    right. by exists e.
Qed.

(** X3. From a profile at level 1 or above whose threshold is the one of
    its level, [addXP] raises the lifetime experience, which is the
    experience held plus the thresholds of the levels passed, by exactly
    the amount: levelling up loses and creates no experience.  This holds
    of the profile the call leaves whether it returns, as it does when
    the item of the log can be extended, or throws. *)
Theorem addXP_conserves_experience tab amount :
  1 ≤ level (user (game tab)) →
  xpToNext (user (game tab)) = calculateXPForNextLevel (level (user (game tab))) →
  ∃ r tab', addXP amount tab = (r, tab') ∧
    lifetimeXP (user (game tab')) = lifetimeXP (user (game tab)) + amount ∧
    (loggable tab → r = Ok tt).
Proof.
  intros Hl Hs.
  destruct (addXP_game amount tab)
    as (n & r & tab' & Hrun & Hg & _ & _ & _ & _ & _ & Hlog).
  exists r, tab'. split; [done|]. split; [|by intros H; destruct (Hlog H)].
  rewrite Hg.
  destruct (passes_settled n (credited amount (game tab))) as [_ ->]; [done|done|].
  unfold lifetimeXP. simpl. lia.
Qed.

Lemma addXP_conserves_experience_witness :
  1 ≤ level (user startedGame) ∧
  xpToNext (user startedGame) = calculateXPForNextLevel (level (user startedGame)) ∧
  ∃ r tab', addXP 500 (playing startedGame) = (r, tab') ∧
    lifetimeXP (user (game tab')) = lifetimeXP (user startedGame) + 500 ∧
    (loggable (playing startedGame) → r = Ok tt).
Proof.
  assert (1 ≤ level (user startedGame)) as H1 by (vm_compute; discriminate).
  assert (xpToNext (user startedGame) =
          calculateXPForNextLevel (level (user startedGame))) as H2 by reflexivity.
  split; [exact H1|]. split; [exact H2|].
  exact (addXP_conserves_experience (playing startedGame) 500 H1 H2).
Defined.

Lemma addXP_sound tab amount :
  sound_profile (user (game tab)) → 0 ≤ amount →
  ∃ r tab', addXP amount tab = (r, tab') ∧
    (r = Ok tt → sound_profile (user (game tab'))) ∧
    level (user (game tab)) ≤ level (user (game tab')) ∧
    (r = Ok tt ∨ ∃ e, r = Throw e ∧ ¬ loggable tab) ∧
    (loggable tab → r = Ok tt ∧ loggable tab').
Proof.
  intros (Hl & Hx & Hs) Ha.
  destruct (addXP_game amount tab)
    as (n & r & tab' & Hrun & Hg & Hdue & _ & _ & Hstop & Hres & Hlog).
  exists r, tab'. split; [done|].
  assert (∀ i : nat, (i ≤ n)%nat →
            0 ≤ xp (user (Nat.iter i crossing (credited amount (game tab))))) as Hxp.
  { induction i as [|i IH]; intros Hi; simpl; [lia|].
    specialize (Hdue i ltac:(lia)). unfold levelUpDue in Hdue.
    apply Z.leb_le in Hdue. lia. }
  destruct (passes_settled n (credited amount (game tab))) as [Hset _]; [done|done|].
  pose proof (passes_frame n (credited amount (game tab)))
    as (_ & _ & _ & _ & _ & _ & _ & _ & Hlev).
  simpl in Hlev, Hset. specialize (Hxp n ltac:(lia)).
  split; [|split; [rewrite Hg; lia|done]].
  intros Hr. specialize (Hstop Hr). rewrite Hg in *.
  unfold levelUpDue in Hstop. apply Z.leb_gt in Hstop.
  split; [lia|]. split; [lia|]. exact Hset.
Qed.

(** X4. Awarding a non-negative amount to a sound profile (level at least
    1, experience from 0 up to below the threshold, the threshold that of
    the level) leaves, whenever [addXP] returns, a sound profile; the
    level is not lower, whatever the result; and [addXP] returns unless
    the item of the log cannot be extended: when it can be, it still can
    be afterwards. *)
Theorem addXP_keeps_profile_sound tab amount :
  sound_profile (user (game tab)) → 0 ≤ amount →
  ∃ r tab', addXP amount tab = (r, tab') ∧
    (r = Ok tt → sound_profile (user (game tab'))) ∧
    level (user (game tab)) ≤ level (user (game tab')) ∧
    (r = Ok tt ∨ ∃ e, r = Throw e ∧ ¬ loggable tab) ∧
    (loggable tab → r = Ok tt ∧ loggable tab').
Proof. apply addXP_sound. Qed.

Lemma addXP_keeps_profile_sound_witness :
  sound_profile (user startedGame) ∧ 0 ≤ 500 ∧
  ∃ tab', addXP 500 (playing startedGame) = (Ok tt, tab') ∧
    sound_profile (user (game tab')) ∧
    level (user startedGame) ≤ level (user (game tab')).
Proof.
  assert (sound_profile (user (game (playing startedGame)))) as H1.
  { split; [vm_compute; discriminate|]. split; [|reflexivity].
    split; [vm_compute; discriminate|vm_compute; reflexivity]. }
  assert (0 ≤ 500) as H2 by lia.
  split; [exact H1|]. split; [exact H2|].
  destruct (addXP_keeps_profile_sound (playing startedGame) 500 H1 H2)
    as (r & tab' & Hrun & Hsound & Hlev & _ & Hlog).
  destruct Hlog as [-> _]; [by eexists|].
  exists tab'. split; [exact Hrun|]. split; [by apply Hsound|exact Hlev].
Defined.



End progression_more.

(** ** Session controller *)

Section session_more.
Import Game.

(** *** The unlocked count *)

Lemma unlocked_fold lvl (m : gmap string Chamber) :
  map_fold (λ _ chamber n, if unlockLevel chamber <=? lvl then n + 1 else n) 0 m =
  Z.of_nat (size (unlockedAt lvl m)).
Proof.
  apply (map_fold_weak_ind (λ r m, r = Z.of_nat (size (unlockedAt lvl m)))).
  - unfold unlockedAt. by rewrite map_filter_empty, map_size_empty.
  - intros i x m' r Hi ->. unfold unlockedAt.
    destruct (unlockLevel x <=? lvl) eqn:E.
    + apply Z.leb_le in E. rewrite map_filter_insert_True by done.
      rewrite map_size_insert_None; [lia|].
      apply map_lookup_filter_None. by left.
    + apply Z.leb_gt in E. rewrite map_filter_insert_not'; [done|simpl; lia|].
      intros y Hy. congruence.
Qed.

(** X6. [updateUnlockedChambers] sets the unlocked count to the number of
    chambers whose unlock level the user has reached, which lies between 0
    and the number of chambers and does not fall when the level rises; it
    changes nothing else, and a second call changes nothing at all.  It is
    the count that a call of [addXP] leaves whenever the level has
    changed, whether the call returns or throws. *)
Theorem updateUnlockedChambers_counts gs :
  ∃ gs',
    updateUnlockedChambers gs = (Ok tt, gs') ∧
    gs' = set_user
            (set_chambersUnlocked
               (Z.of_nat (size (unlockedAt (level (user gs)) (chambers gs)))) (user gs))
            gs ∧
    0 ≤ chambersUnlocked (user gs') ≤ Z.of_nat (size (chambers gs)) ∧
    updateUnlockedChambers gs' = (Ok tt, gs') ∧
    (∀ lvl, level (user gs) ≤ lvl →
       (size (unlockedAt (level (user gs)) (chambers gs)) ≤
        size (unlockedAt lvl (chambers gs)))%nat) ∧
    (∀ amount tab r tab2, game tab = gs → addXP amount tab = (r, tab2) →
       level (user (game tab2)) ≠ level (user gs) →
       chambersUnlocked (user (game tab2)) =
         Z.of_nat (size (unlockedAt (level (user (game tab2))) (chambers (game tab2))))).
Proof.
  exists (updateUnlockedChambers gs).2. split; [reflexivity|].
  assert (∀ g : GameState,
    (updateUnlockedChambers g).2 =
    set_user (set_chambersUnlocked
                (Z.of_nat (size (unlockedAt (level (user g)) (chambers g)))) (user g)) g)
    as Hupd.
  { intros g. unfold updateUnlockedChambers. rewrite bind_run. simpl.
    by rewrite unlocked_fold. }
  split; [apply Hupd|]. rewrite Hupd. split; [|split; [|split]].
  - simpl. split; [lia|]. apply Nat2Z.inj_le, map_subseteq_size, map_filter_subseteq.
  - rewrite <- Hupd at 2. reflexivity.
  - intros lvl Hlvl. apply map_subseteq_size, map_filter_subseteq_ext.
    intros i x _. simpl. lia.
  - intros amount tab r tab2 <- Hrun Hne.
    destruct (addXP_game amount tab) as (n & r' & tab' & Hrun' & Hg & _).
    rewrite Hrun in Hrun'. injection Hrun' as <- <-. rewrite Hg in *.
    pose proof (passes_frame n (credited amount (game tab)))
      as (_ & _ & _ & Hch & _ & _ & _ & _ & Hlev).
    destruct n as [|n]; [simpl in Hne; done|].
    rewrite Nat.iter_succ in *. simpl. rewrite unlocked_fold. done.
Qed.

(** *** Results *)

Lemma logged_intro {A} tab (o : A) r :
  (r = Ok o ∧ loggable tab) ∨ (∃ e, r = Throw e ∧ ¬ loggable tab) →
  logged tab o r.
Proof.
  intros [[-> Hl]|(e & -> & Hl)]; (split; [|split]); try done.
  - by left.
  - right. by exists e.
Qed.

Lemma started_intro tab p r :
  (r = Ok Started ∧ renders tab p ∧ loggable tab) ∨
  (∃ e, r = Throw e ∧ (¬ renders tab p ∨ ¬ loggable tab)) →
  started tab p r.
Proof.
  intros [(-> & Hr & Hl)|(e & -> & Hl)]; (split; [|split]); try done.
  - by left.
  - right. by exists e.
  - tauto.
Qed.

Lemma logged_frame {A} tab tab0 (o : A) r :
  (loggable tab0 ↔ loggable tab) → logged tab0 o r → logged tab o r.
Proof. unfold logged. tauto. Qed.

Lemma started_frame tab tab0 p r :
  document tab0 = document tab → (loggable tab0 ↔ loggable tab) →
  started tab0 p r → started tab p r.
Proof.
  intros Hd Hl. pose proof (renders_document tab tab0 p Hd). unfold started. tauto.
Qed.

(** [enterChamber] when it goes on to start a puzzle, in short. *)
Lemma enterChamber_starts now id tab chamber p :
  chambers (game tab) !! id = Some chamber →
  unlockLevel chamber ≤ level (user (game tab)) →
  js_index (puzzles chamber) (completed (progress chamber)) = Some p →
  ∃ r tab',
    enterChamber now id tab = (r, tab') ∧
    game tab' =
      set_currentPuzzle (Some (attemptOn now id (completed (progress chamber)) p))
        (set_currentChamber (Some id) (game tab)) ∧
    document tab' = document tab ∧ Date_now tab' = Date_now tab ∧
    (loggable tab' ↔ loggable tab) ∧
    started tab p r.
Proof.
  intros Hch Hun Hp.
  destruct (enterChamber_cases now id tab chamber p Hch Hun Hp)
    as (r & tab' & Hrun & Hg & Hd & Hc & Hcases).
  exists r, tab'. split_and!; try done.
  - destruct Hcases as [(_ & _ & ? & ?)|(e & _ & _ & Hm)]; [tauto|].
    unfold loggable. by rewrite Hm.
  - apply started_intro.
    destruct Hcases as [(-> & ? & ? & _)|(e & -> & ? & _)]; [by left|].
    right. by exists e.
Qed.

(** *** Entering and starting *)

(** X7. [enterChamber] reports one of four things, or throws.  An
    unknown chamber is reported as not unlocked; the profile, the
    chambers, the settings, the analytics and the document never change;
    a refusal as not unlocked changes nothing, every other result leaves
    the chamber as the current one; the attempt in progress stays when
    the chamber is reported exhausted or the puzzle not found.  In the
    remaining case a new attempt on the puzzle at index [completed] has
    replaced it, and the start is reported when the document shows the
    puzzle and the item of the log can be extended; the call throws
    otherwise, and only then. *)
Theorem enterChamber_reports now chamberId tab :
  ∃ r tab',
    enterChamber now chamberId tab = (r, tab') ∧
    (chambers (game tab) !! chamberId = None → r = Ok NotUnlocked) ∧
    user (game tab') = user (game tab) ∧ chambers (game tab') = chambers (game tab) ∧
    settings (game tab') = settings (game tab) ∧
    analytics (game tab') = analytics (game tab) ∧
    document tab' = document tab ∧
    (r = Ok NotUnlocked → tab' = tab) ∧
    (r ≠ Ok NotUnlocked → currentChamber (game tab') = Some chamberId) ∧
    ((r = Ok NotUnlocked ∨ r = Ok ChamberExhausted ∨ r = Ok PuzzleNotFound) ∧
     currentPuzzle (game tab') = currentPuzzle (game tab) ∧
     mindforge_analytics tab' = mindforge_analytics tab
     ∨
     ∃ chamber p,
       chambers (game tab) !! chamberId = Some chamber ∧
       puzzles chamber !! Z.to_nat (completed (progress chamber)) = Some p ∧
       currentPuzzle (game tab') =
         Some (attemptOn now chamberId (completed (progress chamber)) p) ∧
       started tab p r).
Proof.
  rewrite enterChamber_run.
  destruct (chambers (game tab) !! chamberId) as [chamber|] eqn:Hch.
  2:{ exists (Ok NotUnlocked), tab. split_and!; try done. left. auto. }
  destruct (level (user (game tab)) <? unlockLevel chamber) eqn:Hlvl.
  { exists (Ok NotUnlocked), tab. split_and!; try done. left. auto. }
  destruct (completed (progress chamber) <? Z.of_nat (length (puzzles chamber))).
  2:{ eexists (Ok ChamberExhausted), _. split; [reflexivity|].
      split_and!; try done. left. auto. }
  set (tab0 := on_game _ tab).
  assert (chambers (game tab0) !! chamberId = Some chamber) as Hch0 by done.
  destruct (js_index (puzzles chamber) (completed (progress chamber))) as [p|] eqn:Hp.
  2:{ rewrite startPuzzle_run, Hch0, Hp. eexists (Ok PuzzleNotFound), _.
      split; [reflexivity|]. split_and!; try done. left. auto. }
  destruct (startPuzzle_cases now chamberId (completed (progress chamber)) tab0
              chamber p Hch0 Hp) as (r & tab' & -> & Hg & Hd & _ & Hcases).
  exists r, tab'. split; [done|]. rewrite Hg. split; [done|].
  split_and!; try done.
  - intros ->. destruct Hcases as [(? & _)|(e & ? & _)]; done.
  - right. exists chamber, p. split; [done|].
    apply js_index_Some in Hp as [_ Hp]. split; [done|]. split; [done|].
    apply started_intro.
    assert (renders tab0 p ↔ renders tab p) by by apply renders_document.
    assert (loggable tab0 ↔ loggable tab) by apply loggable_game.
    destruct Hcases as [(-> & ? & ? & _)|(e & -> & ? & _)]; [left|right].
    + tauto.
    + exists e. tauto.
Qed.

(** X8. [startPuzzle] on a chamber of the game starts a new attempt, with
    no hint and no try counted, exactly when the index is from 0 up to
    below the number of its puzzles: the attempt is then in the game, and
    the start is reported when the document shows the puzzle and the
    item of the log can be extended, while the call throws otherwise.  A
    negative index or one past the end is reported as a puzzle not found
    and changes nothing. *)
Theorem startPuzzle_within_bounds now chamberId i tab chamber :
  chambers (game tab) !! chamberId = Some chamber →
  (0 ≤ i < Z.of_nat (length (puzzles chamber)) →
     ∃ p r tab', puzzles chamber !! Z.to_nat i = Some p ∧
       startPuzzle now chamberId i tab = (r, tab') ∧
       game tab' = set_currentPuzzle (Some (attemptOn now chamberId i p)) (game tab) ∧
       document tab' = document tab ∧
       started tab p r) ∧
  (i < 0 ∨ Z.of_nat (length (puzzles chamber)) ≤ i →
     startPuzzle now chamberId i tab = (Ok PuzzleNotFound, tab)).
Proof.
  intros Hch. split.
  - intros Hi. destruct (lookup_lt_is_Some_2 (puzzles chamber) (Z.to_nat i)) as [p Hp];
      [lia|].
    destruct (startPuzzle_cases now chamberId i tab chamber p Hch)
      as (r & tab' & Hrun & Hg & Hd & _ & Hcases).
    { by apply js_index_Some. }
    exists p, r, tab'. split_and!; try done. apply started_intro.
    destruct Hcases as [(-> & ? & ? & _)|(e & -> & ? & _)]; [left|right]; [done|].
    by exists e.
  - intros Hi. by rewrite startPuzzle_run, Hch, (proj2 (js_index_None _ _) Hi).
Qed.

Lemma startPuzzle_within_bounds_witness :
  chambers halfDoneGame !! "logical-sequences" = Some halfDone ∧
  startPuzzle 5 "logical-sequences" (-1) (playing halfDoneGame)
    = (Ok PuzzleNotFound, playing halfDoneGame) ∧
  startPuzzle 5 "logical-sequences" 2 (playing halfDoneGame)
    = (Ok PuzzleNotFound, playing halfDoneGame).
Proof.
  assert (chambers (game (playing halfDoneGame)) !! "logical-sequences" = Some halfDone)
    as H by (vm_compute; reflexivity).
  split; [exact H|].
  pose proof (startPuzzle_within_bounds 5 "logical-sequences" (-1)
                (playing halfDoneGame) halfDone H) as [_ H1].
  pose proof (startPuzzle_within_bounds 5 "logical-sequences" 2
                (playing halfDoneGame) halfDone H) as [_ H2].
  split; [apply H1; left; lia|apply H2; right; simpl; lia].
Defined.

(** *** Answers *)

Lemma lower_ascii_idem c : lower_ascii (lower_ascii c) = lower_ascii c.
Proof. destruct c as [[] [] [] [] [] [] [] []]; reflexivity. Qed.

Lemma toLowerCase_idem s : toLowerCase (toLowerCase s) = toLowerCase s.
Proof. induction s as [|c s IH]; simpl; [done|]. by rewrite lower_ascii_idem, IH. Qed.

(** X9. [validateAnswer] reads no state.  Two numbers match when they are
    equal; two texts match when they are equal once lower-cased, so an
    answer and its lower-cased form fare alike; a text never matches a
    number; nothing matches a solution that is neither; and a number
    against a text solution throws, in [checkAnswer] after the attempt has
    been counted. *)
Theorem validateAnswer_compares (gs : GameState) :
  (∀ n c, validateAnswer (ANum n) (Some (ANum c)) gs = (Ok (bool_decide (n = c)), gs)) ∧
  (∀ s c, validateAnswer (AStr s) (Some (AStr c)) gs =
            (Ok (bool_decide (toLowerCase s = toLowerCase c)), gs)) ∧
  (∀ s c, validateAnswer (AStr (toLowerCase s)) (Some (AStr c)) gs =
          validateAnswer (AStr s) (Some (AStr c)) gs) ∧
  (∀ s c, validateAnswer (AStr s) (Some (ANum c)) gs = (Ok false, gs)) ∧
  (∀ a, validateAnswer a None gs = (Ok false, gs)) ∧
  (∀ n c, validateAnswer (ANum n) (Some (AStr c)) gs = (Throw TypeError, gs)) ∧
  (∀ now later n c cp tab,
     game tab = gs →
     currentPuzzle gs = Some cp → correctAnswer (puzzle cp) = Some (AStr c) →
     checkAnswer now later (Some (ANum n)) tab = (Throw TypeError, on_game counted tab)).
Proof.
  split_and!.
  - intros n c. rewrite validateAnswer_run. simpl. do 2 f_equal.
    destruct (n =? c) eqn:E; symmetry.
    + apply bool_decide_eq_true_2. by apply Z.eqb_eq.
    + apply bool_decide_eq_false_2. by apply Z.eqb_neq.
  - intros s c. rewrite validateAnswer_run. simpl. do 2 f_equal.
    destruct (String.eqb _ _) eqn:E; symmetry.
    + apply bool_decide_eq_true_2. by apply String.eqb_eq.
    + apply bool_decide_eq_false_2. by apply String.eqb_neq.
  - intros s c. rewrite !validateAnswer_run. simpl. by rewrite toLowerCase_idem.
  - done.
  - intros a. rewrite validateAnswer_run. by destruct a.
  - done.
  - intros now later n c cp tab <- Hcp Hc. by rewrite checkAnswer_run, Hcp, Hc.
Qed.

Lemma counted_attempt gs cp :
  currentPuzzle gs = Some cp →
  currentPuzzle (counted gs) = Some (set_attempts (attempts cp + 1) cp).
Proof. intros Hcp. unfold counted. by rewrite Hcp. Qed.

(** X10. A wrong answer on a live attempt counts one more try, in the
    attempt and in the analytics, and ends the streak when that makes three
    tries or more; the chambers, the rest of the profile and the puzzle of
    the attempt stay as they were.  The answer is reported as incorrect
    when the item of the log can be extended; when it cannot, the call
    throws, with the game changed in the same way. *)
Theorem checkAnswer_wrong now later a tab cp :
  currentPuzzle (game tab) = Some cp →
  verdict a (correctAnswer (puzzle cp)) = Ok false →
  ∃ r tab',
    checkAnswer now later (Some a) tab = (r, tab') ∧
    logged tab Incorrect r ∧
    currentPuzzle (game tab') = Some (set_attempts (attempts cp + 1) cp) ∧
    puzzleAttempts (analytics (game tab')) = puzzleAttempts (analytics (game tab)) + 1 ∧
    chambers (game tab') = chambers (game tab) ∧
    user (game tab') = (if 3 <=? attempts cp + 1
                        then set_currentStreak 0 (user (game tab))
                        else user (game tab)).
Proof.
  intros Hcp Hv. rewrite checkAnswer_run, Hcp, Hv.
  destruct (handleIncorrectAnswer_cases (on_game counted tab)
              (set_attempts (attempts cp + 1) cp))
    as (r & tab' & -> & Hg & _ & _ & Hcases).
  { by apply counted_attempt. }
  exists r, tab'. split; [done|]. split.
  - apply logged_intro.
    assert (loggable (on_game counted tab) ↔ loggable tab) by apply loggable_game.
    destruct Hcases as [(-> & ? & _)|(e & -> & ? & _)]; [left; tauto|].
    right. exists e. tauto.
  - rewrite Hg. cbn [attempts set_attempts].
    destruct (3 <=? attempts cp + 1); cbn; unfold counted; rewrite Hcp; done.
Qed.

Lemma streakGame_attempt :
  currentPuzzle streakGame = Some (attemptOn 7 "logical-sequences" 1 secondPuzzle) ∧
  chambers streakGame !! "logical-sequences" = Some halfDone.
Proof. split; vm_compute; reflexivity. Qed.

Lemma playing_loggable gs : loggable (playing gs).
Proof. by eexists. Qed.

Lemma checkAnswer_wrong_witness :
  currentPuzzle streakGame = Some (attemptOn 7 "logical-sequences" 1 secondPuzzle) ∧
  ∃ tab', checkAnswer 8 8 (Some (ANum 3)) (playing streakGame) = (Ok Incorrect, tab') ∧
    chambers (game tab') = chambers streakGame ∧ user (game tab') = user streakGame.
Proof.
  destruct streakGame_attempt as [H1 _].
  split; [exact H1|].
  destruct (checkAnswer_wrong 8 8 (ANum 3) (playing streakGame) _ H1 eq_refl)
    as (r & tab' & Hrun & [_ Hr] & _ & _ & Hch & Hu).
  rewrite (proj2 Hr (playing_loggable _)) in Hrun.
  exists tab'. split; [exact Hrun|]. split; [exact Hch|exact Hu].
Defined.

(** The tab after a correct answer. *)
Lemma checkAnswer_correct_state now later a tab cp chamber :
  currentPuzzle (game tab) = Some cp →
  chambers (game tab) !! chamberId cp = Some chamber →
  verdict a (correctAnswer (puzzle cp)) = Ok true →
  let cp1 := set_attempts (attempts cp + 1) cp in
  let base := credited (finalScore now cp1) (solved cp1 chamber (counted (game tab))) in
  ∃ (n : nat) r tab',
    checkAnswer now later (Some a) tab = (r, tab') ∧
    logged tab (Correct (finalScore now cp1)) r ∧
    (loggable tab →
       loggable tab' ∧ levelUpDue (Nat.iter n crossing base) = false) ∧
    (¬ loggable tab → ¬ loggable tab') ∧
    document tab' = document tab ∧ Date_now tab' = Date_now tab ∧
    (∀ i : nat, (i < n)%nat → levelUpDue (Nat.iter i crossing base) = true) ∧
    (game tab' = timed later cp1 (Nat.iter n crossing base) ∨
     game tab' = Nat.iter n crossing base).
Proof.
  intros Hcp Hch Hv cp1 base. rewrite checkAnswer_run, Hcp, Hv.
  set (tab0 := on_game counted tab).
  assert (Hl0 : loggable tab0 ↔ loggable tab) by apply loggable_game.
  destruct (handleCorrectAnswer_cases now later tab0 cp1 chamber)
    as (n & r & tab' & -> & _ & Hdue & Hd & Hc & Hcases).
  { by apply counted_attempt. }
  { done. }
  exists n, r, tab'. split; [done|].
  destruct Hcases as [(-> & Hl & Hl' & Hg & Hstop)|(e & -> & Hl & Hm & Hg)].
  - split; [apply logged_intro; left; tauto|]. split; [done|]. split; [tauto|].
    split; [done|]. split; [done|]. split; [done|]. by left.
  - split; [apply logged_intro; right; exists e; tauto|]. split; [tauto|].
    split.
    { intros _. unfold loggable in *. rewrite Hm. tauto. }
    split; [done|]. split; [done|]. split; [done|].
    destruct Hg as [[-> Hg]|(-> & _ & Hg)]; [by right|by left].
Qed.

(** The fields of the game after a correct answer. *)
Lemma correct_fields later (n : nat) score cp1 chamber gs g :
  currentPuzzle gs = Some cp1 →
  g = timed later cp1 (Nat.iter n crossing (credited score (solved cp1 chamber gs))) ∨
  g = Nat.iter n crossing (credited score (solved cp1 chamber gs)) →
  currentPuzzle g = Some cp1 ∧
  currentChamber g = currentChamber gs ∧
  settings g = settings gs ∧
  chambers g =
    <[chamberId cp1 :=
        set_progress (set_completed (completed (progress chamber) + 1) (progress chamber))
                     chamber]> (chambers gs) ∧
  totalSolved (user g) = totalSolved (user gs) + 1 ∧
  currentStreak (user g) = currentStreak (user gs) + 1 ∧
  level (user gs) ≤ level (user g) ∧
  user g = user (Nat.iter n crossing (credited score (solved cp1 chamber gs))).
Proof.
  intros Hcp Hg.
  pose proof (passes_frame n (credited score (solved cp1 chamber gs)))
    as (H1 & H2 & H3 & H4 & H5 & H6 & H7 & H8 & Hlev).
  simpl in *.
  destruct Hg as [-> | ->]; simpl; rewrite H1, H2, H3, H4, H6, H7, Hlev, Hcp;
    repeat split; lia.
Qed.

(** X11. A correct answer on a live attempt counts the try, completes one
    more puzzle in the chamber of the attempt and in no other, raises the
    solved total and the streak by one, and lowers no level, whether the
    call returns or throws.  It returns, and reports the score of the
    attempt as counted, when the item of the log can be extended, and
    throws when it cannot.  The attempt stays live on the same puzzle. *)
Theorem checkAnswer_correct now later a tab cp chamber :
  currentPuzzle (game tab) = Some cp →
  chambers (game tab) !! chamberId cp = Some chamber →
  verdict a (correctAnswer (puzzle cp)) = Ok true →
  ∃ r tab',
    checkAnswer now later (Some a) tab = (r, tab') ∧
    logged tab (Correct (finalScore now (set_attempts (attempts cp + 1) cp))) r ∧
    currentPuzzle (game tab') = Some (set_attempts (attempts cp + 1) cp) ∧
    chambers (game tab') =
      <[chamberId cp :=
          set_progress (set_completed (completed (progress chamber) + 1)
                                      (progress chamber)) chamber]> (chambers (game tab)) ∧
    totalSolved (user (game tab')) = totalSolved (user (game tab)) + 1 ∧
    currentStreak (user (game tab')) = currentStreak (user (game tab)) + 1 ∧
    level (user (game tab)) ≤ level (user (game tab')).
Proof.
  intros Hcp Hch Hv.
  destruct (checkAnswer_correct_state now later a tab cp chamber Hcp Hch Hv)
    as (n & r & tab' & Hrun & Hr & _ & _ & _ & _ & _ & Hg).
  exists r, tab'. split; [done|]. split; [done|].
  destruct (correct_fields later n _ _ chamber (counted (game tab)) (game tab')
              (counted_attempt _ _ Hcp) Hg)
    as (H1 & _ & _ & H3 & H4 & H5 & H6 & _).
  done.
Qed.

Lemma checkAnswer_correct_witness :
  currentPuzzle streakGame = Some (attemptOn 7 "logical-sequences" 1 secondPuzzle) ∧
  chambers streakGame !! "logical-sequences" = Some halfDone ∧
  ∃ tab', checkAnswer 8 9 (Some (ANum 1)) (playing streakGame)
            = (Ok (Correct 15), tab') ∧
    totalSolved (user (game tab')) = totalSolved (user streakGame) + 1.
Proof.
  destruct streakGame_attempt as [H1 H2].
  split; [exact H1|]. split; [exact H2|].
  destruct (checkAnswer_correct 8 9 (ANum 1) (playing streakGame) _ halfDone H1 H2 eq_refl)
    as (r & tab' & Hrun & [_ Hr] & _ & _ & Hts & _).
  rewrite (proj2 Hr (playing_loggable _)) in Hrun.
  exists tab'. split; [exact Hrun|exact Hts].
Defined.

(** X12. Solving in order: when [enterChamber] has started the puzzle at
    index [completed] and it is answered correctly, entering the chamber
    again starts the puzzle at the next index, or reports the chamber
    exhausted when that was its last puzzle.  This holds of the game
    whether the calls return or throw; each of them returns when the
    item of the log can be extended and the document shows the puzzle it
    starts. *)
Theorem solving_in_order now now1 later now' chamberId a tab chamber p :
  chambers (game tab) !! chamberId = Some chamber →
  unlockLevel chamber ≤ level (user (game tab)) →
  0 ≤ completed (progress chamber) →
  puzzles chamber !! Z.to_nat (completed (progress chamber)) = Some p →
  verdict a (correctAnswer p) = Ok true →
  let n := completed (progress chamber) in
  ∃ r1 tab1 r2 tab2 r3 tab3 score,
    enterChamber now chamberId tab = (r1, tab1) ∧
    checkAnswer now1 later (Some a) tab1 = (r2, tab2) ∧
    enterChamber now' chamberId tab2 = (r3, tab3) ∧
    started tab p r1 ∧
    logged tab (Correct score) r2 ∧
    match puzzles chamber !! Z.to_nat (n + 1) with
    | Some p' => started tab p' r3 ∧
                 currentPuzzle (game tab3) = Some (attemptOn now' chamberId (n + 1) p')
    | None => r3 = Ok ChamberExhausted ∧
              currentPuzzle (game tab3) = currentPuzzle (game tab2)
    end.
Proof.
  intros Hch Hun Hn Hp Hv n.
  pose proof (lookup_lt_Some _ _ _ Hp) as Hlen.
  assert (js_index (puzzles chamber) n = Some p) as Hjs
    by (apply js_index_Some; split; [lia|done]).
  destruct (enterChamber_starts now chamberId tab chamber p Hch Hun Hjs)
    as (r1 & tab1 & Henter & Hg1 & Hd1 & _ & Hl1 & Hs1).
  fold n in Hg1.
  assert (currentPuzzle (game tab1) = Some (attemptOn now chamberId n p)) as Hcp1
    by by rewrite Hg1.
  assert (chambers (game tab1) !! chamberId = Some chamber) as Hch1
    by by rewrite Hg1.
  destruct (checkAnswer_correct_state now1 later a tab1 _ chamber Hcp1 Hch1 Hv)
    as (k & r2 & tab2 & Hcheck & Hr2 & Hlog2 & Hnlog2 & Hd2 & _ & _ & Hg2).
  destruct (correct_fields later k _ _ chamber (counted (game tab1)) (game tab2)
              (counted_attempt _ _ Hcp1) Hg2)
    as (Hcp2 & _ & _ & Hch2 & _ & _ & Hlev & _).
  set (chamber' := set_progress (set_completed (completed (progress chamber) + 1)
                                               (progress chamber)) chamber) in *.
  assert (chambers (game tab2) !! chamberId = Some chamber') as Hlook.
  { rewrite Hch2. change (chambers (counted (game tab1))) with (chambers (game tab1)).
    apply lookup_insert_eq. }
  assert (unlockLevel chamber' ≤ level (user (game tab2))) as Hun2.
  { change (level (user (counted (game tab1)))) with (level (user (game tab1))) in Hlev.
    rewrite Hg1 in Hlev. simpl in *. lia. }
  assert (loggable tab2 ↔ loggable tab) as Hl2.
  { destruct (loggable_dec tab1) as [H|H]; [|tauto].
    destruct (Hlog2 H). tauto. }
  assert (document tab2 = document tab) as Hdoc2 by congruence.
  destruct (puzzles chamber !! Z.to_nat (n + 1)) as [p'|] eqn:Hp'.
  - pose proof (lookup_lt_Some _ _ _ Hp') as Hlen'.
    assert (js_index (puzzles chamber') (completed (progress chamber')) = Some p')
      as Hjs' by (apply js_index_Some; simpl; fold n; split; [lia|done]).
    destruct (enterChamber_starts now' chamberId tab2 chamber' p' Hlook Hun2 Hjs')
      as (r3 & tab3 & Henter2 & Hg3 & _ & _ & _ & Hs3).
    exists r1, tab1, r2, tab2, r3, tab3. eexists.
    split; [exact Henter|]. split; [exact Hcheck|]. split; [exact Henter2|].
    split; [exact Hs1|]. split; [exact (logged_frame _ _ _ _ Hl1 Hr2)|].
    split; [exact (started_frame _ _ _ _ Hdoc2 Hl2 Hs3)|]. by rewrite Hg3.
  - apply lookup_ge_None in Hp'.
    assert (enterChamber now' chamberId tab2 =
              (Ok ChamberExhausted, on_game (set_currentChamber (Some chamberId)) tab2))
      as Henter2.
    { rewrite enterChamber_run, Hlook.
      assert ((level (user (game tab2)) <? unlockLevel chamber') = false) as ->
        by (apply Z.ltb_ge; lia).
      assert ((completed (progress chamber') <? Z.of_nat (length (puzzles chamber')))
                = false) as -> by (apply Z.ltb_ge; simpl; fold n; lia).
      done. }
    exists r1, tab1, r2, tab2. eexists _, _, _.
    split; [exact Henter|]. split; [exact Hcheck|]. split; [exact Henter2|].
    split; [exact Hs1|]. split; [exact (logged_frame _ _ _ _ Hl1 Hr2)|]. done.
Qed.

Lemma halfDoneGame_renders : renders (playing halfDoneGame) secondPuzzle.
Proof. reflexivity. Qed.

Lemma solving_in_order_witness :
  chambers halfDoneGame !! "logical-sequences" = Some halfDone ∧
  unlockLevel halfDone ≤ level (user halfDoneGame) ∧
  0 ≤ completed (progress halfDone) ∧
  ∃ tab1 tab2 tab3 score,
    enterChamber 7 "logical-sequences" (playing halfDoneGame) = (Ok Started, tab1) ∧
    checkAnswer 8 9 (Some (ANum 1)) tab1 = (Ok (Correct score), tab2) ∧
    enterChamber 10 "logical-sequences" tab2 = (Ok ChamberExhausted, tab3).
Proof.
  assert (chambers (game (playing halfDoneGame)) !! "logical-sequences" = Some halfDone)
    as H1 by (vm_compute; reflexivity).
  assert (unlockLevel halfDone ≤ level (user (game (playing halfDoneGame))))
    as H2 by (simpl; lia).
  assert (0 ≤ completed (progress halfDone)) as H3 by (simpl; lia).
  split; [exact H1|]. split; [exact H2|]. split; [exact H3|].
  destruct (solving_in_order 7 8 9 10 "logical-sequences" (ANum 1)
              (playing halfDoneGame) halfDone _ H1 H2 H3 eq_refl eq_refl)
    as (r1 & tab1 & r2 & tab2 & r3 & tab3 & score & He & Hc & He' & Hs & Hl & Ho).
  change (puzzles halfDone !! Z.to_nat (completed (progress halfDone) + 1))
    with (@None Puzzle) in Ho.
  destruct Ho as [-> _].
  rewrite (proj2 (proj2 Hs) (conj halfDoneGame_renders (playing_loggable _))) in He.
  rewrite (proj2 (proj2 Hl) (playing_loggable _)) in Hc.
  exists tab1, tab2, tab3, score.
  split; [exact He|]. split; [exact Hc|exact He'].
Defined.

(** X13. The attempt is not closed by a correct answer: the same answer
    submitted again is counted again, so that the chamber has two more
    puzzles completed and the profile two more solved, with the attempt
    still on the same puzzle, whether the calls return or throw; both
    return, with a score, when the item of the log can be extended. *)
Theorem checkAnswer_correct_twice now later now' later' a tab cp chamber :
  currentPuzzle (game tab) = Some cp →
  chambers (game tab) !! chamberId cp = Some chamber →
  verdict a (correctAnswer (puzzle cp)) = Ok true →
  ∃ r1 tab1 r2 tab2 s1 s2 chamber2,
    checkAnswer now later (Some a) tab = (r1, tab1) ∧
    checkAnswer now' later' (Some a) tab1 = (r2, tab2) ∧
    logged tab (Correct s1) r1 ∧ logged tab (Correct s2) r2 ∧
    chambers (game tab2) !! chamberId cp = Some chamber2 ∧
    completed (progress chamber2) = completed (progress chamber) + 2 ∧
    totalSolved (user (game tab2)) = totalSolved (user (game tab)) + 2 ∧
    currentPuzzle (game tab2) = Some (set_attempts (attempts cp + 2) cp).
Proof.
  intros Hcp Hch Hv.
  destruct (checkAnswer_correct_state now later a tab cp chamber Hcp Hch Hv)
    as (k1 & r1 & tab1 & Hrun1 & Hr1 & Hlog1 & Hnlog1 & _ & _ & _ & Hg1).
  destruct (correct_fields later k1 _ _ chamber (counted (game tab)) (game tab1)
              (counted_attempt _ _ Hcp) Hg1)
    as (Hcp1 & _ & _ & Hch1 & Hts1 & _).
  set (chamber1 := set_progress (set_completed (completed (progress chamber) + 1)
                                               (progress chamber)) chamber) in *.
  assert (chambers (game tab1) !! chamberId cp = Some chamber1) as Hlook
    by (rewrite Hch1; apply lookup_insert_eq).
  assert (loggable tab1 ↔ loggable tab) as Hl1.
  { destruct (loggable_dec tab) as [H|H]; [|tauto]. destruct (Hlog1 H). tauto. }
  destruct (checkAnswer_correct_state now' later' a tab1 _ chamber1 Hcp1 Hlook Hv)
    as (k2 & r2 & tab2 & Hrun2 & Hr2 & _ & _ & _ & _ & _ & Hg2).
  destruct (correct_fields later' k2 _ _ chamber1 (counted (game tab1)) (game tab2)
              (counted_attempt _ _ Hcp1) Hg2)
    as (Hcp2 & _ & _ & Hch2 & Hts2 & _).
  exists r1, tab1, r2, tab2. eexists _, _, _.
  split; [exact Hrun1|]. split; [exact Hrun2|].
  split; [exact Hr1|]. split; [exact (logged_frame _ _ _ _ Hl1 Hr2)|].
  split; [rewrite Hch2; apply lookup_insert_eq|].
  split; [unfold chamber1; simpl; lia|].
  split.
  { change (user (counted (game tab1))) with (user (game tab1)) in Hts2.
    change (user (counted (game tab))) with (user (game tab)) in Hts1. lia. }
  rewrite Hcp2. unfold set_attempts. simpl. do 2 f_equal. lia.
Qed.

Lemma checkAnswer_correct_twice_witness :
  chambers streakGame !! "logical-sequences" = Some halfDone ∧
  ∃ tab1 tab2 s1 s2 chamber2,
    checkAnswer 8 9 (Some (ANum 1)) (playing streakGame) = (Ok (Correct s1), tab1) ∧
    checkAnswer 10 11 (Some (ANum 1)) tab1 = (Ok (Correct s2), tab2) ∧
    chambers (game tab2) !! "logical-sequences" = Some chamber2 ∧
    completed (progress chamber2) = 3 ∧
    Z.of_nat (length (puzzles chamber2)) = 2.
Proof.
  destruct streakGame_attempt as [H1 H2]. split; [exact H2|].
  destruct (checkAnswer_correct_twice 8 9 10 11 (ANum 1) (playing streakGame) _ halfDone
              H1 H2 eq_refl)
    as (r1 & tab1 & r2 & tab2 & s1 & s2 & chamber2 & Hr1 & Hr2 & Hl1 & Hl2 & Hc2
        & Hcompl & _).
  rewrite (proj2 (proj2 Hl1) (playing_loggable _)) in Hr1.
  rewrite (proj2 (proj2 Hl2) (playing_loggable _)) in Hr2.
  exists tab1, tab2, s1, s2, chamber2. split; [exact Hr1|]. split; [exact Hr2|].
  split; [exact Hc2|]. split; [exact Hcompl|].
  pose proof Hr1 as Hr1'. pose proof Hr2 as Hr2'.
  apply (f_equal snd) in Hr1', Hr2'. simpl in Hr1', Hr2'. subst tab1 tab2.
  revert Hc2. vm_compute. by intros [= <-].
Defined.

(** *** Hints, the next puzzle, a reset *)

(** X14. With a live attempt and a hint count that is not negative,
    [showHint] shows the first hint not yet shown while there is one, and
    the last hint again once all have been shown (nothing when the puzzle
    has no hints); either way it counts one more hint, in the attempt and
    in the analytics, and changes nothing else in the game.  The hint is
    reported when the item of the log can be extended; when it cannot,
    the call throws after the count. *)
Theorem showHint_shows tab cp :
  currentPuzzle (game tab) = Some cp →
  0 ≤ hintsUsed cp →
  let hs := default [] (hints (puzzle cp)) in
  ∃ r tab',
    showHint tab = (r, tab') ∧
    logged tab (Hint (if hintsUsed cp <? Z.of_nat (length hs)
                      then hs !! Z.to_nat (hintsUsed cp) else last hs)) r ∧
    game tab' =
      set_analytics
        (set_a_hintsUsed (a_hintsUsed (analytics (game tab)) + 1) (analytics (game tab)))
        (set_currentPuzzle (Some (set_hintsUsed (hintsUsed cp + 1) cp)) (game tab)) ∧
    document tab' = document tab.
Proof.
  intros Hcp Hh hs. rewrite showHint_run, Hcp. fold hs. cbv zeta.
  assert ((Z.of_nat (length hs) <=? Z.min (hintsUsed cp) (Z.of_nat (length hs) - 1))
            = false) as -> by (apply Z.leb_gt; lia).
  assert (js_index hs (Z.min (hintsUsed cp) (Z.of_nat (length hs) - 1)) =
          if hintsUsed cp <? Z.of_nat (length hs)
          then hs !! Z.to_nat (hintsUsed cp) else last hs) as ->.
  { destruct (hintsUsed cp <? Z.of_nat (length hs)) eqn:E.
    - apply Z.ltb_lt in E. rewrite Z.min_l by lia.
      unfold js_index.
      by assert ((0 <=? hintsUsed cp) = true) as -> by (apply Z.leb_le; lia).
    - apply Z.ltb_ge in E. rewrite Z.min_r by lia. rewrite last_lookup.
      destruct hs as [|h hs']; [done|].
      unfold js_index.
      assert ((0 <=? Z.of_nat (length (h :: hs')) - 1) = true) as ->
        by (apply Z.leb_le; simpl; lia).
      f_equal. simpl. lia. }
  set (tab0 := on_game _ tab).
  assert (loggable tab0 ↔ loggable tab) as Hl0 by apply loggable_game.
  match goal with |- context [mret (Hint ?h)] =>
    destruct (log_then_cases "hint_used"
                (VObj [ ("chamber", VStr (chamberId cp)); ("puzzle", VNum (puzzleIndex cp));
                        ("hintLevel", VNum (hintsUsed cp + 1)) ]) (Hint h) tab0)
      as (r & tab' & Hrun & Hg & Hd & _ & Hcases)
  end.
  exists r, tab'. split; [exact Hrun|]. split; [|by rewrite Hg, Hd].
  apply logged_intro.
  destruct Hcases as [(-> & ? & _)|(e & -> & ? & _)]; [left; tauto|].
  right. exists e. tauto.
Qed.

Lemma showHint_shows_witness :
  0 ≤ hintsUsed quickAttempt ∧
  ∃ tab1,
    showHint (playing (set_currentPuzzle (Some quickAttempt) startedGame)) =
      (Ok (Hint (Some "second")), tab1).
Proof.
  assert (0 ≤ hintsUsed quickAttempt) as H1 by (simpl; lia).
  split; [exact H1|].
  destruct (showHint_shows (playing (set_currentPuzzle (Some quickAttempt) startedGame))
              quickAttempt eq_refl H1) as (r & tab1 & Hrun & [_ Hr] & _).
  rewrite (proj2 Hr (playing_loggable _)) in Hrun.
  exists tab1. exact Hrun.
Defined.

Lemma startPuzzle_starts now id i tab chamber p :
  chambers (game tab) !! id = Some chamber →
  js_index (puzzles chamber) i = Some p →
  ∃ r tab',
    startPuzzle now id i tab = (r, tab') ∧
    game tab' = set_currentPuzzle (Some (attemptOn now id i p)) (game tab) ∧
    document tab' = document tab ∧ Date_now tab' = Date_now tab ∧
    (loggable tab' ↔ loggable tab) ∧
    started tab p r.
Proof.
  intros Hch Hp.
  destruct (startPuzzle_cases now id i tab chamber p Hch Hp)
    as (r & tab' & Hrun & Hg & Hd & Hc & Hcases).
  exists r, tab'. split_and!; try done.
  - destruct Hcases as [(_ & _ & ? & ?)|(e & _ & _ & Hm)]; [tauto|].
    unfold loggable. by rewrite Hm.
  - apply started_intro.
    destruct Hcases as [(-> & ? & ? & _)|(e & -> & ? & _)]; [by left|].
    right. by exists e.
Qed.

(** X15. [nextPuzzle] looks at the index of the attempt only, not at what
    has been completed: with a puzzle after the current one it puts a new
    attempt on it in the game, whether or not the current one was solved,
    and changes nothing else there; the start is reported when the
    document shows the puzzle and the item of the log can be extended,
    and the call throws otherwise.  On the last puzzle it reports the
    chamber completed and leaves the tab, the live attempt included, as
    it was. *)
Theorem nextPuzzle_advances now tab cp chamber :
  currentPuzzle (game tab) = Some cp →
  chambers (game tab) !! chamberId cp = Some chamber →
  0 ≤ puzzleIndex cp + 1 →
  match puzzles chamber !! Z.to_nat (puzzleIndex cp + 1) with
  | Some p =>
      ∃ r tab',
        nextPuzzle now tab = (r, tab') ∧
        started tab p r ∧
        game tab' =
          set_currentPuzzle
            (Some (attemptOn now (chamberId cp) (puzzleIndex cp + 1) p)) (game tab) ∧
        document tab' = document tab
  | None => nextPuzzle now tab = (Ok ChamberCompleted, tab)
  end.
Proof.
  intros Hcp Hch Hi. rewrite nextPuzzle_run, Hcp, Hch.
  destruct (puzzles chamber !! Z.to_nat (puzzleIndex cp + 1)) as [p|] eqn:Hp.
  - pose proof (lookup_lt_Some _ _ _ Hp).
    assert ((puzzleIndex cp + 1 <? Z.of_nat (length (puzzles chamber))) = true) as ->
      by (apply Z.ltb_lt; lia).
    destruct (startPuzzle_starts now (chamberId cp) (puzzleIndex cp + 1) tab chamber p Hch)
      as (r & tab' & Hrun & Hg & Hd & _ & _ & Hs).
    { apply js_index_Some; split; [lia|done]. }
    by exists r, tab'.
  - apply lookup_ge_None in Hp.
    by assert ((puzzleIndex cp + 1 <? Z.of_nat (length (puzzles chamber))) = false) as ->
      by (apply Z.ltb_ge; lia).
Qed.

Lemma nextPuzzle_advances_witness :
  chambers streakGame !! "logical-sequences" = Some halfDone ∧
  nextPuzzle 9 (playing streakGame) = (Ok ChamberCompleted, playing streakGame).
Proof.
  destruct streakGame_attempt as [H1 H2]. split; [exact H2|].
  exact (nextPuzzle_advances 9 (playing streakGame) _ halfDone H1 H2 ltac:(simpl; lia)).
Defined.

(** X16. [resetPuzzle] turns the attempt into a new attempt on the same
    puzzle and touches nothing else; so the hints shown and the tries made
    before it cost nothing: a correct answer given within 30 seconds of
    the reset scores the points of the puzzle plus the full time bonus,
    which is what [checkAnswer] reports when the item of the log can be
    extended. *)
Theorem resetPuzzle_forgets_penalties now gs cp :
  currentPuzzle gs = Some cp →
  let fresh := attemptOn now (chamberId cp) (puzzleIndex cp) (puzzle cp) in
  resetPuzzle now gs = (Ok tt, set_currentPuzzle (Some fresh) gs) ∧
  ∀ now' later a chamber tab,
    game tab = set_currentPuzzle (Some fresh) gs →
    chambers gs !! chamberId cp = Some chamber →
    verdict a (correctAnswer (puzzle cp)) = Ok true →
    now' - now ≤ 30000 →
    finalScore now' (set_attempts 1 fresh) = Z.max 1 (js_or (points (puzzle cp)) 10 + 5) ∧
    logged tab (Correct (Z.max 1 (js_or (points (puzzle cp)) 10 + 5)))
      (checkAnswer now' later (Some a) tab).1.
Proof.
  intros Hcp fresh. split.
  - unfold resetPuzzle, on_currentPuzzle, modify. by rewrite Hcp.
  - intros now' later a chamber tab Hg Hch Hv Ht.
    assert (finalScore now' (set_attempts 1 fresh)
            = Z.max 1 (js_or (points (puzzle cp)) 10 + 5)) as Hscore.
    { unfold finalScore, calculateTimeBonus. simpl.
      assert ((now' - now <=? 30000) = true) as -> by (apply Z.leb_le; lia).
      f_equal. lia. }
    split; [exact Hscore|].
    destruct (checkAnswer_correct_state now' later a tab fresh chamber)
      as (n & r & tab' & -> & Hr & _); [by rewrite Hg|by rewrite Hg|done|].
    cbn [fst]. by rewrite <- Hscore.
Qed.

Lemma resetPuzzle_forgets_penalties_witness :
  currentPuzzle allHintsShown ≠ None ∧
  ∃ cp, currentPuzzle allHintsShown = Some cp ∧ hintsUsed cp = 3 ∧
    (checkAnswer 2000 2001 (Some (ANum 0))
       (playing (resetPuzzle 1000 allHintsShown).2)).1 = Ok (Correct 15).
Proof.
  split; [discriminate|]. eexists. split; [reflexivity|]. split; [reflexivity|].
  pose proof (resetPuzzle_forgets_penalties 1000 allHintsShown _ eq_refl) as [Hr Hs].
  rewrite Hr. cbn [snd].
  refine (proj2 (proj2 (proj2 (Hs 2000 2001 (ANum 0) _ (playing _) eq_refl _ eq_refl _)))
            (playing_loggable _)).
  - vm_compute. reflexivity.
  - lia.
Defined.

(** *** What every command keeps *)

Lemma perform_state c tab :
  (perform c tab).2 =
  match c with
  | EnterChamber now chamberId => (enterChamber now chamberId tab).2
  | CheckAnswer now later userAnswer => (checkAnswer now later userAnswer tab).2
  | ShowHint => (showHint tab).2
  | NextPuzzle now => (nextPuzzle now tab).2
  | ResetPuzzle now => on_game (λ gs, (resetPuzzle now gs).2) tab
  end.
Proof.
  destruct c; simpl; try done; rewrite bind_run;
    match goal with |- context [?f tab] => by destruct (f tab) as [[?| |] ?] end.
Qed.

Lemma handleCorrectAnswer_lost now later tab cp :
  currentPuzzle (game tab) = Some cp →
  chambers (game tab) !! chamberId cp = None →
  handleCorrectAnswer now later tab = (Throw TypeError, tab).
Proof.
  intros Hcp Hch. unfold handleCorrectAnswer. rewrite bind_run. cbn [get fst snd].
  by rewrite Hcp, Hch.
Qed.

Lemma completedTotal_insert (m : gmap string Chamber) k chamber chamber' :
  m !! k = Some chamber →
  completedTotal (<[k:=chamber']> m) =
  completedTotal m - completed (progress chamber) + completed (progress chamber').
Proof.
  intros Hk. unfold completedTotal.
  rewrite (map_fold_delete_L _ _ k chamber m); [|intros; lia|done].
  rewrite <- insert_delete_eq.
  rewrite map_fold_insert_L; [lia|intros; lia|apply lookup_delete_eq].
Qed.


Ltac kept_profile := left; split; [done|by left].
Ltac kept_all := split; [by left|kept_profile].

(** The two shapes of the game after a command: the chambers kept, with
    the profile kept but for a streak that may be ended; or one correct
    answer counted, and its score awarded in some number of passes. *)
Lemma perform_cases c tab :
  let gs := game tab in
  let gs' := game (perform c tab).2 in
  (currentPuzzle gs' = currentPuzzle gs ∨
   (∃ cp cp', currentPuzzle gs = Some cp ∧ currentPuzzle gs' = Some cp' ∧
      chamberId cp' = chamberId cp ∧ puzzleIndex cp' = puzzleIndex cp ∧
      puzzle cp' = puzzle cp) ∨
   (∃ now id i chamber p, chambers gs !! id = Some chamber ∧
      js_index (puzzles chamber) i = Some p ∧
      currentPuzzle gs' = Some (attemptOn now id i p))) ∧
  ((chambers gs' = chambers gs ∧
    (user gs' = user gs ∨ user gs' = set_currentStreak 0 (user gs))) ∨
   (∃ cp chamber score (n : nat),
      let base :=
        credited score (solved (set_attempts (attempts cp + 1) cp) chamber (counted gs)) in
      currentPuzzle gs = Some cp ∧
      chambers gs !! chamberId cp = Some chamber ∧ 0 ≤ score ∧
      chambers gs' =
        <[chamberId cp :=
            set_progress (set_completed (completed (progress chamber) + 1)
                                        (progress chamber)) chamber]> (chambers gs) ∧
      user gs' = user (Nat.iter n crossing base) ∧
      (∀ i : nat, (i < n)%nat → levelUpDue (Nat.iter i crossing base) = true) ∧
      (loggable tab → levelUpDue (Nat.iter n crossing base) = false))).
Proof.
  intros gs gs'. subst gs gs'. rewrite perform_state.
  destruct c as [now id|now later ans| |now|now].
  - rewrite enterChamber_run.
    destruct (chambers (game tab) !! id) as [chamber|] eqn:Hch; [|kept_all].
    destruct (level (user (game tab)) <? unlockLevel chamber); [kept_all|].
    destruct (completed (progress chamber) <? _); [|kept_all].
    set (tab0 := on_game _ tab).
    destruct (js_index (puzzles chamber) (completed (progress chamber))) as [p|] eqn:Hp.
    + destruct (startPuzzle_starts now id (completed (progress chamber)) tab0 chamber p)
        as (r & tab' & -> & Hg & _); [done|done|].
      cbn [snd]. rewrite Hg. split; [|kept_profile].
      right. right. by eexists _, _, _, _, _.
    + rewrite startPuzzle_run.
      change (chambers (game tab0)) with (chambers (game tab)). rewrite Hch, Hp.
      kept_all.
  - rewrite checkAnswer_run.
    destruct (currentPuzzle (game tab)) as [cp|] eqn:Hcp; [|rewrite <- Hcp; kept_all].
    destruct ans as [a|]; [|rewrite <- Hcp; kept_all].
    pose proof (counted_attempt _ _ Hcp) as Hcp1.
    destruct (verdict a (correctAnswer (puzzle cp))) as [[]| |] eqn:Hv.
    + destruct (chambers (game tab) !! chamberId cp) as [chamber|] eqn:Hch.
      * destruct (checkAnswer_correct_state now later a tab cp chamber Hcp Hch Hv)
          as (n & r & tab' & Hrun & _ & Hlog & _ & _ & _ & Hdue & Hg).
        rewrite checkAnswer_run, Hcp, Hv in Hrun. rewrite Hrun. cbn [snd].
        destruct (correct_fields later n _ _ chamber (counted (game tab)) (game tab')
                    Hcp1 Hg) as (H1 & _ & _ & H3 & _ & _ & _ & Hu).
        split.
        -- right. left. eexists _, _. split; [done|]. split; [exact H1|]. done.
        -- right.
           exists cp, chamber, (finalScore now (set_attempts (attempts cp + 1) cp)), n.
           split; [done|]. split; [done|]. split; [unfold finalScore; lia|].
           split; [exact H3|]. split; [exact Hu|]. split; [exact Hdue|].
           intros H. by destruct (Hlog H).
      * rewrite (handleCorrectAnswer_lost now later _ (set_attempts (attempts cp + 1) cp));
          [|done|done].
        split; [|kept_profile]. right. left. cbn [snd]. by eexists _, _.
    + destruct (handleIncorrectAnswer_cases (on_game counted tab)
                  (set_attempts (attempts cp + 1) cp) Hcp1)
        as (r & tab' & -> & Hg & _).
      cbn [snd]. rewrite Hg. cbn [attempts set_attempts].
      destruct (3 <=? attempts cp + 1); simpl.
      * split; [|left; split; [done|by right]]. right. left.
        unfold counted. rewrite Hcp. by eexists _, _.
      * split; [|kept_profile]. right. left.
        unfold counted. rewrite Hcp. by eexists _, _.
    + split; [|kept_profile]. right. left. cbn [snd]. by eexists _, _.
    + split; [|kept_profile]. right. left. cbn [snd]. by eexists _, _.
  - rewrite showHint_run. destruct (currentPuzzle (game tab)) as [cp|] eqn:Hcp;
      [|rewrite <- Hcp; kept_all].
    cbv zeta. destruct (_ <=? _); [rewrite <- Hcp; kept_all|].
    set (tab0 := on_game _ tab).
    match goal with |- context [mret (Hint ?h)] =>
      destruct (log_then_cases "hint_used"
                  (VObj [ ("chamber", VStr (chamberId cp)); ("puzzle", VNum (puzzleIndex cp));
                          ("hintLevel", VNum (hintsUsed cp + 1)) ]) (Hint h) tab0)
        as (r & tab' & -> & Hg & _)
    end.
    cbn [snd]. rewrite Hg. split; [|kept_profile]. right. left. by eexists _, _.
  - rewrite nextPuzzle_run. destruct (currentPuzzle (game tab)) as [cp|] eqn:Hcp;
      [|rewrite <- Hcp; kept_all].
    destruct (chambers (game tab) !! chamberId cp) as [chamber|] eqn:Hch;
      [|rewrite <- Hcp; kept_all].
    destruct (_ <? _); [|rewrite <- Hcp; kept_all].
    destruct (js_index (puzzles chamber) (puzzleIndex cp + 1)) as [p|] eqn:Hp.
    + destruct (startPuzzle_starts now (chamberId cp) (puzzleIndex cp + 1) tab chamber p)
        as (r & tab' & -> & Hg & _); [done|done|].
      cbn [snd]. rewrite Hg. split; [|kept_profile].
      right. right. by eexists _, _, _, _, _.
    + rewrite startPuzzle_run, Hch, Hp. rewrite <- Hcp. kept_all.
  - unfold resetPuzzle, on_currentPuzzle, modify. simpl.
    destruct (currentPuzzle (game tab)) as [cp|] eqn:Hcp; [|kept_all].
    split; [|kept_profile]. right. left. by eexists _, _.
Qed.

(** *** Whole sessions *)

Lemma grown_refl chamber : grown chamber chamber.
Proof.
  exists (completed (progress chamber)). split; [lia|].
  by destruct chamber as [? ? [] ?].
Qed.

Lemma grown_trans c1 c2 c3 : grown c1 c2 → grown c2 c3 → grown c1 c3.
Proof.
  intros (n & Hn & ->) (m & Hm & ->). exists m. simpl in *. split; [lia|done].
Qed.

Lemma perform_grown c tab id :
  option_Forall2 grown (chambers (game tab) !! id)
                 (chambers (game (perform c tab).2) !! id).
Proof.
  destruct (perform_cases c tab)
    as [_ [[-> _]|(cp & chamber & sc & n & _ & Hch & _ & -> & _)]].
  - destruct (chambers (game tab) !! id); constructor. apply grown_refl.
  - destruct (decide (chamberId cp = id)) as [<-|Hne].
    + rewrite lookup_insert_eq, Hch. constructor.
      exists (completed (progress chamber) + 1). split; [lia|done].
    + rewrite lookup_insert_ne by done.
      destruct (chambers (game tab) !! id); constructor. apply grown_refl.
Qed.

Lemma perform_books c tab :
  totalSolved (user (game (perform c tab).2))
    - completedTotal (chambers (game (perform c tab).2)) =
  totalSolved (user (game tab)) - completedTotal (chambers (game tab)).
Proof.
  destruct (perform_cases c tab)
    as [_ [[-> [->| ->]]|(cp & chamber & sc & n & _ & Hch & _ & -> & -> & _)]];
    [done|done|].
  rewrite (completedTotal_insert _ _ chamber) by done.
  match goal with |- context [Nat.iter n crossing ?g] =>
    pose proof (passes_frame n g) as (_ & _ & _ & _ & _ & Hts & _)
  end.
  cbv zeta in Hts. rewrite Hts. simpl. lia.
Qed.

Lemma perform_profile c tab :
  level (user (game tab)) ≤ level (user (game (perform c tab).2)) ∧
  totalSolved (user (game tab)) ≤ totalSolved (user (game (perform c tab).2)) ∧
  (loggable tab → sound_profile (user (game tab)) →
   sound_profile (user (game (perform c tab).2))).
Proof.
  destruct (perform_cases c tab)
    as [_ [[_ [->| ->]]|(cp & chamber & sc & n & _ & Hch & Hsc & _ & -> & Hdue & Hstop)]];
    [done|done|].
  match goal with |- context [Nat.iter n crossing ?g] => set (base := g) in * end.
  pose proof (passes_frame n base) as (_ & _ & _ & _ & _ & Hts & _ & _ & Hlev).
  cbv zeta in Hts, Hlev. rewrite Hts, Hlev.
  split; [simpl; lia|]. split; [simpl; lia|].
  intros Hlog (Hl & Hx & Hs). specialize (Hstop Hlog).
  assert (∀ i : nat, (i ≤ n)%nat → 0 ≤ xp (user (Nat.iter i crossing base))) as Hxp.
  { induction i as [|i IH]; intros Hi; simpl; [lia|].
    specialize (Hdue i ltac:(lia)). unfold levelUpDue in Hdue.
    apply Z.leb_le in Hdue. lia. }
  destruct (passes_settled n base) as [Hset _]; [done|done|].
  specialize (Hxp n ltac:(lia)).
  unfold levelUpDue in Hstop. apply Z.leb_gt in Hstop.
  split; [simpl in *; lia|]. split; [lia|]. exact Hset.
Qed.

Lemma perform_placed c tab :
  attempt_placed (game tab) → attempt_placed (game (perform c tab).2).
Proof.
  intros Hplaced cp' Hcp'.
  assert (∃ chamber, chambers (game tab) !! chamberId cp' = Some chamber ∧
            js_index (puzzles chamber) (puzzleIndex cp') = Some (puzzle cp'))
    as (chamber & Hch & Hp).
  { destruct (perform_cases c tab) as [[Hsame|[Hsame|Hnew]] _].
    - apply Hplaced. by rewrite <- Hsame.
    - destruct Hsame as (cp & cp'' & Hcp & Hcp'' & Hid & Hi & Hpz).
      rewrite Hcp' in Hcp''. injection Hcp'' as <-.
      rewrite Hid, Hi, Hpz. by apply Hplaced.
    - destruct Hnew as (now & id & i & chamber & p & Hch & Hp & Hcp'').
      rewrite Hcp' in Hcp''. injection Hcp'' as ->. by exists chamber. }
  pose proof (perform_grown c tab (chamberId cp')) as Hg. rewrite Hch in Hg.
  inversion Hg as [? chamber' (n & _ & ->) Heq1 Heq2|]; subst.
  eexists. split; [done|]. exact Hp.
Qed.

(** X17. The books stay balanced: over any sequence of commands the solved
    total of the profile and the completed counts of the chambers rise by
    the same number, whichever handlers throw on the way. *)
Theorem session_keeps_the_books cs tab :
  totalSolved (user (game (perform_all cs tab)))
    - completedTotal (chambers (game (perform_all cs tab))) =
  totalSolved (user (game tab)) - completedTotal (chambers (game tab)).
Proof.
  revert tab. induction cs as [|c cs IH]; intros tab; simpl; [done|].
  rewrite IH. apply perform_books.
Qed.

(** X18. No sequence of commands loses progress, whichever handlers throw
    on the way: the level and the solved total never go down; no chamber
    is added or removed; and a chamber changes in its completed count
    only, which never goes down. *)
Theorem session_never_loses_progress cs tab :
  level (user (game tab)) ≤ level (user (game (perform_all cs tab))) ∧
  totalSolved (user (game tab)) ≤ totalSolved (user (game (perform_all cs tab))) ∧
  ∀ id, option_Forall2 grown (chambers (game tab) !! id)
                       (chambers (game (perform_all cs tab)) !! id).
Proof.
  revert tab. induction cs as [|c cs IH]; intros tab; simpl.
  - split; [lia|]. split; [lia|]. intros id.
    destruct (chambers (game tab) !! id); constructor. apply grown_refl.
  - destruct (IH (perform c tab).2) as (H1 & H2 & H3).
    destruct (perform_profile c tab) as (H4 & H5 & _).
    split; [lia|]. split; [lia|]. intros id.
    pose proof (perform_grown c tab id) as Hg. specialize (H3 id).
    destruct Hg as [x y Hxy|]; inversion H3 as [? z Hyz|]; subst; constructor.
    by eapply grown_trans.
Qed.



(** X20. When the attempt in progress, if there is one, is on a puzzle of
    a chamber of the game, it is so after any sequence of commands,
    whichever handlers throw on the way. *)
Theorem session_keeps_attempt_placed cs tab :
  attempt_placed (game tab) → attempt_placed (game (perform_all cs tab)).
Proof.
  revert tab. induction cs as [|c cs IH]; intros tab Hp; simpl; [done|].
  apply IH. by apply perform_placed.
Qed.

Lemma streakGame_placed : attempt_placed streakGame.
Proof.
  intros cp Hcp. destruct streakGame_attempt as [H1 H2].
  rewrite H1 in Hcp. injection Hcp as <-. exists halfDone. split; [exact H2|reflexivity].
Qed.

Lemma session_keeps_attempt_placed_witness :
  attempt_placed streakGame ∧
  attempt_placed
    (game (perform_all [CheckAnswer 8 9 (Some (ANum 1));
                        EnterChamber 10 "logical-sequences"; ResetPuzzle 11]
             (playing streakGame))).
Proof.
  split; [exact streakGame_placed|].
  exact (session_keeps_attempt_placed
           [CheckAnswer 8 9 (Some (ANum 1)); EnterChamber 10 "logical-sequences";
            ResetPuzzle 11] (playing streakGame) streakGame_placed).
Defined.




End session_more.

(** * Setting up the chambers *)

Section chambers_more.
Import Game.

Variable PuzzleGenerators : string → option (list Puzzle).

Lemma generatePlaceholderPuzzles_run id gs :
  generatePlaceholderPuzzles id gs =
  match chambers gs !! id with
  | None => (Throw TypeError, gs)
  | Some chamber => (Ok (placeholder id <$> seqZ 1 (puzzleCount chamber)), gs)
  end.
Proof.
  unfold generatePlaceholderPuzzles. rewrite bind_run. simpl.
  by destruct (chambers gs !! id).
Qed.

Lemma generatePuzzlesForChamber_run id gs chamber :
  chambers gs !! id = Some chamber →
  generatePuzzlesForChamber PuzzleGenerators id gs =
    (Ok (stock PuzzleGenerators id chamber), gs).
Proof.
  intros Hch. unfold generatePuzzlesForChamber, stock.
  destruct (PuzzleGenerators id); [done|].
  by rewrite generatePlaceholderPuzzles_run, Hch.
Qed.

Lemma stocked_tail a ids id chamber :
  id ≠ a →
  stocked PuzzleGenerators (a :: ids) id chamber = stocked PuzzleGenerators ids id chamber.
Proof.
  intros Hne. unfold stocked.
  assert (bool_decide (id ∈ a :: ids) = bool_decide (id ∈ ids)) as ->; [|done].
  apply bool_decide_ext. rewrite elem_of_cons. split; [by intros [?|?]|by right].
Qed.

Lemma load_loop ids gs :
  foldr (λ chamberId (rest : M GameState unit),
           gs ← get;
           match chambers gs !! chamberId with
           | Some chamber =>
               if (length (puzzles chamber) =? 0)%nat then
                 generated ← generatePuzzlesForChamber PuzzleGenerators chamberId;
                 modify (λ gs, set_chambers
                   (<[chamberId :=
                        {| unlockLevel := unlockLevel chamber;
                           puzzleCount := puzzleCount chamber;
                           progress := progress chamber;
                           puzzles := generated |}]> (chambers gs)) gs);;
                 rest
               else rest
           | None => rest
           end)
        (mret tt) ids gs =
  (Ok tt,
   set_chambers (map_imap (λ id chamber, Some (stocked PuzzleGenerators ids id chamber))
                          (chambers gs)) gs).
Proof.
  revert gs. induction ids as [|a ids IH]; intros gs.
  - simpl. f_equal. destruct gs as [? ? ? ? m ?]. unfold set_chambers. simpl. f_equal.
    apply map_eq. intros id. rewrite map_lookup_imap.
    destruct (m !! id) as [chamber|]; [|done]. simpl. unfold stocked.
    by rewrite bool_decide_eq_false_2 by apply not_elem_of_nil.
  - rewrite foldr_cons, bind_run. cbn [get fst snd].
    destruct (chambers gs !! a) as [chamber|] eqn:Hch.
    + destruct (length (puzzles chamber) =? 0)%nat eqn:Hlen.
      * rewrite bind_run, (generatePuzzlesForChamber_run a gs chamber Hch).
        cbn [fst snd]. rewrite bind_run. cbn [modify fst snd]. rewrite IH.
        f_equal. unfold set_chambers. cbn [chambers]. f_equal.
        apply map_eq. intros id. rewrite !map_lookup_imap.
        destruct (decide (id = a)) as [->|Hne].
        -- rewrite lookup_insert_eq, Hch. simpl. f_equal.
           unfold stocked at 2. rewrite bool_decide_eq_true_2 by apply list_elem_of_here.
           rewrite Hlen. simpl. unfold stocked.
           destruct (_ && _); [|done]. done.
        -- rewrite lookup_insert_ne by done.
           destruct (chambers gs !! id) as [c|]; [|done]. simpl.
           by rewrite stocked_tail.
      * rewrite IH. f_equal. f_equal.
        apply map_eq. intros id. rewrite !map_lookup_imap.
        destruct (decide (id = a)) as [->|Hne].
        -- rewrite Hch. simpl. f_equal. unfold stocked. rewrite Hlen.
           by rewrite !andb_false_r.
        -- destruct (chambers gs !! id) as [c|]; [|done]. simpl.
           by rewrite stocked_tail.
    + rewrite IH. f_equal. f_equal.
      apply map_eq. intros id. rewrite !map_lookup_imap.
      destruct (chambers gs !! id) as [c|] eqn:Hc; [|done]. simpl.
      rewrite stocked_tail; [done|]. intros ->. congruence.
Qed.

Lemma loadChamberPuzzles_run gs :
  loadChamberPuzzles PuzzleGenerators gs =
  (Ok tt,
   set_chambers
     (map_imap (λ id chamber, Some (stocked PuzzleGenerators implementedChambers id chamber))
               (chambers gs)) gs).
Proof. apply load_loop. Qed.

Lemma init_loop defs (k : M GameState unit) gs :
  foldr (λ chamberDef (rest : M GameState unit),
           gs ← get;
           let '(id, (unlock, count)) := chamberDef in
           match chambers gs !! id with
           | Some _ => rest
           | None =>
               modify (set_chambers
                 (<[id :=
                      {| unlockLevel := unlock; puzzleCount := count;
                         progress :=
                           {| completed := 0; total := count; bestTimes := [];
                              p_hintsUsed := 0; accuracy := 0;
                              unlockedPuzzles :=
                                if unlock <=? level (user gs) then 1 else 0 |};
                         puzzles := [] |}]> (chambers gs)));;
               rest
           end)
        k defs gs =
  k (set_chambers (registered (level (user gs)) defs (chambers gs)) gs).
Proof.
  revert gs. induction defs as [|[id [unlock count]] defs IH]; intros gs.
  - simpl. by destruct gs.
  - rewrite foldr_cons, bind_run. cbn [get fst snd]. unfold registered. simpl.
    destruct (chambers gs !! id) as [chamber|] eqn:Hch.
    + by rewrite IH.
    + rewrite bind_run. cbn [modify fst snd]. by rewrite IH.
Qed.

Lemma initializeChambers_run gs :
  initializeChambers PuzzleGenerators gs =
  (Ok tt,
   set_chambers
     (map_imap (λ id chamber, Some (stocked PuzzleGenerators implementedChambers id chamber))
               (registered (level (user gs)) chamberDefinitions (chambers gs))) gs).
Proof.
  unfold initializeChambers. rewrite init_loop, loadChamberPuzzles_run. done.
Qed.

Lemma registered_old lvl defs m id chamber :
  m !! id = Some chamber → registered lvl defs m !! id = Some chamber.
Proof.
  revert m. induction defs as [|[a [u c]] defs IH]; intros m Hm; [done|].
  unfold registered. simpl. apply IH.
  destruct (m !! a) eqn:Ha; [done|].
  rewrite lookup_insert_ne; [done|]. intros ->. congruence.
Qed.

Lemma registered_other lvl defs m id :
  m !! id = None → id ∉ defs.*1 → registered lvl defs m !! id = None.
Proof.
  revert m. induction defs as [|[a [u c]] defs IH]; intros m Hm Hid; [done|].
  unfold registered. simpl. simpl in Hid. apply not_elem_of_cons in Hid as [Hne Hid].
  apply IH; [|done]. destruct (m !! a); [done|]. by rewrite lookup_insert_ne.
Qed.

Lemma registered_new lvl defs m id unlock count :
  m !! id = None → NoDup defs.*1 → (id, (unlock, count)) ∈ defs →
  registered lvl defs m !! id = Some (newChamber lvl unlock count).
Proof.
  revert m. induction defs as [|[a [u c]] defs IH]; intros m Hm Hnd Hin.
  - by apply elem_of_nil in Hin.
  - simpl in Hnd. apply NoDup_cons in Hnd as [Ha Hnd].
    unfold registered. simpl. apply elem_of_cons in Hin as [[= -> -> ->]|Hin].
    + rewrite Hm. apply registered_old. by rewrite lookup_insert_eq.
    + assert (id ≠ a) as Hne.
      { intros ->. apply Ha. apply list_elem_of_fmap. by exists (a, (unlock, count)). }
      apply IH; [|done|done]. destruct (m !! a); [done|]. by rewrite lookup_insert_ne.
Qed.

Lemma chamberDefinitions_distinct : NoDup chamberDefinitions.*1.
Proof. apply (bool_decide_unpack _). by vm_compute. Qed.

(** X22. [initializeChambers] always returns, whatever the generators
    give, and touches the chambers only.  Every chamber of the definitions
    is there afterwards; a chamber that was there before keeps its unlock
    level, its puzzle count and its progress, and keeps its puzzles unless
    it had none and is one of the three implemented chambers; and no
    chamber outside the definitions is added. *)
Theorem initializeChambers_completes gs :
  ∃ gs',
    initializeChambers PuzzleGenerators gs = (Ok tt, gs') ∧
    currentChamber gs' = currentChamber gs ∧ currentPuzzle gs' = currentPuzzle gs ∧
    user gs' = user gs ∧ settings gs' = settings gs ∧ analytics gs' = analytics gs ∧
    (∀ id, id ∈ chamberDefinitions.*1 → is_Some (chambers gs' !! id)) ∧
    (∀ id chamber, chambers gs !! id = Some chamber →
       ∃ chamber', chambers gs' !! id = Some chamber' ∧
         unlockLevel chamber' = unlockLevel chamber ∧
         puzzleCount chamber' = puzzleCount chamber ∧
         progress chamber' = progress chamber ∧
         (puzzles chamber ≠ [] ∨ id ∉ implementedChambers →
          puzzles chamber' = puzzles chamber)) ∧
    (∀ id, is_Some (chambers gs' !! id) →
       is_Some (chambers gs !! id) ∨ id ∈ chamberDefinitions.*1).
Proof.
  eexists. split; [apply initializeChambers_run|].
  do 5 (split; [done|]). cbn [chambers set_chambers].
  set (lvl := level (user gs)). split_and!.
  - intros id Hid. rewrite map_lookup_imap.
    destruct (chambers gs !! id) as [chamber|] eqn:Hch.
    + by rewrite (registered_old _ _ _ _ _ Hch).
    + apply list_elem_of_fmap in Hid as ([a [u c]] & -> & Hin).
      by rewrite (registered_new lvl _ _ _ u c Hch chamberDefinitions_distinct Hin).
  - intros id chamber Hch. rewrite map_lookup_imap, (registered_old _ _ _ _ _ Hch).
    simpl. eexists. split; [done|]. unfold stocked.
    destruct (bool_decide (id ∈ implementedChambers)) eqn:Hin;
      destruct (length (puzzles chamber) =? 0)%nat eqn:Hlen; simpl; split_and!; try done.
    intros [Hne|Hni].
    + apply Nat.eqb_eq in Hlen. by destruct (puzzles chamber).
    + by apply bool_decide_eq_true_1 in Hin.
  - intros id. rewrite map_lookup_imap. intros Hsome.
    destruct (chambers gs !! id) as [chamber|] eqn:Hch; [by left|]. right.
    destruct (decide (id ∈ chamberDefinitions.*1)) as [|Hni]; [done|].
    rewrite (registered_other lvl _ _ _ Hch Hni) in Hsome. by destruct Hsome.
Qed.

(** X23. A game that starts without chambers gets exactly the twelve of
    the definitions, each at no puzzle completed and with the total of its
    definition, unlocked in its first puzzle when the level of the player
    reaches its unlock level.  The three implemented chambers get the
    puzzles of their generator, or placeholder puzzles, as many as their
    puzzle count, when there is no generator; the nine others get no
    puzzle at all. *)
Theorem initializeChambers_of_new_game gs :
  chambers gs = ∅ →
  ∃ gs',
    initializeChambers PuzzleGenerators gs = (Ok tt, gs') ∧
    (∀ id unlock count, (id, (unlock, count)) ∈ chamberDefinitions →
       chambers gs' !! id =
         Some (with_puzzles
                 (if bool_decide (id ∈ implementedChambers)
                  then match PuzzleGenerators id with
                       | Some generated => generated
                       | None => placeholder id <$> seqZ 1 count
                       end
                  else [])
                 (newChamber (level (user gs)) unlock count))) ∧
    (∀ id, id ∉ chamberDefinitions.*1 → chambers gs' !! id = None).
Proof.
  intros Hempty. eexists. split; [apply initializeChambers_run|].
  cbn [chambers set_chambers]. rewrite Hempty. split.
  - intros id unlock count Hin. rewrite map_lookup_imap.
    rewrite (registered_new _ _ _ _ unlock count (lookup_empty id)
               chamberDefinitions_distinct Hin).
    simpl. f_equal. unfold stocked, stock. simpl.
    by destruct (bool_decide (id ∈ implementedChambers)).
  - intros id Hni. rewrite map_lookup_imap.
    by rewrite (registered_other _ _ _ _ (lookup_empty id) Hni).
Qed.

(** X24. [generatePlaceholderPuzzles] throws a TypeError for a chamber that
    is not in the game.  For one that is, it changes nothing and returns
    as many puzzles as the puzzle count of the chamber (none when that is
    not positive); each is solved by the answer 0, has three hints and is
    worth 10, 15 or 25 points; the points never go down along the list. *)
Theorem generatePlaceholderPuzzles_gives id gs :
  match chambers gs !! id with
  | None => generatePlaceholderPuzzles id gs = (Throw TypeError, gs)
  | Some chamber =>
      ∃ ps, generatePlaceholderPuzzles id gs = (Ok ps, gs) ∧
        Z.of_nat (length ps) = Z.max 0 (puzzleCount chamber) ∧
        (∀ p, p ∈ ps →
           verdict (ANum 0) (correctAnswer p) = Ok true ∧
           length <$> hints p = Some 3%nat ∧
           ∃ pts, points p = Some pts ∧ (pts = 10 ∨ pts = 15 ∨ pts = 25)) ∧
        (∀ i j p q, ps !! i = Some p → ps !! j = Some q → (i ≤ j)%nat →
           js_or (points p) 10 ≤ js_or (points q) 10)
  end.
Proof.
  rewrite generatePlaceholderPuzzles_run.
  destruct (chambers gs !! id) as [chamber|]; [|done].
  eexists. split; [done|]. split_and!.
  - rewrite length_fmap, length_seqZ. lia.
  - intros p (i & -> & _)%list_elem_of_fmap. split; [done|]. split; [done|].
    simpl. eexists. split; [done|]. destruct (i <=? 8), (i <=? 16); auto.
  - intros i j p q Hp Hq Hij.
    rewrite list_lookup_fmap in Hp, Hq.
    destruct (seqZ 1 (puzzleCount chamber) !! i) as [x|] eqn:Hx; [|done].
    destruct (seqZ 1 (puzzleCount chamber) !! j) as [y|] eqn:Hy; [|done].
    injection Hp as <-. injection Hq as <-.
    apply lookup_seqZ in Hx as [-> _]. apply lookup_seqZ in Hy as [-> _].
    simpl. repeat case_match; lia.
Qed.

End chambers_more.

Lemma initializeChambers_of_new_game_witness :
  chambers (constructorState 0) = ∅ ∧
  ∃ gs',
    Game.initializeChambers (λ _, None) (constructorState 0) = (Ok tt, gs') ∧
    (puzzles <$> chambers gs' !! "set-theory") = Some [].
Proof.
  split; [reflexivity|].
  destruct (initializeChambers_of_new_game (λ _, None) (constructorState 0) eq_refl)
    as (gs' & Hrun & Hdefs & _).
  exists gs'. split; [exact Hrun|].
  rewrite (Hdefs "set-theory"%string 18 25); [reflexivity|].
  apply (bool_decide_unpack _). by vm_compute.
Defined.

(** * Loading again *)

Section persistence_more.
Import Game.

Lemma spread_twice a b : spread (spread a b) b = spread a b.
Proof. unfold spread. by rewrite (assoc_L (∪)), (idemp_L (∪)). Qed.

Lemma merged_twice pg data : merged (merged pg data) data = merged pg data.
Proof. unfold merged, set_raw_settings, set_raw_user. simpl. by rewrite !spread_twice. Qed.

(** X25. Loading is idempotent: whatever [localStorage] holds, and
    whatever the state, a second [loadGameData] right after the first
    changes nothing more. *)
Theorem loadGameData_again pg :
  loadGameData (loadGameData pg).2 = (Ok tt, (loadGameData pg).2).
Proof.
  rewrite !loadGameData_run. cbn [snd]. f_equal.
  unfold loaded at 1. rewrite loaded_keeps_storage.
  unfold loaded.
  destruct (present (mindforge_save pg)) as [[| |data]|]; try done.
  destruct (get_prop data "user"); try done.
  destruct (truthy (field data "chambers")); [|apply merged_twice].
  destruct (Map_new (field data "chambers")); try apply merged_twice.
  unfold set_raw_chambers. simpl. by rewrite !spread_twice.
Qed.

End persistence_more.

(** * Keyboard navigation *)

Section keyboard_more.
Import AccessibilityManager.
Context {Element : Type} `{EqDecision Element}.
Implicit Types (items : list Element) (target element : Element).

Lemma indexOf_range items target :
  -1 ≤ indexOf items target < Z.of_nat (length items).
Proof.
  induction items as [|y items IH]; simpl; [lia|].
  destruct (decide (y = target)); [lia|].
  destruct (indexOf items target =? -1) eqn:E; lia.
Qed.

Lemma indexOf_lookup items target :
  indexOf items target ≠ -1 →
  js_index items (indexOf items target) = Some target.
Proof.
  induction items as [|y items IH]; simpl; [done|].
  destruct (decide (y = target)) as [->|Hne]; [done|].
  destruct (indexOf items target =? -1) eqn:E; [done|]. intros _.
  apply Z.eqb_neq in E. specialize (IH E).
  pose proof (indexOf_range items target).
  apply js_index_Some in IH as [Hr Hl]. apply js_index_Some. simpl. split; [lia|].
  replace (Z.to_nat (indexOf items target + 1)) with (S (Z.to_nat (indexOf items target)))
    by lia. done.
Qed.

Lemma indexOf_NoDup items (i : nat) target :
  NoDup items → items !! i = Some target → indexOf items target = Z.of_nat i.
Proof.
  intros Hnd. revert i. induction Hnd as [|y items Hy Hnd IH]; intros i Hi; [done|].
  simpl. destruct i as [|i]; simpl in Hi.
  - injection Hi as ->. by rewrite decide_True.
  - rewrite decide_False.
    + rewrite (IH i Hi). destruct (Z.of_nat i =? -1) eqn:E; lia.
    + intros ->. apply Hy. by eapply list_elem_of_lookup_2.
Qed.

Lemma indexOf_elem items target : target ∈ items → indexOf items target ≠ -1.
Proof.
  induction 1 as [|x y items Hin IH]; simpl.
  - by rewrite decide_True.
  - destruct (decide (y = x)); [done|].
    destruct (indexOf items x =? -1) eqn:E; [by apply Z.eqb_eq in E|].
    pose proof (indexOf_range items x). lia.
Qed.

Lemma focus_within items (i : Z) :
  0 ≤ i < Z.of_nat (length items) →
  ∃ element, focus items i = Ok (Some element) ∧ js_index items i = Some element.
Proof.
  intros Hi. unfold focus.
  destruct (js_index items i) as [element|] eqn:E; [by exists element|].
  apply js_index_None in E. lia.
Qed.

(** [getGridColumns] gives at least one column, when the widths it
    reads are not negative, as an [offsetWidth] never is. *)
Lemma getGridColumns_positive columns widths :
  (∀ gridWidth itemWidth, widths = Some (gridWidth, itemWidth) →
     0 ≤ gridWidth ∧ 0 ≤ itemWidth) →
  match getGridColumns columns widths with
  | Finite n => 1 ≤ n
  | Infinity => True
  end.
Proof.
  intros Hw. unfold getGridColumns.
  destruct (negb (String.eqb columns "") && negb (String.eqb columns "none")).
  - clear. assert (∀ s, 1 ≤ split_length s) as H; [|apply H].
    induction s as [|c s IH]; simpl; [lia|]. destruct (Ascii.eqb c " "); lia.
  - destruct widths as [[gridWidth itemWidth]|]; [|lia].
    destruct (Hw _ _ eq_refl) as [Hg Hi].
    destruct (itemWidth =? 0) eqn:E0; [by destruct (0 <? gridWidth)|].
    apply Z.eqb_neq in E0.
    destruct (gridWidth `div` itemWidth =? 0) eqn:Eq; [lia|].
    apply Z.eqb_neq in Eq.
    pose proof (Z.div_pos gridWidth itemWidth Hg ltac:(lia)). lia.
Qed.

(** X26. In a grid whose widths are not negative, [navigateGrid] never
    throws.  When it moves the focus, it is to a card of the grid at
    another position than that of the target; the arrows do not wrap:
    nothing happens on ArrowRight and ArrowDown at the last card, nor on
    ArrowLeft and ArrowUp at the first; and no other key does anything. *)
Theorem navigateGrid_stays_in_grid key target (grid : Grid) :
  (∀ gridWidth itemWidth, firstItem grid = Some (gridWidth, itemWidth) →
     0 ≤ gridWidth ∧ 0 ≤ itemWidth) →
  let currentIndex := indexOf (cards grid) target in
  let last := Z.of_nat (length (cards grid)) - 1 in
  (navigateGrid key target (Some grid) = Ok None ∨
   ∃ element newIndex,
     navigateGrid key target (Some grid) = Ok (Some element) ∧
     js_index (cards grid) newIndex = Some element ∧
     currentIndex ≠ -1 ∧ newIndex ≠ currentIndex ∧
     match key with
     | ArrowRight => newIndex = currentIndex + 1
     | ArrowLeft => newIndex = currentIndex - 1
     | ArrowDown => currentIndex < newIndex ≤ last
     | ArrowUp => 0 ≤ newIndex < currentIndex
     | OtherKey => False
     end) ∧
  (currentIndex = last → key = ArrowRight ∨ key = ArrowDown →
   navigateGrid key target (Some grid) = Ok None) ∧
  (currentIndex = 0 → key = ArrowLeft ∨ key = ArrowUp →
   navigateGrid key target (Some grid) = Ok None).
Proof.
  intros Hw currentIndex last.
  pose proof (getGridColumns_positive (gridTemplateColumns grid) (firstItem grid) Hw) as Hc.
  pose proof (indexOf_range (cards grid) target) as Hr. fold currentIndex in Hr.
  unfold navigateGrid. fold currentIndex.
  destruct (currentIndex =? -1) eqn:E.
  { apply Z.eqb_eq in E. split; [by left|]. split; intros; [done|lia]. }
  apply Z.eqb_neq in E.
  set (columns := getGridColumns (gridTemplateColumns grid) (firstItem grid)) in *.
  assert (∀ newIndex,
            newIndex ≠ currentIndex → 0 ≤ newIndex ≤ last →
            ∃ element,
              (if negb (newIndex =? currentIndex) then focus (cards grid) newIndex
               else Ok None) = Ok (Some element) ∧
              js_index (cards grid) newIndex = Some element) as Hmove.
  { intros newIndex Hne Hin. apply Z.eqb_neq in Hne. rewrite Hne. simpl.
    apply focus_within. unfold last in Hin. lia. }
  assert (∀ newIndex,
            newIndex = currentIndex →
            (if negb (newIndex =? currentIndex) then focus (cards grid) newIndex
             else Ok None) = Ok None) as Hstay.
  { intros newIndex ->. by rewrite Z.eqb_refl. }
  split_and!.
  - destruct key; [| | | |by left].
    + destruct (decide (currentIndex = last)) as [Hl|Hl].
      * left. apply Hstay. lia.
      * right. destruct (Hmove (Z.min (currentIndex + 1) (Z.of_nat (length (cards grid)) - 1)))
          as (element & H1 & H2); [lia|unfold last in *; lia|].
        exists element, (Z.min (currentIndex + 1) (Z.of_nat (length (cards grid)) - 1)).
        split_and!; try done; unfold last in *; lia.
    + destruct (decide (currentIndex = 0)) as [Hl|Hl].
      * left. apply Hstay. lia.
      * right. destruct (Hmove (Z.max (currentIndex - 1) 0))
          as (element & H1 & H2); [lia|unfold last in *; lia|].
        exists element, (Z.max (currentIndex - 1) 0).
        split_and!; try done; lia.
    + destruct (decide (currentIndex = last)) as [Hl|Hl].
      * left. apply Hstay. destruct columns; unfold last in *; lia.
      * right.
        set (newIndex := match columns with
                         | Finite columns =>
                             Z.min (currentIndex + columns) (Z.of_nat (length (cards grid)) - 1)
                         | Infinity => Z.of_nat (length (cards grid)) - 1
                         end).
        assert (currentIndex < newIndex ≤ last) as Hn
          by (unfold newIndex, last in *; destruct columns; lia).
        destruct (Hmove newIndex) as (element & H1 & H2); [lia|lia|].
        exists element, newIndex. split_and!; try done; lia.
    + destruct (decide (currentIndex = 0)) as [Hl|Hl].
      * left. apply Hstay. destruct columns; lia.
      * right.
        set (newIndex := match columns with
                         | Finite columns => Z.max (currentIndex - columns) 0
                         | Infinity => 0
                         end).
        assert (0 ≤ newIndex < currentIndex) as Hn
          by (unfold newIndex; destruct columns; lia).
        destruct (Hmove newIndex) as (element & H1 & H2); [lia|unfold last; lia|].
        exists element, newIndex. split_and!; try done; lia.
  - intros Hl [->| ->]; apply Hstay; [lia|]. destruct columns; unfold last in *; lia.
  - intros Hl [->| ->]; apply Hstay; [lia|]. destruct columns; lia.
Qed.

(** X27. In a list of distinct items, [navigateList] wraps around, and
    the arrows undo each other: from an item of the list, ArrowDown moves
    the focus to the next item, or to the first from the last, and ArrowUp
    from there moves it back; ArrowRight and ArrowLeft do the same. *)
Theorem navigateList_there_and_back items target :
  NoDup items → target ∈ items →
  ∃ next,
    navigateList ArrowDown target (Some items) = Ok (Some next) ∧
    navigateList ArrowRight target (Some items) = Ok (Some next) ∧
    navigateList ArrowUp next (Some items) = Ok (Some target) ∧
    navigateList ArrowLeft next (Some items) = Ok (Some target) ∧
    indexOf items next =
      (if indexOf items target + 1 <? Z.of_nat (length items)
       then indexOf items target + 1 else 0).
Proof.
  intros Hnd Hin.
  pose proof (indexOf_elem items target Hin) as Hfound.
  pose proof (indexOf_range items target) as Hr.
  pose proof (indexOf_lookup items target Hfound) as Hat.
  set (i := indexOf items target) in *. set (n := Z.of_nat (length items)) in *.
  set (j := if i + 1 <? n then i + 1 else 0).
  assert ((i + 1) `rem` n = j) as Hj.
  { unfold j. destruct (i + 1 <? n) eqn:E.
    - apply Z.ltb_lt in E. apply Z.rem_small. lia.
    - apply Z.ltb_ge in E. replace (i + 1) with n by lia. apply Z.rem_same. lia. }
  assert (0 ≤ j < n) as Hjr by (unfold j; destruct (i + 1 <? n) eqn:E; lia).
  destruct (focus_within items j Hjr) as (next & Hfocus & Hnext).
  assert (indexOf items next = j) as Hidx.
  { apply js_index_Some in Hnext as [_ Hnext].
    rewrite (indexOf_NoDup items _ next Hnd Hnext). lia. }
  assert ((j - 1 + n) `rem` n = i) as Hback.
  { unfold j. destruct (i + 1 <? n) eqn:E.
    - replace (i + 1 - 1 + n) with (i + 1 * n) by lia.
      rewrite Z.rem_add by lia. apply Z.rem_small. lia.
    - apply Z.ltb_ge in E. replace (0 - 1 + n) with i by lia. apply Z.rem_small. lia. }
  assert (focus items i = Ok (Some target)) as Hfi by (unfold focus; by rewrite Hat).
  exists next. unfold navigateList. fold i n. rewrite Hidx.
  apply Z.eqb_neq in Hfound. rewrite Hfound.
  assert ((j =? -1) = false) as -> by (apply Z.eqb_neq; lia).
  cbn zeta. cbn match. rewrite Hj, Hback, Hfocus, Hfi. done.
Qed.

End keyboard_more.

Lemma navigateGrid_stays_in_grid_witness :
  AccessibilityManager.navigateGrid ArrowDown 4%nat
    (Some {| AccessibilityManager.cards := [1; 2; 3; 4; 5]%nat;
             AccessibilityManager.gridTemplateColumns := "none";
             AccessibilityManager.firstItem := Some (900, 300) |}) = Ok (Some 5%nat) ∧
  AccessibilityManager.navigateGrid ArrowRight 5%nat
    (Some {| AccessibilityManager.cards := [1; 2; 3; 4; 5]%nat;
             AccessibilityManager.gridTemplateColumns := "none";
             AccessibilityManager.firstItem := Some (900, 300) |}) = Ok None.
Proof.
  split; [reflexivity|].
  destruct (navigateGrid_stays_in_grid ArrowRight 5%nat
              {| AccessibilityManager.cards := [1; 2; 3; 4; 5]%nat;
                 AccessibilityManager.gridTemplateColumns := "none";
                 AccessibilityManager.firstItem := Some (900, 300) |})
    as (_ & Hlast & _).
  - intros gridWidth itemWidth [= <- <-]. lia.
  - apply Hlast; [reflexivity|by left].
Defined.

Lemma navigateList_there_and_back_witness :
  NoDup ["a"; "b"; "c"]%string ∧ "c"%string ∈ ["a"; "b"; "c"]%string ∧
  ∃ next,
    AccessibilityManager.navigateList ArrowDown "c"%string (Some ["a"; "b"; "c"]%string)
      = Ok (Some next) ∧
    AccessibilityManager.navigateList ArrowUp next (Some ["a"; "b"; "c"]%string)
      = Ok (Some "c"%string).
Proof.
  assert (NoDup ["a"; "b"; "c"]%string) as H1 by (apply (bool_decide_unpack _); by vm_compute).
  assert ("c"%string ∈ ["a"; "b"; "c"]%string) as H2
    by (apply (bool_decide_unpack _); by vm_compute).
  split; [exact H1|]. split; [exact H2|].
  destruct (navigateList_there_and_back ["a"; "b"; "c"]%string "c"%string H1 H2)
    as (next & Hdown & _ & Hup & _).
  exists next. split; [exact Hdown|exact Hup].
Defined.

(** * What the player is shown *)

Section display_more.
Import MindForge.

Lemma append_length s t :
  String.length (s +:+ t) = (String.length s + String.length t)%nat.
Proof. induction s as [|c s IH]; [done|]. simpl. f_equal. exact IH. Qed.

Lemma append_assoc s t u : s +:+ (t +:+ u) = (s +:+ t) +:+ u.
Proof.
  induction s as [|c s IH]; [done|].
  change (String c (s +:+ (t +:+ u)) = String c ((s +:+ t) +:+ u)). by f_equal.
Qed.

Lemma append_inj_tail s1 s2 t1 t2 :
  String.length t1 = String.length t2 → s1 +:+ t1 = s2 +:+ t2 → s1 = s2 ∧ t1 = t2.
Proof.
  intros Hlen. revert s2. induction s1 as [|c s1 IH]; intros [|c' s2] Heq.
  - done.
  - change (t1 = String c' (s2 +:+ t2)) in Heq.
    rewrite Heq in Hlen. simpl in Hlen. rewrite append_length in Hlen. lia.
  - change (String c (s1 +:+ t1) = t2) in Heq.
    rewrite <- Heq in Hlen. simpl in Hlen. rewrite append_length in Hlen. lia.
  - change (String c (s1 +:+ t1) = String c' (s2 +:+ t2)) in Heq.
    injection Heq as -> Heq. destruct (IH _ Heq) as [-> ->]. done.
Qed.

Lemma seconds_two_digits r :
  0 ≤ r < 60 →
  ∃ c1 c2, padStart 2 "0" (pretty r) = String c1 (String c2 "") ∧ c2 ≠ "s"%char.
Proof.
  intros Hr.
  assert (forallb (λ r, match padStart 2 "0" (pretty r) with
                        | String c1 (String c2 EmptyString) => negb (Ascii.eqb c2 "s")
                        | _ => false
                        end) (seqZ 0 60) = true) as H by (vm_compute; reflexivity).
  apply Is_true_true_2, forallb_True in H. rewrite Forall_forall in H.
  specialize (H r). rewrite elem_of_seqZ in H. specialize (H ltac:(lia)).
  destruct (padStart 2 "0" (pretty r)) as [|c1 [|c2 [|]]]; try done.
  exists c1, c2. split; [done|]. intros ->. done.
Qed.

Lemma seconds_two_digits_inj r r' :
  0 ≤ r < 60 → 0 ≤ r' < 60 →
  padStart 2 "0" (pretty r) = padStart 2 "0" (pretty r') → r = r'.
Proof.
  intros Hr Hr' Heq.
  assert (forallb (λ r, forallb (λ r',
            implb (String.eqb (padStart 2 "0" (pretty r)) (padStart 2 "0" (pretty r')))
                  (r =? r')) (seqZ 0 60)) (seqZ 0 60) = true) as H
    by (vm_compute; reflexivity).
  apply Is_true_true_2, forallb_True in H. rewrite Forall_forall in H.
  specialize (H r). rewrite elem_of_seqZ in H. specialize (H ltac:(lia)).
  apply forallb_True in H. rewrite Forall_forall in H.
  specialize (H r'). rewrite elem_of_seqZ in H. specialize (H ltac:(lia)).
  apply String.eqb_eq in Heq. rewrite Heq in H. simpl in H.
  apply Is_true_true_1 in H. by apply Z.eqb_eq in H.
Qed.

(** X28. The time shown tells the whole seconds, and nothing else: two
    durations that are not negative are shown as the same text exactly
    when they have the same number of whole seconds. *)
Theorem formatTime_tells_the_seconds a b :
  0 ≤ a → 0 ≤ b →
  formatTime a = formatTime b ↔ a `div` 1000 = b `div` 1000.
Proof.
  intros Ha Hb. split; [|unfold formatTime; by intros ->].
  unfold formatTime.
  set (sa := a `div` 1000). set (sb := b `div` 1000).
  assert (0 ≤ sa) as Hsa by (apply Z.div_pos; lia).
  assert (0 ≤ sb) as Hsb by (apply Z.div_pos; lia).
  assert (∀ s, 0 ≤ s → 0 ≤ s `rem` 60 < 60 ∧ s = 60 * (s `div` 60) + s `rem` 60) as Hrem.
  { intros s Hs. rewrite Z.rem_mod_nonneg by lia.
    pose proof (Z.mod_pos_bound s 60 ltac:(lia)). pose proof (Z.div_mod s 60 ltac:(lia)).
    lia. }
  destruct (Hrem sa Hsa) as [Hra Hda]. destruct (Hrem sb Hsb) as [Hrb Hdb].
  destruct (seconds_two_digits _ Hra) as (a1 & a2 & Hpa & Hna).
  destruct (seconds_two_digits _ Hrb) as (b1 & b2 & Hpb & Hnb).
  destruct (0 <? sa `div` 60) eqn:Ea; destruct (0 <? sb `div` 60) eqn:Eb; intros Heq.
  - apply append_inj_tail in Heq as [Hm Ht]; [|by rewrite Hpa, Hpb].
    apply (inj pretty) in Hm. injection Ht as Ht.
    apply seconds_two_digits_inj in Ht; [lia|done|done].
  - exfalso. rewrite Hpa in Heq.
    change (pretty (sa `div` 60) +:+ ":" +:+ String a1 (String a2 ""))
      with (pretty (sa `div` 60) +:+ (String ":" (String a1 "") +:+ String a2 "")) in Heq.
    rewrite append_assoc in Heq.
    apply append_inj_tail in Heq as [_ [= ->]]; done.
  - exfalso. rewrite Hpb in Heq.
    change (pretty (sb `div` 60) +:+ ":" +:+ String b1 (String b2 ""))
      with (pretty (sb `div` 60) +:+ (String ":" (String b1 "") +:+ String b2 "")) in Heq.
    rewrite append_assoc in Heq.
    apply append_inj_tail in Heq as [_ [= <-]]; done.
  - apply append_inj_tail in Heq as [Hm _]; [|done]. by apply (inj pretty) in Hm.
Qed.

Lemma formatTime_tells_the_seconds_witness :
  0 ≤ 61000 ∧ 0 ≤ 61999 ∧ formatTime 61000 = "1:01"%string ∧
  formatTime 61999 = formatTime 61000.
Proof.
  assert (0 ≤ 61999) as H1 by lia. assert (0 ≤ 61000) as H2 by lia.
  split; [exact H2|]. split; [exact H1|]. split; [vm_compute; reflexivity|].
  apply (formatTime_tells_the_seconds 61999 61000 H1 H2). reflexivity.
Defined.

End display_more.

(** * The analytics logs *)

Section logs_more.

Lemma is_json_jsonify v : v ≠ VUndefined → is_json (jsonify v) = true.
Proof.
  induction v as [| | | | |items IH|fields IH] using value_nested_ind; intros Hv;
    try done; clear Hv; simpl.
  - induction IH as [|x items Hx _ IHitems]; [done|]. simpl.
    rewrite IHitems, andb_true_r. destruct x; try done; by apply Hx.
  - induction IH as [|[k x] fields Hx _ IHfields]; [done|]. simpl in Hx.
    destruct x; simpl; rewrite ?IHfields; try done.
    + rewrite andb_true_r. by apply Hx.
    + rewrite andb_true_r. by apply Hx.
Qed.

Lemma is_json_as_element v : is_json (as_element v) = true.
Proof. destruct v; try done; by apply is_json_jsonify. Qed.

Lemma stringify_elements items :
  jsonify (VArr items) = VArr (as_element <$> items).
Proof. done. Qed.






Lemma last_drop_lt {A} (l : list A) n : (n < length l)%nat → last (drop n l) = last l.
Proof.
  intros Hn. rewrite !last_lookup, lookup_drop, length_drop. f_equal. lia.
Qed.

(** X30. [storeEventLocally] never throws, and keeps the log bounded.
    When the item ['mindforge_analytics'] of [localStorage] is absent,
    empty or an array, the item holds afterwards the last 1000 of the
    events it held followed by the new one: at most 1000 events, the
    newest last.  When the item is anything else, it is left as it is. *)
Theorem storeEventLocally_bounded event item :
  ∃ item',
    AnalyticsManager.storeEventLocally event item = (Ok tt, item') ∧
    match storedEvents item with
    | Some events =>
        ∃ kept,
          storedEvents item' = Some kept ∧
          Z.of_nat (length kept) = Z.min (Z.of_nat (length events) + 1) 1000 ∧
          kept `suffix_of` (as_element <$> events ++ [event]) ∧
          last kept = Some (as_element event)
    | None => item' = item
    end.
Proof.
  unfold AnalyticsManager.storeEventLocally, try_catch, storedEvents.
  rewrite bind_run. cbn [get fst snd]. unfold lift at 1. rewrite bind_run.
  assert (∀ events : list value,
            let all := events ++ [event] in
            let kept := as_element <$>
                          (if (1000 <? length all)%nat then drop (length all - 1000) all
                           else all) in
            Z.of_nat (length kept) = Z.min (Z.of_nat (length events) + 1) 1000 ∧
            kept `suffix_of` (as_element <$> all) ∧
            last kept = Some (as_element event)) as Hkept.
  { intros events all kept. subst kept.
    assert (length all = S (length events)) as Hlen
      by (unfold all; rewrite length_app; simpl; lia).
    destruct (1000 <? length all)%nat eqn:E.
    - apply Nat.ltb_lt in E. split_and!.
      + rewrite length_fmap, length_drop. lia.
      + rewrite fmap_drop. apply suffix_drop.
      + rewrite fmap_drop, last_drop_lt by (rewrite length_fmap; lia).
        unfold all. rewrite fmap_app. apply last_snoc.
    - apply Nat.ltb_ge in E. split_and!.
      + rewrite length_fmap. lia.
      + done.
      + unfold all. rewrite fmap_app. apply last_snoc. }
  destruct (present item) as [[| |v]|] eqn:Hp.
  - destruct item as [[]|]; done.
  - eexists. split; [done|]. done.
  - destruct v as [| | | | |events|]; try (eexists; split; [done|]; done).
    eexists. split; [done|]. simpl. eexists. split; [done|]. apply Hkept.
  - eexists. split; [done|]. simpl. eexists. split; [done|]. apply (Hkept []).
Qed.

End logs_more.
